(** * amp-access 0.1: the access service of [extensions/amp-access/0.1/amp-access.js]

    A shallow embedding of [AccessService]: the configuration builder, the
    authorization flow with its first/last promise pair, the view detector,
    the pingback reporter and the login coordinator, over a small model of
    JavaScript promises and of the host page (timers, listeners, network). *)

From Stdlib Require Import ZArith String List Bool Lia.
From stdpp Require Import base option list strings gmap pretty.

Set Warnings "-register-all".
Local Open Scope Z_scope.
Local Open Scope string_scope.

(** ** JSON trees and JavaScript values *)

(** The result of [JSON.parse]. Numbers are integers; the code modelled here
    only ever tests a number for being zero. An object is the list of its own
    properties, each key once, in the order [for .. in] enumerates them. The
    key [__proto__] is an own property like any other: [JSON.parse] defines
    it, it does not assign it. *)
Inductive json : Type :=
| JNull
| JBool (b : bool)
| JNum (n : Z)
| JStr (s : string)
| JArr (l : list json)
| JObj (l : list (string * json)).

(** A property read [o[k]], or a variable, that may be [undefined]. *)
Definition jsval : Type := option json.

(** JavaScript truthiness ([if (v)], [!v], [v || w]). *)
Definition truthy (v : jsval) : bool :=
  match v with
  | None => false
  | Some JNull => false
  | Some (JBool b) => b
  | Some (JNum n) => negb (Z.eqb n 0)
  | Some (JStr s) => negb (String.eqb s "")
  | Some (JArr _) => true
  | Some (JObj _) => true
  end.

Arguments truthy : simpl never.

(** The values that promises, property reads and calls hand around: besides
    JSON trees and strings, the lists [Promise.all] makes, and the built-in
    functions and objects of the engine, named by the property that answers
    them ([{}.toString], [{}.constructor], ..). *)
Inductive value : Type :=
| VUndef
| VJson (j : json)
| VStr (s : string)
| VArr (l : list value)
| VBuiltin (name : string).

Definition value_truthy (v : value) : bool :=
  match v with
  | VUndef => false
  | VJson j => truthy (Some j)
  | VStr s => negb (String.eqb s "")
  | VArr _ => true
  | VBuiltin _ => true
  end.

(** Own-property lookup in a property list. *)
Fixpoint assoc {A : Type} (k : string) (l : list (string * A)) : option A :=
  match l with
  | [] => None
  | (k', v) :: l' => if String.eqb k k' then Some v else assoc k l'
  end.

(** [o[k] = v]: overwrite in place, or append a new property. *)
Fixpoint assoc_set {A : Type} (k : string) (v : A) (l : list (string * A))
  : list (string * A) :=
  match l with
  | [] => [(k, v)]
  | (k', v') :: l' =>
      if String.eqb k k' then (k, v) :: l' else (k', v') :: assoc_set k v l'
  end.

(** Errors thrown by the code or by its collaborators. [UserError] is what
    [user.assert], [user.createError], [user.assertEnumValue] and
    [assertHttpsUrl] throw: a configuration error of the publisher. *)
Inductive error : Type :=
| UserError (msg : string)
| DevError (msg : string)
| TypeError
| Cancellation
| TimeoutError
| Failure (msg : string).

Inductive res (A : Type) : Type :=
| Ok (a : A)
| Throw (e : error).
Arguments Ok {A} a.
Arguments Throw {A} e.

Definition is_user_error {A : Type} (r : res A) : Prop :=
  ∃ msg, r = Throw (UserError msg).

(** ** Imported helpers and built-ins

    The functions the file imports from modules outside the extension, and
    the property names the built-in prototypes of the engine answer. They are
    parameters of the development. *)

Inductive AccessType : Type := CLIENT | SERVER | OTHER.

Global Instance AccessType_eq_dec : EqDecision AccessType.
Proof. solve_decision. Defined.

Class Imports : Type := {
  (** [assertHttpsUrl(url)] of [src/url]: [true] when the assertion passes. *)
  assertHttpsUrl : json → bool;
  (** [user.assertEnumValue(AccessType, v, ..)] of [src/log]: the enum value
      [v] stands for, or [None] when it throws. *)
  assertEnumValue : json → option AccessType;
  (** [parseQueryString(s)] of [src/url], as the lookup it returns. *)
  parseQueryString : string → string → option string;
  (** [getValueForExpr(obj, expr)] of [src/json]. *)
  getValueForExpr : json → string → jsval;
  (** The properties of [Object.prototype] other than [__proto__]
      ([constructor], [toString], [hasOwnProperty], ..): every plain object
      answers them with a function, unless a property of its own has the
      name. *)
  objectPrototypeHas : string → bool;
  (** The same for [Array.prototype] ([push], [map], ..). *)
  arrayPrototypeHas : string → bool;
}.

(** ** Plain objects

    [config_.loginMap] and [loginUrlMap_] are made by [{}] and filled by
    [o[k] = v]; they are read by [o[k]], [for (k in o)] and [Object.keys(o)].
    Such an object has its own properties and a prototype: [Object.prototype]
    at first; an assignment to the key [__proto__] runs the setter that
    [Object.prototype] has for it, which replaces the prototype when the
    value is an object, an array or [null], and does nothing otherwise. *)

Inductive prototype : Type :=
| ProtoObject                            (* Object.prototype *)
| ProtoNull
| ProtoObj (l : list (string * json))    (* an object of the parsed JSON *)
| ProtoArr (l : list json).              (* an array of the parsed JSON *)

Record object : Type := Obj {
  own : list (string * json);
  proto : prototype;
}.

(** [{}] *)
Definition empty_object : object := Obj [] ProtoObject.

Definition has_own {A : Type} (k : string) (l : list (string * A)) : bool :=
  match assoc k l with Some _ => true | None => false end.

(** Whether an assignment to [__proto__] finds the setter of
    [Object.prototype]: not behind a [null] prototype, and not when an object
    on the way has a data property of that name. *)
Definition reaches_setter (p : prototype) : bool :=
  match p with
  | ProtoObject => true
  | ProtoNull => false
  | ProtoObj l => negb (has_own "__proto__" l)
  | ProtoArr _ => true
  end.

(** [o[k] = v] *)
Definition obj_set (k : string) (v : json) (o : object) : object :=
  if has_own k (own o) then Obj (assoc_set k v (own o)) (proto o)
  else if String.eqb k "__proto__" && reaches_setter (proto o) then
    match v with
    | JObj l => Obj (own o) (ProtoObj l)
    | JArr l => Obj (own o) (ProtoArr l)
    | JNull => Obj (own o) ProtoNull
    | _ => o
    end
  else Obj (assoc_set k v (own o)) (proto o).

(** The enumerable properties a prototype contributes to [for .. in]: the
    properties of a JSON object, the elements of a JSON array under their
    indices; the built-in prototypes have none. *)
Definition proto_entries (p : prototype) : list (string * json) :=
  match p with
  | ProtoObj l => l
  | ProtoArr l => imap (λ i v, (pretty i, v)) l
  | _ => []
  end.

(** [for (const k in o)] with [o[k]]: the own properties, then those of the
    prototype that no own property hides. *)
Definition obj_entries (o : object) : list (string * json) :=
  own o ++
  filter (λ kv, has_own (fst kv) (own o) = false) (proto_entries (proto o)).

(** [Object.keys(o).length] *)
Definition obj_size (o : object) : nat := length (own o).

(** ** Configuration: [buildConfig_] and [buildConfigLoginMap_] *)

Record AccessConfigDef : Type := {
  type : AccessType;
  authorization : jsval;
  pingback : jsval;
  loginMap : object;
  authorizationFallbackResponse : jsval;
}.

(** The own properties read by [configJson[k]]: reading a property of
    [null] throws a [TypeError]; a number, string, boolean or array has none
    of the five properties read here. *)
Definition own_props (configJson : json) : res (list (string * json)) :=
  match configJson with
  | JNull => Throw TypeError
  | JObj l => Ok l
  | _ => Ok []
  end.

(** The loop [for (const k in loginConfig) loginMap[k] = loginConfig[k]]. *)
Fixpoint copy_props (keys : list string) (src : list (string * json))
    (acc : object) : object :=
  match keys with
  | [] => acc
  | k :: keys' =>
      copy_props keys' src
        (match assoc k src with Some v => obj_set k v acc | None => acc end)
  end.

Definition buildConfigLoginMap_ (loginConfig : jsval) : res object :=
  if negb (truthy loginConfig) then Ok empty_object
  else match loginConfig with
       | Some (JStr s) => Ok (obj_set "" (JStr s) empty_object)
       | Some (JObj l) => Ok (copy_props (map fst l) l empty_object)
       | _ => Throw (UserError
                "login must be either a single URL or a map of URLs")
       end.

(** [user.assert(cond, msg)] *)
Definition user_assert (cond : bool) (msg : string) (k : res AccessConfigDef)
  : res AccessConfigDef :=
  if cond then k else Throw (UserError msg).

Section Config.
Context {imports : Imports}.

(** What [Object.prototype] answers to a read of [k] that reached it, for a
    receiver whose prototype is [self]: the getter of [__proto__] hands back
    that prototype. *)
Definition object_prototype_get (self : value) (k : string) : value :=
  if String.eqb k "__proto__" then self
  else if objectPrototypeHas k then VBuiltin k
  else VUndef.

(** A read of [k] that no own property answered. *)
Definition proto_get (p : prototype) (k : string) : value :=
  match p with
  | ProtoObject => object_prototype_get (VBuiltin "Object.prototype") k
  | ProtoNull => VUndef
  | ProtoObj l =>
      match assoc k l with
      | Some v => VJson v
      | None => object_prototype_get (VJson (JObj l)) k
      end
  | ProtoArr l =>
      match assoc k (imap (λ i v, (pretty i, v)) l) with
      | Some v => VJson v
      | None =>
          if String.eqb k "length" then VJson (JNum (Z.of_nat (length l)))
          else if arrayPrototypeHas k then VBuiltin k
          else object_prototype_get (VJson (JArr l)) k
      end
  end.

(** [o[k]] *)
Definition obj_get (o : object) (k : string) : value :=
  match assoc k (own o) with
  | Some v => VJson v
  | None => proto_get (proto o) k
  end.

(** [if (v) assertHttpsUrl(v)] *)
Definition url_ok (v : jsval) : bool :=
  match v with
  | Some u => if truthy v then assertHttpsUrl u else true
  | None => true
  end.

(** The access type of l.193: [configJson['type']] checked against the
    enum, [CLIENT] when it is absent or falsy; [None] when the check throws. *)
Definition config_type (ty : jsval) : option AccessType :=
  match ty with
  | Some t => if truthy (Some t) then assertEnumValue t else Some CLIENT
  | None => Some CLIENT
  end.

(** [buildConfig_], from the parsed JSON of the element ([None] when
    [JSON.parse] throws). *)
Definition buildConfig_ (parsed : option json) : res AccessConfigDef :=
  match parsed with
  | None => Throw (UserError "Failed to parse amp-access JSON")
  | Some configJson =>
    match own_props configJson with
    | Throw e => Throw e
    | Ok props =>
      match config_type (assoc "type" props) with
      | None => Throw (UserError "Unknown access type value")
      | Some type =>
        match buildConfigLoginMap_ (assoc "login" props) with
        | Throw e => Throw e
        | Ok lm =>
          let config :=
            {| type := type;
               authorization := assoc "authorization" props;
               pingback := assoc "pingback" props;
               loginMap := lm;
               authorizationFallbackResponse :=
                 assoc "authorizationFallbackResponse" props |} in
          (* Check that all URLs are valid. *)
          user_assert (url_ok (authorization config)) "source must be https" (
          user_assert (url_ok (pingback config)) "source must be https" (
          user_assert
            (forallb (λ kv, assertHttpsUrl (snd kv))
               (obj_entries (loginMap config)))
            "source must be https" (
          (* Validate type = client/server. *)
          if bool_decide (type = CLIENT) || bool_decide (type = SERVER) then
            user_assert (truthy (authorization config))
              "authorization URL must be specified" (
            user_assert (truthy (pingback config))
              "pingback URL must be specified" (
            user_assert (0 <? Z.of_nat (obj_size (loginMap config)))%Z
              "At least one login URL must be specified" (
            Ok config)))
          else Ok config)))
        end
      end
    end
  end.

End Config.

(** ** Promises

    A promise is a cell of the heap, named by its index. The cell records
    how the promise was made, which is what decides when it may settle:
    - [ODeferred]: [new Promise(..)], [Promise.resolve(v)] or the promise of
      a collaborator; settled through its resolver functions;
    - [OThen src f r]: [src.then(f, r)] ([src.catch(r)] has no [f]), whose
      reaction runs once [src] has settled;
    - [OAdopt q]: a reaction returned the promise [q], which this one follows;
    - [OAll ps]: [Promise.all(ps)]. *)

Abbreviation pid := nat (only parsing).

Inductive pstate : Type :=
| Pending
| Fulfilled (v : value)
| Rejected (e : error).

(** [listen]/[delay] hand back a way to undo them. *)
Inductive unlisten : Type :=
| UListener (h : nat)
| UTimer (id : nat).

(** What a deferred promise stands for. *)
Inductive external : Type :=
| XResolver                          (* settled by this file's own code *)
| XAnalytics                         (* analyticsFor(win) *)
| XCid                               (* cid.get({scope: 'amp-access', ..}) *)
| XExpand (url : json) (readerId : value) (useAuthData : bool)
                                     (* urlReplacements_.expand(url, vars) *)
| XFetch (url : value)               (* timeoutPromise(3000, fetchJson(url)) *)
| XApply (response : value)          (* onDocumentReady + applyAuthorization_ *)
| XDialog (loginUrl : value)         (* openLoginDialog_(loginUrl) *)
| XSignal (url : value).             (* xhr_.sendSignal(url, ..) *)

(** The closures the file passes to [then] and [catch], one constructor per
    closure, holding the variables it captures. *)
Inductive on_fulfilled : Type :=
| HAuthorizationReceived             (* constructor, l.175 *)
| HTriggerEvent (eventType : string) (* analyticsEvent_, l.260 *)
| HBuildUrl (url : json) (useAuthData : bool)      (* buildUrl_, l.339 *)
| HAuthFetch                         (* runAuthorization_, l.380 *)
| HAuthApply                         (* l.407 *)
| HGetAuthdataField (field : string) (* getAuthdataField, l.466 *)
| HViewed                            (* reportWhenViewed_, l.620 *)
| HReportView                        (* l.624 *)
| HBroadcast                         (* l.635 *)
| HUnlisten (unlistenSet : list unlisten)          (* whenViewed_, l.674 *)
| HPingbackSend                      (* reportViewToServer_, l.693 *)
| HPingbackSent                      (* l.704 *)
| HLoginCompleted (type : string)    (* login, l.772 *)
| HScheduleView0                     (* l.789 *)
| HLoginUrl (k : string).            (* buildLoginUrls_, l.830 *)

Inductive on_rejected : Type :=
| HAuthFallback (opt_disableFallback : bool)       (* l.388 *)
| HAuthFailed                        (* l.418 *)
| HViewCanceled                      (* l.629 *)
| HUnlistenThrow (unlistenSet : list unlisten)     (* l.676 *)
| HPingbackFailed                    (* l.707 *)
| HLoginFailed (type : string).      (* l.793 *)

Inductive origin : Type :=
| ODeferred (x : external)
| OThen (src : pid) (f : option on_fulfilled) (r : option on_rejected)
| OAdopt (q : pid)
| OAll (ps : list pid).

Record cell : Type := Cell { origin_of : origin; pst : pstate }.

(** ** The host page *)

(** Callbacks registered with the viewer, the viewport and the document. *)
Inductive listener : Type :=
| LScheduleView (timeToView : Z)     (* scheduleView_, l.601: visibility *)
| LViewCancel (p : pid)              (* whenViewed_, l.658: visibility *)
| LViewScroll (p : pid)              (* l.669: scroll *)
| LViewClick (p : pid).              (* l.672: click, once *)

Inductive timer_action : Type :=
| TViewTimer (p : pid)               (* whenViewed_, l.665 *)
| TFetchTimeout (p : pid).           (* the timeout of timeoutPromise *)

Record timer_entry : Type := Timer { due : Z; action : timer_action }.

(** What the service does to the world outside the page. *)
Inductive event : Type :=
| Analytics (eventType : string)
| BroadcastReauthorize (origin : string)
| OpenLoginDialog (loginUrl : value)
| FetchJson (url : value) (timeout : Z)
| SendSignal (url : value).

Record page : Type := Page {
  now : Z;                               (* timer_.now() *)
  visible : bool;                        (* viewer_.isVisible() *)
  docReady : bool;
  docReadyCallbacks : list Z;            (* scheduleView_ waiting for ready *)
  listeners : list (nat * listener);
  timers : list (nat * timer_entry);
  nextHandle : nat;
  classes : gset string;                 (* documentElement.classList *)
}.

(** The mutable fields of [AccessService]. [firstAuthorizationPromise_] and
    [analyticsPromise_] are constant: the first two promises the constructor
    has. [loginUrlMap_] holds the own properties of the object. *)
Record fields : Type := Fields {
  readerIdPromise_ : option pid;
  authResponse_ : jsval;
  lastAuthorizationPromise_ : pid;
  reportViewPromise_ : option pid;
  loginUrlMap_ : gmap string string;
  loginPromise_ : option pid;
  loginStartTime_ : Z;
}.

Record state : Type := State {
  heap : list cell;
  this : fields;
  host : page;
  log : list event;
}.

Definition firstAuthorizationPromise_ : pid := 0%nat.
Definition analyticsPromise_ : pid := 1%nat.

Definition AUTHORIZATION_TIMEOUT : Z := 3000.
Definition VIEW_TIMEOUT : Z := 2000.

(** *** Field updates *)

Definition set_heap (h : list cell) (s : state) : state :=
  State h (this s) (host s) (log s).
Definition set_this (f : fields) (s : state) : state :=
  State (heap s) f (host s) (log s).
Definition set_host (g : page) (s : state) : state :=
  State (heap s) (this s) g (log s).
Definition add_log (e : event) (s : state) : state :=
  State (heap s) (this s) (host s) (log s ++ [e]).

Definition with_readerIdPromise_ (v : option pid) (f : fields) : fields :=
  Fields v (authResponse_ f) (lastAuthorizationPromise_ f)
    (reportViewPromise_ f) (loginUrlMap_ f) (loginPromise_ f)
    (loginStartTime_ f).
Definition with_authResponse_ (v : jsval) (f : fields) : fields :=
  Fields (readerIdPromise_ f) v (lastAuthorizationPromise_ f)
    (reportViewPromise_ f) (loginUrlMap_ f) (loginPromise_ f)
    (loginStartTime_ f).
Definition with_lastAuthorizationPromise_ (v : pid) (f : fields) : fields :=
  Fields (readerIdPromise_ f) (authResponse_ f) v
    (reportViewPromise_ f) (loginUrlMap_ f) (loginPromise_ f)
    (loginStartTime_ f).
Definition with_reportViewPromise_ (v : option pid) (f : fields) : fields :=
  Fields (readerIdPromise_ f) (authResponse_ f) (lastAuthorizationPromise_ f)
    v (loginUrlMap_ f) (loginPromise_ f) (loginStartTime_ f).
Definition with_loginUrlMap_ (v : gmap string string) (f : fields) : fields :=
  Fields (readerIdPromise_ f) (authResponse_ f) (lastAuthorizationPromise_ f)
    (reportViewPromise_ f) v (loginPromise_ f) (loginStartTime_ f).
Definition with_loginPromise_ (v : option pid) (f : fields) : fields :=
  Fields (readerIdPromise_ f) (authResponse_ f) (lastAuthorizationPromise_ f)
    (reportViewPromise_ f) (loginUrlMap_ f) v (loginStartTime_ f).
Definition with_loginStartTime_ (v : Z) (f : fields) : fields :=
  Fields (readerIdPromise_ f) (authResponse_ f) (lastAuthorizationPromise_ f)
    (reportViewPromise_ f) (loginUrlMap_ f) (loginPromise_ f) v.

Definition with_now (v : Z) (g : page) : page :=
  Page v (visible g) (docReady g) (docReadyCallbacks g) (listeners g)
    (timers g) (nextHandle g) (classes g).
Definition with_visible (v : bool) (g : page) : page :=
  Page (now g) v (docReady g) (docReadyCallbacks g) (listeners g)
    (timers g) (nextHandle g) (classes g).
Definition with_docReady (v : bool) (g : page) : page :=
  Page (now g) (visible g) v (docReadyCallbacks g) (listeners g)
    (timers g) (nextHandle g) (classes g).
Definition with_docReadyCallbacks (v : list Z) (g : page) : page :=
  Page (now g) (visible g) (docReady g) v (listeners g)
    (timers g) (nextHandle g) (classes g).
Definition with_listeners (v : list (nat * listener)) (n : nat) (g : page)
  : page :=
  Page (now g) (visible g) (docReady g) (docReadyCallbacks g) v
    (timers g) n (classes g).
Definition with_timers (v : list (nat * timer_entry)) (n : nat) (g : page)
  : page :=
  Page (now g) (visible g) (docReady g) (docReadyCallbacks g) (listeners g)
    v n (classes g).
Definition with_classes (v : gset string) (g : page) : page :=
  Page (now g) (visible g) (docReady g) (docReadyCallbacks g) (listeners g)
    (timers g) (nextHandle g) v.

(** *** Reading the heap *)

Definition pst_of (h : list cell) (p : pid) : pstate :=
  match h !! p with
  | Some c => pst c
  | None => Pending
  end.

Definition is_pending (st : pstate) : bool :=
  match st with Pending => true | _ => false end.
Definition is_fulfilled (st : pstate) : bool :=
  match st with Fulfilled _ => true | _ => false end.
Definition is_rejected (st : pstate) : bool :=
  match st with Rejected _ => true | _ => false end.
Definition is_settled (st : pstate) : bool := negb (is_pending st).

(** The first rejection among the elements of a [Promise.all]. *)
Fixpoint first_rejection (h : list cell) (ps : list pid) : option error :=
  match ps with
  | [] => None
  | p :: ps' =>
      match pst_of h p with
      | Rejected e => Some e
      | _ => first_rejection h ps'
      end
  end.

(** The values of the elements when all of them are fulfilled. *)
Fixpoint all_values (h : list cell) (ps : list pid) : option (list value) :=
  match ps with
  | [] => Some []
  | p :: ps' =>
      match pst_of h p, all_values h ps' with
      | Fulfilled v, Some vs => Some (v :: vs)
      | _, _ => None
      end
  end.

(** A pending promise whose reaction, adoption or join can run now: a
    microtask is waiting. *)
Definition is_ready (h : list cell) (c : cell) : bool :=
  is_pending (pst c) &&
  match origin_of c with
  | ODeferred _ => false
  | OThen src _ _ => is_settled (pst_of h src)
  | OAdopt q => is_settled (pst_of h q)
  | OAll ps =>
      match first_rejection h ps, all_values h ps with
      | None, None => false
      | _, _ => true
      end
  end.

(** No microtask is waiting: the page may take its next task. *)
Definition quiescent (s : state) : bool :=
  forallb (λ c, negb (is_ready (heap s) c)) (heap s).

(** ** The monad of the methods: state, and exceptions that keep the state *)

Definition M (A : Type) : Type := state → res A * state.

Definition ret {A : Type} (a : A) : M A := λ s, (Ok a, s).
Definition throw {A : Type} (e : error) : M A := λ s, (Throw e, s).
Definition bind {A B : Type} (m : M A) (k : A → M B) : M B :=
  λ s, match m s with
       | (Ok a, s') => k a s'
       | (Throw e, s') => (Throw e, s')
       end.

Notation "x <- m ;; k" := (bind m (λ x, k))
  (at level 100, m at next level, right associativity).
Notation "m ;;; k" := (bind m (λ _, k))
  (at level 100, right associativity).

Definition get : M state := λ s, (Ok s, s).
Definition modify (f : state → state) : M unit := λ s, (Ok tt, f s).

(** [new Promise(..)], [p.then(..)], [Promise.all(..)]: a new cell. *)
Definition alloc (o : origin) (st : pstate) : M pid :=
  λ s, (Ok (length (heap s)), set_heap (heap s ++ [Cell o st]) s).

(** The [resolve]/[reject] functions of a [new Promise]: the first call
    settles it, later calls do nothing. *)
Definition settle_deferred (p : pid) (st : pstate) (s : state) : state :=
  match heap s !! p with
  | Some (Cell (ODeferred x) Pending) =>
      set_heap (<[p := Cell (ODeferred x) st]> (heap s)) s
  | _ => s
  end.

Definition resolver (p : pid) (st : pstate) : M unit :=
  modify (settle_deferred p st).

Definition then_ (p : pid) (f : option on_fulfilled) (r : option on_rejected)
  : M pid :=
  alloc (OThen p f r) Pending.
Definition promise_resolve (v : value) : M pid :=
  alloc (ODeferred XResolver) (Fulfilled v).
Definition promise_all (ps : list pid) : M pid :=
  alloc (OAll ps) Pending.

Definition emit (e : event) : M unit := modify (add_log e).
Definition set_field (f : fields → fields) : M unit :=
  modify (λ s, set_this (f (this s)) s).
Definition set_page (f : page → page) : M unit :=
  modify (λ s, set_host (f (host s)) s).

(** [viewer_.onVisibilityChanged(f)], [viewport_.onScroll(f)],
    [listenOnce(el, 'click', f)]: register, return the handle. *)
Definition listen (l : listener) : M unlisten :=
  λ s, let g := host s in
       (Ok (UListener (nextHandle g)),
        set_host (with_listeners (listeners g ++ [(nextHandle g, l)])
                    (S (nextHandle g)) g) s).

(** [timer_.delay(f, delay)] *)
Definition delay (a : timer_action) (d : Z) : M unlisten :=
  λ s, let g := host s in
       (Ok (UTimer (nextHandle g)),
        set_host (with_timers (timers g ++ [(nextHandle g, Timer (now g + d) a)])
                    (S (nextHandle g)) g) s).

Definition remove_key {A : Type} (k : nat) (l : list (nat * A))
  : list (nat * A) :=
  filter (λ e, fst e ≠ k) l.

(** Calling an unlisten function. *)
Definition call_unlisten (u : unlisten) : M unit :=
  set_page (λ g,
    match u with
    | UListener h => with_listeners (remove_key h (listeners g)) (nextHandle g) g
    | UTimer id => with_timers (remove_key id (timers g)) (nextHandle g) g
    end).

Fixpoint forEach {A : Type} (f : A → M unit) (l : list A) : M unit :=
  match l with
  | [] => ret tt
  | a :: l' => f a ;;; forEach f l'
  end.

Fixpoint mapM {A B : Type} (f : A → M B) (l : list A) : M (list B) :=
  match l with
  | [] => ret []
  | a :: l' => b <- f a ;; bs <- mapM f l' ;; ret (b :: bs)
  end.

(** [dev.assert(cond)] *)
Definition dev_assert (cond : bool) : M unit :=
  if cond then ret tt else throw (DevError "Assertion failed").

(** [user.assert(cond, msg)] inside a method *)
Definition user_assert_ (cond : bool) (msg : string) : M unit :=
  if cond then ret tt else throw (UserError msg).

Definition as_json (v : value) : jsval :=
  match v with VJson j => Some j | _ => None end.
Definition as_string (v : value) : string :=
  match v with VStr s => s | _ => "" end.

(** What a reaction hands back: a plain value, or a promise to follow. *)
Inductive hres : Type :=
| RetVal (v : value)
| RetPromise (q : pid).

Inductive signal : Type := SVisibility | SScroll | SClick.

Global Instance signal_eq_dec : EqDecision signal.
Proof. solve_decision. Defined.

Definition listens_to (l : listener) : signal :=
  match l with
  | LScheduleView _ => SVisibility
  | LViewCancel _ => SVisibility
  | LViewScroll _ => SScroll
  | LViewClick _ => SClick
  end.


(** ** Invariants of the heap *)

Definition listener_target (l : listener) : option pid :=
  match l with
  | LScheduleView _ => None
  | LViewCancel p => Some p
  | LViewScroll p => Some p
  | LViewClick p => Some p
  end.

Definition timer_target (a : timer_action) : pid :=
  match a with
  | TViewTimer p => p
  | TFetchTimeout p => p
  end.

(** What a settled cell says about the cells it waited for. *)
Definition cell_ok (h : list cell) (c : cell) : Prop :=
  match pst c with
  | Pending => True
  | Fulfilled v =>
      match origin_of c with
      | ODeferred _ => True
      | OThen src f r => ¬ (f = Some HViewed ∧ r = None)
      | OAdopt q => pst_of h q = Fulfilled v
      | OAll ps => ∀ q, q ∈ ps → is_fulfilled (pst_of h q) = true
      end
  | Rejected e =>
      match origin_of c with
      | ODeferred _ => True
      | OThen src f r => ¬ (f = None ∧ r = Some HAuthFailed)
      | OAdopt q => pst_of h q = Rejected e
      | OAll ps => ∃ q, q ∈ ps ∧ pst_of h q = Rejected e
      end
  end.

(** [lastAuthorizationPromise_] is the first promise, or the join l.424 of
    the first promise with the promise of a run. *)
Definition last_ok (h : list cell) (last : pid) : Prop :=
  last = firstAuthorizationPromise_ ∨
  ∃ promise src st st',
    h !! last = Some (Cell (OAll [firstAuthorizationPromise_; promise]) st) ∧
    h !! promise = Some (Cell (OThen src None (Some HAuthFailed)) st').

(** The promise the view report waits on: the [then] of l.620, which follows
    the promise its reaction returned, a last authorization promise. *)
Definition view_wait (h : list cell) (src : pid) : Prop :=
  ∃ c, h !! src = Some c ∧
       ((∃ w, origin_of c = OThen w (Some HViewed) None) ∨
        (∃ l, origin_of c = OAdopt l ∧ last_ok h l)).

(** The promise [runAuthorization_] returns: [Promise.resolve()] on the skip
    path, or the [catch] of l.418. *)
Definition run_promise (h : list cell) (p : pid) : Prop :=
  ∃ c, h !! p = Some c ∧
       ((origin_of c = ODeferred XResolver ∧ pst c = Fulfilled VUndef) ∨
        (∃ a, origin_of c = OThen a None (Some HAuthFailed))).

(** The analytics event of l.176. *)
Definition is_received (e : event) : bool :=
  match e with
  | Analytics t => String.eqb t "access-authorization-received"
  | _ => false
  end.

Definition received_count (s : state) : nat :=
  length (filter (λ e, is_received e = true) (log s)).

(** The promise the constructor makes at l.175, after the first one and
    the promise of the analytics service. *)
Definition receivedPromise : pid := 2%nat.

(** The reaction that triggers the event of l.176 once the analytics service
    is there. *)
Definition is_received_trigger (o : origin) : bool :=
  match o with
  | OThen _ (Some (HTriggerEvent t)) _ =>
      String.eqb t "access-authorization-received"
  | _ => false
  end.

Record wf (s : state) : Prop := {
  wf_cells : ∀ p c, heap s !! p = Some c → cell_ok (heap s) c;
  wf_first : ∃ st,
    heap s !! firstAuthorizationPromise_ = Some (Cell (ODeferred XResolver) st)
    ∧ (st = Pending ∨ st = Fulfilled VUndef);
  wf_listeners : ∀ e, e ∈ listeners (host s) →
    listener_target (snd e) ≠ Some firstAuthorizationPromise_;
  wf_timers : ∀ e, e ∈ timers (host s) →
    timer_target (action (snd e)) ≠ firstAuthorizationPromise_;
  wf_last : last_ok (heap s) (lastAuthorizationPromise_ (this s));
  wf_report : ∀ p src r st,
    heap s !! p = Some (Cell (OThen src (Some HReportView) r) st) →
    view_wait (heap s) src;
  wf_schedule : ∀ p src r st,
    heap s !! p = Some (Cell (OThen src (Some HScheduleView0) r) st) →
    run_promise (heap s) src;
  wf_received_cell : ∀ p src r st,
    heap s !! p = Some (Cell (OThen src (Some HAuthorizationReceived) r) st) →
    p = receivedPromise;
  wf_received_log : (received_count s ≤ 1)%nat;
  wf_received_pending : ∀ p c,
    heap s !! p = Some c → is_received_trigger (origin_of c) = true →
    pst c = Pending → received_count s = 0%nat;
  wf_received_none :
    (∀ p c, heap s !! p = Some c → is_received_trigger (origin_of c) = false) →
    received_count s = 0%nat;
  wf_trigger_once : ∀ p q c c',
    heap s !! p = Some c → heap s !! q = Some c' →
    is_received_trigger (origin_of c) = true →
    is_received_trigger (origin_of c') = true → p = q;
  wf_trigger_after :
    pst_of (heap s) receivedPromise = Pending →
    ∀ p c, heap s !! p = Some c → is_received_trigger (origin_of c) = false;
  wf_listener_handles : ∀ e, e ∈ listeners (host s) →
    (fst e < nextHandle (host s))%nat;
  wf_timer_handles : ∀ e, e ∈ timers (host s) →
    (fst e < nextHandle (host s))%nat;
}.

(** A [then] whose source the invariant does not need to know. *)
Definition plain_origin (o : origin) : bool :=
  match o with
  | OThen _ (Some HReportView) _ => false
  | OThen _ (Some HScheduleView0) _ => false
  | OThen _ (Some HAuthorizationReceived) _ => false
  | OThen _ (Some (HTriggerEvent t)) _ =>
      negb (String.eqb t "access-authorization-received")
  | _ => true
  end.

(** How one cell may change: not at all once settled; a pending one may
    settle, and the [then] of a reaction that returned a promise starts
    following it. *)
Definition cell_advances (c c' : cell) : Prop :=
  c' = c ∨
  (pst c = Pending ∧
   (origin_of c' = origin_of c ∨
    ∃ src f r q, origin_of c = OThen src (Some f) r ∧ origin_of c' = OAdopt q)).

Definition advances (h h' : list cell) : Prop :=
  ∀ p c, h !! p = Some c → ∃ c', h' !! p = Some c' ∧ cell_advances c c'.

(** What a method may do to the heap: add cells, and settle deferred ones. *)
Definition cell_evolves (c c' : cell) : Prop :=
  c' = c ∨ ∃ x st, c = Cell (ODeferred x) Pending ∧ c' = Cell (ODeferred x) st.

Definition evolves (h h' : list cell) : Prop :=
  ∀ p c, h !! p = Some c → ∃ c', h' !! p = Some c' ∧ cell_evolves c c'.

(** The outcome of a computation, as a predicate on its result and state. *)
Definition wp {A : Type} (m : M A) (Q : res A → state → Prop) (s : state)
  : Prop :=
  Q (fst (m s)) (snd (m s)).

(** What a method may do to the page: handles are never reused, and a
    listener or timer that is registered afterwards under an old handle was
    registered before. *)
Definition page_evolves (g g' : page) : Prop :=
  (nextHandle g ≤ nextHandle g')%nat ∧
  (∀ e, e ∈ listeners g' → (fst e < nextHandle g)%nat → e ∈ listeners g) ∧
  (∀ e, e ∈ timers g' → (fst e < nextHandle g)%nat → e ∈ timers g).

(** A computation that keeps the invariant and only evolves the heap and the
    page; [R] is what is known of its result. *)
Definition keeps {A : Type} (m : M A) (R : A → Prop) : Prop :=
  ∀ s, wf s →
    wf (snd (m s)) ∧ evolves (heap s) (heap (snd (m s))) ∧
    page_evolves (host s) (host (snd (m s))) ∧
    ∀ a, fst (m s) = Ok a → R a.

Definition any {A : Type} (a : A) : Prop := True.

(** What a step keeps: the invariant, and the evolution of heap and page. *)
Definition kept (s s' : state) : Prop :=
  wf s' ∧ evolves (heap s) (heap s') ∧ page_evolves (host s) (host s').

(** *** The view wait *)

(** The unlisten functions [whenViewed_] collects, for handles from [n]. *)
Definition unlistenSet (n : nat) : list unlisten :=
  [UListener n; UTimer (S n); UListener (S (S n)); UListener (S (S (S n)))].

(** The wait [p] of [whenViewed_] with its four triggers in place. *)
Definition armed (s : state) (p : pid) (n : nat) (deadline : Z) : Prop :=
  heap s !! p = Some (Cell (ODeferred XResolver) Pending) ∧
  heap s !! S p =
    Some (Cell (OThen p (Some (HUnlisten (unlistenSet n)))
                  (Some (HUnlistenThrow (unlistenSet n)))) Pending) ∧
  (n, LViewCancel p) ∈ listeners (host s) ∧
  (S n, Timer deadline (TViewTimer p)) ∈ timers (host s) ∧
  (S (S n), LViewScroll p) ∈ listeners (host s) ∧
  (S (S (S n)), LViewClick p) ∈ listeners (host s).

(** A trigger has settled the wait [p] with [st]; its disarming reaction is
    the microtask that waits. *)
Definition triggered (s : state) (p : pid) (n : nat) (st : pstate) : Prop :=
  pst_of (heap s) p = st ∧
  heap s !! S p =
    Some (Cell (OThen p (Some (HUnlisten (unlistenSet n)))
                  (Some (HUnlistenThrow (unlistenSet n)))) Pending) ∧
  quiescent s = false.

(** No listener and no timer is left under the handles of the wait. *)
Definition released (s : state) (n : nat) : Prop :=
  (∀ e, e ∈ listeners (host s) →
        fst e ≠ n ∧ fst e ≠ S (S n) ∧ fst e ≠ S (S (S n))) ∧
  (∀ e, e ∈ timers (host s) → fst e ≠ S n).

(** *** Analytics *)

(** The events of [loginAnalyticsEvent_(type, event)]. *)
Definition login_events (type event : string) : list string :=
  ("access-login-" ++ event) ::
  (if negb (String.eqb type "")
   then ["access-login-" ++ type ++ "-" ++ event] else []).

(** The reactions [analyticsEvent_] attaches to the analytics promise, one
    for each event. *)
Definition triggers (events : list string) : list cell :=
  map (λ e, Cell (OThen analyticsPromise_ (Some (HTriggerEvent e)) None)
              Pending) events.

Arguments login_events : simpl never.
Arguments triggers : simpl never.


(** ** A concrete page, for examples *)

(** Simple stand-ins for the imported helpers: a URL is secure when it
    starts with [https://]; the enum is matched exactly; the query string is
    a single [success=..] pair; an expression is one property name. The
    built-in prototypes have the names of ECMAScript 5. *)
Definition demo_imports : Imports :=
  {| assertHttpsUrl := λ u,
       match u with JStr s => String.prefix "https://" s | _ => false end;
     assertEnumValue := λ v,
       match v with
       | JStr s =>
           if String.eqb s "client" then Some CLIENT
           else if String.eqb s "server" then Some SERVER
           else if String.eqb s "other" then Some OTHER
           else None
       | _ => None
       end;
     parseQueryString := λ q k,
       if String.eqb k "success" && String.prefix "success=" q
       then Some (String.substring 8 (String.length q - 8) q)
       else None;
     getValueForExpr := λ o f,
       match o with JObj l => assoc f l | _ => None end;
     objectPrototypeHas := λ k,
       bool_decide (k ∈ ["constructor"; "hasOwnProperty"; "isPrototypeOf";
                         "propertyIsEnumerable"; "toLocaleString"; "toString";
                         "valueOf"; "__defineGetter__"; "__defineSetter__";
                         "__lookupGetter__"; "__lookupSetter__"]);
     arrayPrototypeHas := λ k,
       bool_decide (k ∈ ["concat"; "every"; "filter"; "forEach"; "indexOf";
                         "join"; "lastIndexOf"; "map"; "pop"; "push";
                         "reduce"; "reduceRight"; "reverse"; "shift"; "slice";
                         "some"; "sort"; "splice"; "unshift"]) |}.

(** [{"authorization": .., "pingback": .., "login": ..}]: type client, no
    fallback response. *)
Definition demo_client : AccessConfigDef :=
  {| type := CLIENT;
     authorization := Some (JStr "https://pub.example/auth");
     pingback := Some (JStr "https://pub.example/ping");
     loginMap := Obj [("", JStr "https://pub.example/login")] ProtoObject;
     authorizationFallbackResponse := None |}.

(** The same with a fallback response. *)
Definition demo_fallback : AccessConfigDef :=
  {| type := CLIENT;
     authorization := Some (JStr "https://pub.example/auth");
     pingback := Some (JStr "https://pub.example/ping");
     loginMap := Obj [("", JStr "https://pub.example/login")] ProtoObject;
     authorizationFallbackResponse :=
       Some (JObj [("subscriber", JBool false)]) |}.

(** [{"type": "other", "authorization": ..}]: an authorization URL but no
    fallback response. *)
Definition demo_other : AccessConfigDef :=
  {| type := OTHER;
     authorization := Some (JStr "https://pub.example/auth");
     pingback := None;
     loginMap := empty_object;
     authorizationFallbackResponse := None |}.
(** ** The methods of [AccessService] *)

Section Service.
Context {imports : Imports}.
Variable config_ : AccessConfigDef.
Variable isProxyOrigin_ : bool.
Variable pubOrigin_ : string.

(** The event is triggered by a reaction of [analyticsPromise_]: when the
    analytics service is there, if it ever is. *)
Definition analyticsEvent_ (eventType : string) : M unit :=
  then_ analyticsPromise_ (Some (HTriggerEvent eventType)) None ;;;
  ret tt.

Definition loginAnalyticsEvent_ (type event : string) : M unit :=
  analyticsEvent_ ("access-login-" ++ event) ;;;
  if negb (String.eqb type "")
  then analyticsEvent_ ("access-login-" ++ type ++ "-" ++ event)
  else ret tt.

(** [vsync_.mutate] is taken to run the mutation at once. *)
Definition toggleTopClass_ (className : string) (on : bool) : M unit :=
  set_page (λ g, with_classes
    (if on then classes g ∪ {[className]} else classes g ∖ {[className]}) g).

Definition broadcastReauthorize_ : M unit :=
  emit (BroadcastReauthorize pubOrigin_).

Definition getReaderId_ : M pid :=
  s <- get ;;
  match readerIdPromise_ (this s) with
  | Some p => ret p
  | None =>
      p <- alloc (ODeferred XCid) Pending ;;
      set_field (with_readerIdPromise_ (Some p)) ;;;
      ret p
  end.

Definition buildUrl_ (url : json) (useAuthData : bool) : M pid :=
  r <- getReaderId_ ;;
  then_ r (Some (HBuildUrl url useAuthData)) None.

Definition firstAuthorizationResolver_ : M unit :=
  resolver firstAuthorizationPromise_ (Fulfilled VUndef).

Definition setAuthResponse_ (authResponse : value) : M unit :=
  set_field (with_authResponse_ (as_json authResponse)) ;;;
  firstAuthorizationResolver_.

(** The loop of [buildLoginUrls_] over the properties [for .. in] finds in
    [loginMap], each [k] with [loginMap[k]]. *)
Fixpoint buildLoginUrls_loop (entries : list (string * json)) : M (list pid) :=
  match entries with
  | [] => ret []
  | (k, url) :: entries' =>
      u <- buildUrl_ url true ;;
      p <- then_ u (Some (HLoginUrl k)) None ;;
      ps <- buildLoginUrls_loop entries' ;;
      ret (p :: ps)
  end.

Definition buildLoginUrls_ : M (option pid) :=
  if (obj_size (loginMap config_) =? 0)%nat then ret None
  else
    promises <- buildLoginUrls_loop (obj_entries (loginMap config_)) ;;
    a <- promise_all promises ;;
    ret (Some a).

(** [loginUrlMap_[type]]: the object is made by [{}], so a name it does
    not hold itself is answered by [Object.prototype]. *)
Definition loginUrl_get (m : gmap string string) (type : string) : value :=
  match m !! type with
  | Some url => VStr url
  | None => proto_get ProtoObject type
  end.

(** [loginUrlMap_[k] = url], for a string [url]: under the key [__proto__]
    the setter of [Object.prototype] ignores it. *)
Definition loginUrl_set (k url : string) (m : gmap string string)
  : gmap string string :=
  if String.eqb k "__proto__" then m else <[k := url]> m.

(** The guard of l.365: [type=other] without a usable fallback. *)
Definition skips_authorization : bool :=
  bool_decide (type config_ = OTHER) &&
  (negb (truthy (authorizationFallbackResponse config_)) || isProxyOrigin_).

Definition runAuthorization_ (opt_disableFallback : bool) : M pid :=
  if skips_authorization then
    firstAuthorizationResolver_ ;;;
    promise_resolve VUndef
  else
    toggleTopClass_ "amp-access-loading" true ;;;
    responsePromise <-
      (match authorization config_ with
       | Some url =>
           if truthy (Some url) then
             urlPromise <- buildUrl_ url false ;;
             fetched <- then_ urlPromise (Some HAuthFetch) None ;;
             then_ fetched None (Some (HAuthFallback opt_disableFallback))
           else
             dev_assert (bool_decide (type config_ = OTHER)) ;;;
             dev_assert (negb isProxyOrigin_) ;;;
             dev_assert (truthy (authorizationFallbackResponse config_)) ;;;
             promise_resolve
               (from_option VJson VUndef (authorizationFallbackResponse config_))
       | None =>
           dev_assert (bool_decide (type config_ = OTHER)) ;;;
           dev_assert (negb isProxyOrigin_) ;;;
           dev_assert (truthy (authorizationFallbackResponse config_)) ;;;
           promise_resolve
             (from_option VJson VUndef (authorizationFallbackResponse config_))
       end) ;;
    applied <- then_ responsePromise (Some HAuthApply) None ;;
    promise <- then_ applied None (Some HAuthFailed) ;;
    (* The "first" promise must always succeed first. *)
    last <- promise_all [firstAuthorizationPromise_; promise] ;;
    set_field (with_lastAuthorizationPromise_ last) ;;;
    ret promise.

Definition whenFirstAuthorized : pid := firstAuthorizationPromise_.

(** The service is enabled: a disabled one has no state and answers [null]. *)
Definition getAuthdataField (field : string) : M pid :=
  s <- get ;;
  then_ (lastAuthorizationPromise_ (this s)) (Some (HGetAuthdataField field))
    None.

Definition reportViewToServer_ : M pid :=
  match pingback config_ with
  | Some url =>
      if truthy (Some url) then
        promise <- buildUrl_ url true ;;
        sent <- then_ promise (Some HPingbackSend) None ;;
        done <- then_ sent (Some HPingbackSent) None ;;
        then_ done None (Some HPingbackFailed)
      else promise_resolve VUndef
  | None => promise_resolve VUndef
  end.

Definition whenViewed_ (timeToView : Z) : M pid :=
  if (timeToView =? 0)%Z then promise_resolve VUndef
  else
    p <- alloc (ODeferred XResolver) Pending ;;
    (* 1. Document becomes invisible again: cancel. *)
    u1 <- listen (LViewCancel p) ;;
    (* 2. After a few seconds: register a view. *)
    u2 <- delay (TViewTimer p) timeToView ;;
    (* 3. If scrolled: register a view. *)
    u3 <- listen (LViewScroll p) ;;
    (* 4. Tap: register a view. *)
    u4 <- listen (LViewClick p) ;;
    then_ p (Some (HUnlisten [u1; u2; u3; u4]))
      (Some (HUnlistenThrow [u1; u2; u3; u4])).

Definition reportWhenViewed_ (timeToView : Z) : M pid :=
  s <- get ;;
  match reportViewPromise_ (this s) with
  | Some p => ret p
  | None =>
      viewed <- whenViewed_ timeToView ;;
      authorized <- then_ viewed (Some HViewed) None ;;
      reported <- then_ authorized (Some HReportView) None ;;
      p <- then_ reported None (Some HViewCanceled) ;;
      set_field (with_reportViewPromise_ (Some p)) ;;;
      then_ p (Some HBroadcast) None ;;;
      ret p
  end.

(** The callback [scheduleView_] gives to [onDocumentReady]. *)
Definition scheduleView_ready (timeToView : Z) : M unit :=
  s <- get ;;
  (if visible (host s) then reportWhenViewed_ timeToView ;;; ret tt
   else ret tt) ;;;
  listen (LScheduleView timeToView) ;;;
  ret tt.

Definition scheduleView_ (timeToView : Z) : M unit :=
  set_field (with_reportViewPromise_ None) ;;;
  s <- get ;;
  if docReady (host s) then scheduleView_ready timeToView
  else set_page (λ g,
         with_docReadyCallbacks (docReadyCallbacks g ++ [timeToView]) g).

Definition login (type : string) : M pid :=
  s <- get ;;
  let now := now (host s) in
  (* If login is pending, block a new one from starting for 1 second. *)
  match (match loginPromise_ (this s) with
         | Some p => if (now - loginStartTime_ (this s) <? 1000)%Z
                     then Some p else None
         | None => None
         end) with
  | Some p => ret p
  | None =>
      user_assert_ (value_truthy (obj_get (loginMap config_) type))
        "Login URL is not configured" ;;;
      (* Login URL should always be available at this time. *)
      let loginUrl := loginUrl_get (loginUrlMap_ (this s)) type in
      user_assert_ (value_truthy loginUrl) "Login URL is not ready" ;;;
      loginAnalyticsEvent_ type "started" ;;;
      emit (OpenLoginDialog loginUrl) ;;;
      dialog <- alloc (ODeferred (XDialog loginUrl)) Pending ;;
      completed <- then_ dialog (Some (HLoginCompleted type)) None ;;
      loginPromise <- then_ completed None (Some (HLoginFailed type)) ;;
      set_field (with_loginPromise_ (Some loginPromise)) ;;;
      set_field (with_loginStartTime_ now) ;;;
      ret loginPromise
  end.

(** ['login-'.length] characters dropped when [method] starts with
    ['login-']. *)
Definition login_variant (method : string) : option string :=
  if String.prefix "login-" method
  then Some (String.substring 6 (String.length method - 6) method)
  else None.

Definition handleAction_ (method : string) : M unit :=
  if String.eqb method "login" then login "" ;;; ret tt
  else match login_variant method with
       | Some type => login type ;;; ret tt
       | None => ret tt
       end.

(** ** Reactions *)

Definition run_fulfilled (h : on_fulfilled) (arg : value) : M hres :=
  match h with
  | HAuthorizationReceived =>
      analyticsEvent_ "access-authorization-received" ;;;
      ret (RetVal VUndef)
  | HTriggerEvent eventType =>
      emit (Analytics eventType) ;;;
      ret (RetVal VUndef)
  | HBuildUrl url useAuthData =>
      p <- alloc (ODeferred (XExpand url arg useAuthData)) Pending ;;
      ret (RetPromise p)
  | HAuthFetch =>
      emit (FetchJson arg AUTHORIZATION_TIMEOUT) ;;;
      p <- alloc (ODeferred (XFetch arg)) Pending ;;
      delay (TFetchTimeout p) AUTHORIZATION_TIMEOUT ;;;
      ret (RetPromise p)
  | HAuthApply =>
      setAuthResponse_ arg ;;;
      toggleTopClass_ "amp-access-loading" false ;;;
      toggleTopClass_ "amp-access-error" false ;;;
      buildLoginUrls_ ;;;
      p <- alloc (ODeferred (XApply arg)) Pending ;;
      ret (RetPromise p)
  | HGetAuthdataField field =>
      s <- get ;;
      match authResponse_ (this s) with
      | Some response =>
          if truthy (Some response) then
            let v := getValueForExpr response field in
            ret (RetVal (VJson (if truthy v then default JNull v else JNull)))
          else ret (RetVal (VJson JNull))
      | None => ret (RetVal (VJson JNull))
      end
  | HViewed =>
      (* Wait for the most recent authorization flow to complete. *)
      s <- get ;;
      ret (RetPromise (lastAuthorizationPromise_ (this s)))
  | HReportView =>
      analyticsEvent_ "access-viewed" ;;;
      p <- reportViewToServer_ ;;
      ret (RetPromise p)
  | HBroadcast =>
      broadcastReauthorize_ ;;;
      ret (RetVal VUndef)
  | HUnlisten unlistenSet =>
      forEach call_unlisten unlistenSet ;;;
      ret (RetVal VUndef)
  | HPingbackSend =>
      emit (SendSignal arg) ;;;
      p <- alloc (ODeferred (XSignal arg)) Pending ;;
      ret (RetPromise p)
  | HPingbackSent =>
      analyticsEvent_ "access-pingback-sent" ;;;
      ret (RetVal VUndef)
  | HLoginCompleted type =>
      set_field (with_loginPromise_ None) ;;;
      let s := parseQueryString (as_string arg) "success" in
      let success :=
        bool_decide (s = Some "true") || bool_decide (s = Some "yes") ||
        bool_decide (s = Some "1") in
      loginAnalyticsEvent_ type (if success then "success" else "rejected") ;;;
      if success || bool_decide (s = None) || bool_decide (s = Some "") then
        broadcastReauthorize_ ;;;
        p <- runAuthorization_ true ;;
        q <- then_ p (Some HScheduleView0) None ;;
        ret (RetPromise q)
      else ret (RetVal VUndef)
  | HScheduleView0 =>
      scheduleView_ 0 ;;;
      ret (RetVal VUndef)
  | HLoginUrl k =>
      set_field (λ f, with_loginUrlMap_
                        (loginUrl_set k (as_string arg) (loginUrlMap_ f)) f) ;;;
      ret (RetVal (VJson (JObj [("type", JStr k); ("url", JStr (as_string arg))])))
  end.

(** [self] is the promise the [catch] made, which l.796 compares with. *)
Definition run_rejected (h : on_rejected) (self : pid) (reason : error)
  : M hres :=
  match h with
  | HAuthFallback opt_disableFallback =>
      analyticsEvent_ "access-authorization-failed" ;;;
      match authorizationFallbackResponse config_ with
      | Some fallback =>
          if truthy (Some fallback) && negb opt_disableFallback
          then ret (RetVal (VJson fallback))
          else throw reason
      | None => throw reason
      end
  | HAuthFailed =>
      toggleTopClass_ "amp-access-loading" false ;;;
      toggleTopClass_ "amp-access-error" true ;;;
      ret (RetVal VUndef)
  | HViewCanceled =>
      set_field (with_reportViewPromise_ None) ;;;
      throw reason
  | HUnlistenThrow unlistenSet =>
      forEach call_unlisten unlistenSet ;;;
      throw reason
  | HPingbackFailed =>
      analyticsEvent_ "access-pingback-failed" ;;;
      throw (UserError "Pingback failed")
  | HLoginFailed type =>
      loginAnalyticsEvent_ type "failed" ;;;
      s <- get ;;
      (if bool_decide (loginPromise_ (this s) = Some self)
       then set_field (with_loginPromise_ None) else ret tt) ;;;
      throw reason
  end.

(** ** The page's event loop *)

(** One listener called with its signal. *)
Definition fire (l : listener) : M unit :=
  match l with
  | LScheduleView timeToView =>
      s <- get ;;
      if visible (host s) then reportWhenViewed_ timeToView ;;; ret tt
      else ret tt
  | LViewCancel p =>
      s <- get ;;
      if negb (visible (host s)) then resolver p (Rejected Cancellation)
      else ret tt
  | LViewScroll p => resolver p (Fulfilled VUndef)
  | LViewClick p => resolver p (Fulfilled VUndef)
  end.

(** A signal reaches the listeners registered when it is raised; a click
    listener is [listenOnce]: it is removed before it is called. *)
Definition dispatch (sig : signal) : M unit :=
  s <- get ;;
  let heard := filter (λ e, listens_to (snd e) = sig) (listeners (host s)) in
  (if bool_decide (sig = SClick)
   then set_page (λ g, with_listeners
          (filter (λ e, listens_to (snd e) ≠ SClick) (listeners g))
          (nextHandle g) g)
   else ret tt) ;;;
  forEach (λ e, fire (snd e)) heard.

Definition fire_timer (a : timer_action) : M unit :=
  match a with
  | TViewTimer p => resolver p (Fulfilled VUndef)
  | TFetchTimeout p => resolver p (Rejected TimeoutError)
  end.

(** What a collaborator may answer to a deferred promise it owns. *)
Definition answers (x : external) (r : res value) (s : state) : bool :=
  match x, r with
  | XResolver, _ => false
  | XApply _, _ => docReady (host s)
  | _, Throw _ => true
  | XAnalytics, Ok _ => true
  | XCid, Ok (VStr _) => true
  | XExpand _ _ _, Ok (VStr _) => true
  | XFetch _, Ok (VJson _) => true
  | XDialog _, Ok (VStr _) => true
  | XSignal _, Ok _ => true
  | _, _ => false
  end.

Definition pst_of_res (r : res value) : pstate :=
  match r with Ok v => Fulfilled v | Throw e => Rejected e end.

Definition set_cell (p : pid) (c : cell) (s : state) : state :=
  set_heap (<[p := c]> (heap s)) s.

(** The outcome of a reaction settles the promise [then] made, or makes it
    follow the promise returned. *)
Definition conclude (p : pid) (o : origin) (out : res hres * state) : state :=
  match out with
  | (Ok (RetVal v), s') => set_cell p (Cell o (Fulfilled v)) s'
  | (Ok (RetPromise q), s') => set_cell p (Cell (OAdopt q) Pending) s'
  | (Throw e, s') => set_cell p (Cell o (Rejected e)) s'
  end.

(** One microtask: the reaction, adoption or join of the pending promise
    [p], when what it waits for has settled. *)
Definition micro (p : pid) (s : state) : option state :=
  match heap s !! p with
  | Some (Cell o Pending) =>
      match o with
      | ODeferred _ => None
      | OThen src f r =>
          match pst_of (heap s) src with
          | Pending => None
          | Fulfilled v =>
              match f with
              | Some h => Some (conclude p o (run_fulfilled h v s))
              | None => Some (set_cell p (Cell o (Fulfilled v)) s)
              end
          | Rejected e =>
              match r with
              | Some h => Some (conclude p o (run_rejected h p e s))
              | None => Some (set_cell p (Cell o (Rejected e)) s)
              end
          end
      | OAdopt q =>
          match pst_of (heap s) q with
          | Pending => None
          | st => Some (set_cell p (Cell o st) s)
          end
      | OAll ps =>
          match first_rejection (heap s) ps, all_values (heap s) ps with
          | Some e, _ => Some (set_cell p (Cell o (Rejected e)) s)
          | None, Some vs => Some (set_cell p (Cell o (Fulfilled (VArr vs))) s)
          | None, None => None
          end
      end
  | _ => None
  end.

(** What happens to the page: a microtask, or (between two tasks, when no
    microtask is waiting) a signal, a timer, an answer of a collaborator or
    a call into the service. *)
Inductive label : Type :=
| Micro (p : pid)
| DocumentReady
| VisibilityChanged (visible : bool)
| Scrolled
| Clicked
| Tick (t : Z)
| TimerFired (id : nat)
| Answered (p : pid) (r : res value)
| BroadcastReceived (type origin : string)
| Action (method : string)
| CallLogin (type : string)
| CallGetAuthdataField (field : string).

(** A call from the page: an exception goes to the caller, the state stays
    as the call left it. *)
Definition call {A : Type} (m : M A) (s : state) : state := snd (m s).

Definition task (l : label) (s : state) : option state :=
  match l with
  | Micro _ => None
  | DocumentReady =>
      if docReady (host s) then None
      else
        Some (call (set_page (λ g, with_docReadyCallbacks []
                                     (with_docReady true g)) ;;;
                    forEach scheduleView_ready (docReadyCallbacks (host s))) s)
  | VisibilityChanged b =>
      Some (call (set_page (with_visible b) ;;; dispatch SVisibility) s)
  | Scrolled => Some (call (dispatch SScroll) s)
  | Clicked => Some (call (dispatch SClick) s)
  | Tick t =>
      if (now (host s) <? t)%Z &&
         forallb (λ e, (t <=? due (snd e))%Z) (timers (host s))
      then Some (call (set_page (with_now t)) s)
      else None
  | TimerFired id =>
      match list_find (λ e, fst e = id) (timers (host s)) with
      | Some (_, (_, Timer d a)) =>
          if (d <=? now (host s))%Z then
            Some (call (call_unlisten (UTimer id) ;;; fire_timer a) s)
          else None
      | None => None
      end
  | Answered p r =>
      match heap s !! p with
      | Some (Cell (ODeferred x) Pending) =>
          if answers x r s then Some (settle_deferred p (pst_of_res r) s)
          else None
      | _ => None
      end
  | BroadcastReceived ty origin =>
      if String.eqb ty "amp-access-reauthorize" && String.eqb origin pubOrigin_
      then Some (call (runAuthorization_ false) s)
      else Some s
  | Action method => Some (call (handleAction_ method) s)
  | CallLogin ty => Some (call (login ty) s)
  | CallGetAuthdataField field => Some (call (getAuthdataField field) s)
  end.

Definition step (l : label) (s : state) : option state :=
  match l with
  | Micro p => micro p s
  | _ => if quiescent s then task l s else None
  end.

Fixpoint steps (ls : list label) (s : state) : option state :=
  match ls with
  | [] => Some s
  | l :: ls' =>
      match step l s with
      | Some s' => steps ls' s'
      | None => None
      end
  end.

(** ** Construction and start *)

(** The state the constructor leaves (l.145-177), on a page at time [t]:
    the first authorization promise, the promise of the analytics service,
    and the reaction of l.175. *)
Definition constructed (t : Z) (isVisible isReady : bool) : state :=
  {| heap := [Cell (ODeferred XResolver) Pending;
              Cell (ODeferred XAnalytics) Pending;
              Cell (OThen firstAuthorizationPromise_
                      (Some HAuthorizationReceived) None) Pending];
     this := {| readerIdPromise_ := None;
                authResponse_ := None;
                lastAuthorizationPromise_ := firstAuthorizationPromise_;
                reportViewPromise_ := None;
                loginUrlMap_ := ∅;
                loginPromise_ := None;
                loginStartTime_ := 0 |};
     host := {| now := t; visible := isVisible; docReady := isReady;
                docReadyCallbacks := []; listeners := []; timers := [];
                nextHandle := 0; classes := ∅ |};
     log := [] |}.

Definition startInternal_ : M unit :=
  (* Calculate login URLs right away. *)
  buildLoginUrls_ ;;;
  (* Start authorization XHR immediately. *)
  runAuthorization_ false ;;;
  (* Wait for the "view" signal. *)
  scheduleView_ VIEW_TIMEOUT.

(** [new AccessService(win).start_()] *)
Definition started (t : Z) (isVisible isReady : bool) : state :=
  call startInternal_ (constructed t isVisible isReady).

(** The states the service can be in. *)
Definition reachable (s : state) : Prop :=
  ∃ t isVisible isReady ls, steps ls (started t isVisible isReady) = Some s.

(** *** Running the page *)

(** The first waiting microtask, if any. *)
Definition next_micro (s : state) : option pid :=
  fst <$> list_find (is_ready (heap s)) (heap s).

(** Run waiting microtasks, at most [fuel] of them, until none waits. *)
Fixpoint drain (fuel : nat) (s : state) : state :=
  match fuel with
  | O => s
  | S fuel' =>
      match next_micro s with
      | Some p =>
          match micro p s with
          | Some s' => drain fuel' s'
          | None => s
          end
      | None => s
      end
  end.

(** A list of tasks, each followed by its microtasks. *)
Fixpoint run (fuel : nat) (ls : list label) (s : state) : option state :=
  match ls with
  | [] => Some s
  | l :: ls' =>
      match step l s with
      | Some s' => run fuel ls' (drain fuel s')
      | None => None
      end
  end.

(** ** Properties kept along the life of the service *)

(** A computation keeps the property [I] of states. *)
Definition holds (I : state → Prop) {A : Type} (m : M A) : Prop :=
  ∀ s, I s → I (snd (m s)).

(** The promises and the events of the exchanges with the outside that the
    properties below are about: the request of the reader id, the
    authorization fetch with the reaction that applies its response, and the
    pingback. *)
Definition sensitive (o : origin) : bool :=
  match o with
  | ODeferred XCid => true
  | OThen _ (Some HAuthFetch) _ => true
  | OThen _ (Some HAuthApply) _ => true
  | OThen _ (Some HPingbackSend) _ => true
  | _ => false
  end.

Definition sensitive_event (e : event) : bool :=
  match e with
  | FetchJson _ _ => true
  | SendSignal _ => true
  | _ => false
  end.

(** No promise with a [bad] origin is in the heap and no [bade] event was
    emitted. *)
Definition quiet (bad : origin → bool) (bade : event → bool) (s : state)
  : Prop :=
  (∀ p c, heap s !! p = Some c → bad (origin_of c) = false) ∧
  (∀ e, e ∈ log s → bade e = false).

(** The reactions of a run that is not skipped, and the fetch. *)
Definition fetches (o : origin) : bool :=
  match o with
  | OThen _ (Some HAuthFetch) _ => true
  | OThen _ (Some HAuthApply) _ => true
  | _ => false
  end.
Definition is_fetch (e : event) : bool :=
  match e with FetchJson _ _ => true | _ => false end.

(** The reaction that sends the pingback, and the pingback. *)
Definition pings (o : origin) : bool :=
  match o with OThen _ (Some HPingbackSend) _ => true | _ => false end.
Definition is_ping (e : event) : bool :=
  match e with SendSignal _ => true | _ => false end.

(** A promise of the CID service is the one held in [readerIdPromise_]. *)
Definition cid_once (s : state) : Prop :=
  ∀ p st, heap s !! p = Some (Cell (ODeferred XCid) st) →
          readerIdPromise_ (this s) = Some p.

(** No authorization has been run: nothing fetched, nothing to apply, no
    response stored, and the last authorization promise is the first. *)
Definition unauthorized (s : state) : Prop :=
  quiet fetches is_fetch s ∧
  authResponse_ (this s) = None ∧
  lastAuthorizationPromise_ (this s) = firstAuthorizationPromise_.

(** The view has been handed to analytics: the reaction that triggers the
    event [access-viewed] is attached to the analytics promise. *)
Definition viewed (s : state) : Prop :=
  ∃ p st,
    heap s !! p =
      Some (Cell (OThen analyticsPromise_
                    (Some (HTriggerEvent "access-viewed")) None) st).

(** ** Showing and hiding an element: [applyAuthorizationAttrs_]

    An element, as far as this method goes, is its attributes. *)
Abbreviation attributes := (gmap string string) (only parsing).

Definition hasAttribute (element : attributes) (name : string) : bool :=
  bool_decide (is_Some (element !! name)).

(** The mutator handed to [resources_.mutateElement] (l.526-532): it runs
    later, on the element as it is then. *)
Definition hide_mutator (on : bool) (element : attributes) : attributes :=
  if on then delete "amp-access-hide" element
  else <["amp-access-hide" := ""]> element.

(** [applyAuthorizationAttrs_(element, on)]: the mutation it schedules, or
    [None] when it returns [Promise.resolve()] at once. *)
Definition applyAuthorizationAttrs_ (element : attributes) (on : bool)
  : option (attributes → attributes) :=
  let wasOn := negb (hasAttribute element "amp-access-hide") in
  if Bool.eqb on wasOn then None else Some (hide_mutator on).

(** ** Facts about heaps *)

Local Open Scope list_scope.

Lemma pst_of_lookup h p c : h !! p = Some c → pst_of h p = pst c.
Proof. unfold pst_of. by intros ->. Qed.

Lemma pst_of_settled_lookup h p :
  pst_of h p ≠ Pending → ∃ c, h !! p = Some c ∧ pst c = pst_of h p.
Proof.
  unfold pst_of. destruct (h !! p) as [c|]; [| done]. intros _. by exists c.
Qed.

Lemma cell_evolves_advances c c' : cell_evolves c c' → cell_advances c c'.
Proof.
  intros [-> | (x & st & -> & ->)]; [by left |]. right. split; [done |].
  by left.
Qed.

Lemma evolves_advances h h' : evolves h h' → advances h h'.
Proof.
  intros H p c Hp. destruct (H p c Hp) as (c' & Hc' & Hev).
  exists c'. split; [done |]. by apply cell_evolves_advances.
Qed.

Global Instance evolves_refl : Reflexive evolves.
Proof. intros h p c Hp. exists c. split; [done | by left]. Qed.

Global Instance evolves_trans : Transitive evolves.
Proof.
  intros h1 h2 h3 H12 H23 p c Hp.
  destruct (H12 p c Hp) as (c2 & Hc2 & Hev2).
  destruct (H23 p c2 Hc2) as (c3 & Hc3 & Hev3).
  exists c3. split; [done |].
  destruct Hev2 as [-> | (x & st & -> & ->)]; [done |].
  destruct Hev3 as [-> | (x' & st' & Heq & ->)].
  - right. by exists x, st.
  - simplify_eq. right. by exists x', st'.
Qed.

(** Settled cells are frozen. *)
Lemma advances_settled h h' p c :
  advances h h' → h !! p = Some c → pst c ≠ Pending → h' !! p = Some c.
Proof.
  intros H Hp Hs. destruct (H p c Hp) as (c' & Hc' & [-> | [Hpend _]]); done.
Qed.

Lemma advances_pst_of h h' p :
  advances h h' → pst_of h p ≠ Pending → pst_of h' p = pst_of h p.
Proof.
  intros H Hs. destruct (pst_of_settled_lookup h p Hs) as (c & Hc & Hst).
  rewrite <- Hst in Hs. rewrite <- Hst.
  apply pst_of_lookup. by eapply advances_settled.
Qed.

Lemma cell_ok_advances h h' c : advances h h' → cell_ok h c → cell_ok h' c.
Proof.
  intros H. unfold cell_ok.
  destruct (pst c) as [|v|e]; [done | |];
    destruct (origin_of c) as [x|src f r|q|ps]; try done.
  - intros Hq. rewrite (advances_pst_of h h'); [done | done | by rewrite Hq].
  - intros Hall q Hin. specialize (Hall q Hin).
    rewrite (advances_pst_of h h'); [done | done |].
    intros Heq. by rewrite Heq in Hall.
  - intros Hq. rewrite (advances_pst_of h h'); [done | done | by rewrite Hq].
  - intros (q & Hin & Hq). exists q. split; [done |].
    rewrite (advances_pst_of h h'); [done | done | by rewrite Hq].
Qed.

Lemma last_ok_advances h h' l : advances h h' → last_ok h l → last_ok h' l.
Proof.
  intros H [-> | (pr & src & st & st' & Hl & Hpr)]; [by left |]. right.
  destruct (H _ _ Hl) as (c1 & Hc1 & Hadv1).
  destruct (H _ _ Hpr) as (c2 & Hc2 & Hadv2).
  destruct c1 as [o1 st1], c2 as [o2 st2].
  assert (o1 = OAll [firstAuthorizationPromise_; pr]) as ->.
  { destruct Hadv1 as [[= -> ->] | [_ [Ho | (? & ? & ? & ? & Ho & _)]]];
      simpl in *; done. }
  assert (o2 = OThen src None (Some HAuthFailed)) as ->.
  { destruct Hadv2 as [[= -> ->] | [_ [Ho | (? & ? & ? & ? & Ho & _)]]];
      simpl in *; done. }
  by exists pr, src, st1, st2.
Qed.

Lemma view_wait_advances h h' src :
  advances h h' →
  (∀ c w l st, h !! src = Some c →
     origin_of c = OThen w (Some HViewed) None →
     h' !! src = Some (Cell (OAdopt l) st) → last_ok h' l) →
  view_wait h src → view_wait h' src.
Proof.
  intros H Hnew (c & Hc & Ho). destruct (H _ _ Hc) as (c' & Hc' & Hadv).
  exists c'. split; [done |].
  assert (∀ l, origin_of c = OAdopt l → last_ok h l → last_ok h' l) as Hl
    by (intros l _ ?; by eapply last_ok_advances).
  destruct Hadv as [-> | [_ [Heq | (s0 & f & r & q & Ho1 & Ho2)]]].
  - destruct Ho as [? | (l & Hol & ?)]; [by left |]. right. exists l. eauto.
  - rewrite Heq.
    destruct Ho as [? | (l & Hol & ?)]; [by left |]. right. exists l. eauto.
  - right. exists q. split; [done |].
    destruct Ho as [[w Hw] | (l & Hol & _)]; [| congruence].
    destruct c' as [o' st']. simpl in Ho2. subst o'. by eapply Hnew.
Qed.

Lemma run_promise_advances h h' p :
  advances h h' → run_promise h p → run_promise h' p.
Proof.
  intros H (c & Hc & Ho). destruct (H _ _ Hc) as (c' & Hc' & Hadv).
  exists c'. split; [done |].
  destruct Hadv as [-> | [Hpend [Heq | (s0 & f & r & q & Ho1 & Ho2)]]];
    [done | |].
  - destruct Ho as [[_ Hst] | [a Ha]]; [congruence |]. right. exists a.
    by rewrite Heq.
  - destruct Ho as [[Hd _] | [a Ha]]; congruence.
Qed.

(** The invariant survives a change of the heap that advances it, when the
    cells that changed or were added are justified. *)
Lemma wf_set_heap_gen s h' :
  wf s →
  advances (heap s) h' →
  (∀ p c', h' !! p = Some c' → heap s !! p = Some c' ∨ cell_ok h' c') →
  (∀ p src r st, heap s !! p = None →
     h' !! p = Some (Cell (OThen src (Some HReportView) r) st) →
     view_wait h' src) →
  (∀ p src r st, heap s !! p = None →
     h' !! p = Some (Cell (OThen src (Some HScheduleView0) r) st) →
     run_promise h' src) →
  (∀ p src r st, heap s !! p = None →
     h' !! p ≠ Some (Cell (OThen src (Some HAuthorizationReceived) r) st)) →
  (∀ st, heap s !! firstAuthorizationPromise_ =
           Some (Cell (ODeferred XResolver) st) →
     ∃ st', h' !! firstAuthorizationPromise_ =
              Some (Cell (ODeferred XResolver) st') ∧
            (st' = Pending ∨ st' = Fulfilled VUndef)) →
  (∀ p c, h' !! p = Some c → is_received_trigger (origin_of c) = true →
          pst c = Pending → received_count s = 0%nat) →
  ((∀ p c, h' !! p = Some c → is_received_trigger (origin_of c) = false) →
   received_count s = 0%nat) →
  (∀ p q c c', h' !! p = Some c → h' !! q = Some c' →
     is_received_trigger (origin_of c) = true →
     is_received_trigger (origin_of c') = true → p = q) →
  (pst_of h' receivedPromise = Pending →
   ∀ p c, h' !! p = Some c → is_received_trigger (origin_of c) = false) →
  (∀ p c w l st, heap s !! p = Some c →
     origin_of c = OThen w (Some HViewed) None →
     h' !! p = Some (Cell (OAdopt l) st) → last_ok h' l) →
  wf (set_heap h' s).
Proof.
  intros [Hcells Hfirst Hlis Htim Hlast Hrep Hsch Hrc Hrl Hrp Hrn Hto Hta
          Hlh Hth]
    Hadv Hnew Hnewrep Hnewsch Hnewrc Hf P1 P2 P3 P4 P5.
  assert (∀ p o st o' st', heap s !! p = Some (Cell o st) →
            h' !! p = Some (Cell o' st') →
            (∀ q, o' ≠ OAdopt q) → o = o') as Hsame.
  { intros p o st o' st' Hold Hp Hna.
    destruct (Hadv _ _ Hold) as (c' & Hc' & Hca).
    rewrite Hp in Hc'. injection Hc' as <-.
    destruct Hca as [Heq | [_ [Ho | (? & ? & ? & q & _ & Ho)]]]; simpl in *.
    - by injection Heq.
    - done.
    - by destruct (Hna q). }
  split; simpl; try done.
  - intros p c' Hp. destruct (Hnew p c' Hp) as [Hold | Hok]; [| done].
    eapply cell_ok_advances; [done |]. by eapply Hcells.
  - destruct Hfirst as (st & Hst & _). by eapply Hf.
  - by eapply last_ok_advances.
  - intros p src r st Hp.
    destruct (heap s !! p) as [[o st0]|] eqn:Hold; [| by eapply Hnewrep].
    eapply view_wait_advances; [done | by eauto |].
    rewrite (Hsame _ _ _ _ _ Hold Hp) in Hold; [| done]. by eapply Hrep.
  - intros p src r st Hp.
    destruct (heap s !! p) as [[o st0]|] eqn:Hold; [| by eapply Hnewsch].
    eapply run_promise_advances; [done |].
    rewrite (Hsame _ _ _ _ _ Hold Hp) in Hold; [| done]. by eapply Hsch.
  - intros p src r st Hp.
    destruct (heap s !! p) as [[o st0]|] eqn:Hold;
      [| by destruct (Hnewrc _ _ _ _ Hold Hp)].
    rewrite (Hsame _ _ _ _ _ Hold Hp) in Hold; [| done]. by eapply Hrc.
Qed.

Lemma wf_set_heap s h' :
  wf s →
  advances (heap s) h' →
  (∀ p c', h' !! p = Some c' → heap s !! p = Some c' ∨ cell_ok h' c') →
  (∀ p src r st, heap s !! p = None →
     h' !! p = Some (Cell (OThen src (Some HReportView) r) st) →
     view_wait h' src) →
  (∀ p src r st, heap s !! p = None →
     h' !! p = Some (Cell (OThen src (Some HScheduleView0) r) st) →
     run_promise h' src) →
  (∀ p src r st, heap s !! p = None →
     h' !! p ≠ Some (Cell (OThen src (Some HAuthorizationReceived) r) st)) →
  (∀ p c, heap s !! p = None → h' !! p = Some c →
     is_received_trigger (origin_of c) = false) →
  (∀ st, heap s !! firstAuthorizationPromise_ =
           Some (Cell (ODeferred XResolver) st) →
     ∃ st', h' !! firstAuthorizationPromise_ =
              Some (Cell (ODeferred XResolver) st') ∧
            (st' = Pending ∨ st' = Fulfilled VUndef)) →
  (∀ p c w l st, heap s !! p = Some c →
     origin_of c = OThen w (Some HViewed) None →
     h' !! p = Some (Cell (OAdopt l) st) → last_ok h' l) →
  wf (set_heap h' s).
Proof.
  intros Hwf Hadv Hnew Hnewrep Hnewsch Hnewrc Hnewtr Hf P5.
  assert (∀ p c', h' !! p = Some c' →
            is_received_trigger (origin_of c') = true →
            ∃ c, heap s !! p = Some c ∧ origin_of c = origin_of c' ∧
                 (pst c' = Pending → pst c = Pending)) as Holdtr.
  { intros p [o' st'] Hp Htr.
    destruct (heap s !! p) as [[o st]|] eqn:Hold.
    - exists (Cell o st). split; [done |]. simpl.
      destruct (Hadv _ _ Hold) as (c2 & Hc2 & Hca). simplify_eq.
      destruct Hca as [[= -> ->] | [? [Ho | (? & ? & ? & q & _ & Ho)]]];
        simpl in *; [done | done |].
      by rewrite Ho in Htr.
    - rewrite (Hnewtr _ _ Hold Hp) in Htr. done. }
  assert (pst_of h' receivedPromise = Pending →
          pst_of (heap s) receivedPromise = Pending) as Hpendrc.
  { intros Hpend.
    destruct (pst_of (heap s) receivedPromise) eqn:Hst; [done | |];
      rewrite (advances_pst_of _ _ _ Hadv) in Hpend; congruence. }
  apply wf_set_heap_gen; try done.
  - intros p c' Hp Htr Hpend.
    destruct (Holdtr _ _ Hp Htr) as (c & Hc & Ho & Hst).
    eapply (wf_received_pending s Hwf p c); [done | by rewrite Ho |].
    by apply Hst.
  - intros Hnone. destruct (decide (received_count s = 0%nat)) as [? | Hne];
      [done |].
    exfalso. apply Hne, (wf_received_none s Hwf). intros p c Hp.
    destruct (is_received_trigger (origin_of c)) eqn:Htr; [| done].
    destruct (Hadv _ _ Hp) as (c' & Hc' & [-> | [Hpend _]]).
    + by rewrite (Hnone _ _ Hc') in Htr.
    + destruct Hne. by eapply (wf_received_pending s Hwf).
  - intros p q c c' Hp Hq Htr Htr'.
    destruct (Holdtr _ _ Hp Htr) as (c0 & Hc0 & Ho & _).
    destruct (Holdtr _ _ Hq Htr') as (c0' & Hc0' & Ho' & _).
    eapply (wf_trigger_once s Hwf p q c0 c0');
      [done | done | by rewrite Ho | by rewrite Ho'].
  - intros Hpend p c' Hp.
    destruct (is_received_trigger (origin_of c')) eqn:Htr; [| done].
    destruct (Holdtr _ _ Hp Htr) as (c & Hc & Ho & _).
    rewrite <- Ho in Htr.
    by rewrite (wf_trigger_after s Hwf (Hpendrc Hpend) _ _ Hc) in Htr.
Qed.

Global Instance page_evolves_refl : Reflexive page_evolves.
Proof. intros g. by split_and!. Qed.

Global Instance page_evolves_trans : Transitive page_evolves.
Proof.
  intros g1 g2 g3 (Hn12 & Hl12 & Ht12) (Hn23 & Hl23 & Ht23). split_and!.
  - lia.
  - intros e He Hlt. apply Hl12; [| done]. apply Hl23; [done | lia].
  - intros e He Hlt. apply Ht12; [| done]. apply Ht23; [done | lia].
Qed.

(** ** The primitives keep the invariant *)

Lemma evolves_alloc h c : evolves h (h ++ [c]).
Proof.
  intros p c0 Hp. exists c0. split; [| by left]. by apply lookup_app_l_Some.
Qed.

Lemma wf_alloc s o st :
  wf s →
  st = Pending ∨ (∃ x, o = ODeferred x) →
  (∀ src r, o = OThen src (Some HReportView) r →
            view_wait (heap s ++ [Cell o st]) src) →
  (∀ src r, o = OThen src (Some HScheduleView0) r →
            run_promise (heap s ++ [Cell o st]) src) →
  (∀ src r, o ≠ OThen src (Some HAuthorizationReceived) r) →
  is_received_trigger o = false →
  wf (set_heap (heap s ++ [Cell o st]) s).
Proof.
  intros Hwf Hfresh Hrep Hsch Hrc Htr.
  apply wf_set_heap; [done | | | | | | | |].
  - apply evolves_advances, evolves_alloc.
  - intros p c' Hp. apply lookup_app_Some in Hp as [Hp | [_ Hp]]; [by left |].
    right. apply list_lookup_singleton_Some in Hp as [_ <-].
    unfold cell_ok. simpl. destruct Hfresh as [-> | [x ->]]; [done |].
    by destruct st.
  - intros p src r st' Hnone Hp.
    apply lookup_app_Some in Hp as [Hp | [_ Hp]]; [congruence |].
    apply list_lookup_singleton_Some in Hp as [_ Heq].
    injection Heq as -> ->. by eapply Hrep.
  - intros p src r st' Hnone Hp.
    apply lookup_app_Some in Hp as [Hp | [_ Hp]]; [congruence |].
    apply list_lookup_singleton_Some in Hp as [_ Heq].
    injection Heq as -> ->. by eapply Hsch.
  - intros p src r st' Hnone Hp.
    apply lookup_app_Some in Hp as [Hp | [_ Hp]]; [congruence |].
    apply list_lookup_singleton_Some in Hp as [_ Heq].
    injection Heq as -> ->. by destruct (Hrc src r).
  - intros p c Hnone Hp.
    apply lookup_app_Some in Hp as [Hp | [_ Hp]]; [congruence |].
    by apply list_lookup_singleton_Some in Hp as [_ <-].
  - intros st' Hf. exists st'. split; [by apply lookup_app_l_Some |].
    destruct (wf_first s Hwf) as (st2 & Hst2 & Hor). by simplify_eq.
  - intros p c w l st' Hp Ho Hp'.
    rewrite (lookup_app_l_Some _ _ _ _ Hp) in Hp'. injection Hp' as ->.
    done.
Qed.

Lemma wf_alloc_plain s o st :
  wf s → st = Pending ∨ (∃ x, o = ODeferred x) → plain_origin o = true →
  wf (set_heap (heap s ++ [Cell o st]) s).
Proof.
  intros Hwf Hfresh Hplain.
  apply wf_alloc; [done | done | | | |]; try (by intros src r ->).
  destruct o as [| src [[]|] r | |]; try done. simpl in *.
  by destruct (String.eqb _ _).
Qed.

Lemma evolves_settle_deferred s p st :
  evolves (heap s) (heap (settle_deferred p st s)).
Proof.
  unfold settle_deferred.
  destruct (heap s !! p) as [[[x| | |] []]|] eqn:Hp; try reflexivity.
  simpl. intros q c Hq. destruct (decide (q = p)) as [-> | Hne].
  - rewrite Hp in Hq. injection Hq as <-. eexists. split.
    + apply list_lookup_insert_eq. by eapply lookup_lt_Some.
    + right. by exists x, st.
  - exists c. split; [| by left]. by rewrite list_lookup_insert_ne.
Qed.

Lemma wf_settle_deferred s p st :
  wf s →
  p ≠ firstAuthorizationPromise_ ∨ st = Fulfilled VUndef →
  wf (settle_deferred p st s).
Proof.
  intros Hwf Hp0. pose proof (evolves_settle_deferred s p st) as Hev.
  unfold settle_deferred in *.
  destruct (heap s !! p) as [[[x| | |] []]|] eqn:Hp; try done.
  simpl in Hev.
  assert (∀ q c, heap s !! q = None →
            <[p:=Cell (ODeferred x) st]> (heap s) !! q = Some c → False)
    as Hnonew.
  { intros q c Hnone Hq. destruct (decide (q = p)) as [-> | Hne];
      [congruence |]. rewrite list_lookup_insert_ne in Hq; congruence. }
  apply wf_set_heap; [done | by apply evolves_advances | | | | | | |].
  - intros q c' Hq. destruct (decide (q = p)) as [-> | Hne].
    + rewrite list_lookup_insert_eq in Hq; [| by eapply lookup_lt_Some].
      injection Hq as <-. right. unfold cell_ok. simpl. by destruct st.
    + rewrite list_lookup_insert_ne in Hq; [by left | done].
  - intros q src r st' Hnone Hq. by destruct (Hnonew _ _ Hnone Hq).
  - intros q src r st' Hnone Hq. by destruct (Hnonew _ _ Hnone Hq).
  - intros q src r st' Hnone Hq. by destruct (Hnonew _ _ Hnone Hq).
  - intros q c' Hnone Hq. by destruct (Hnonew _ _ Hnone Hq).
  - intros st' Hf. destruct (wf_first s Hwf) as (st2 & Hst2 & Hor).
    destruct (decide (p = firstAuthorizationPromise_)) as [-> | Hne].
    + destruct Hp0 as [? | ->]; [done |]. eexists. split; [| by right].
      rewrite list_lookup_insert_eq; [| by eapply lookup_lt_Some].
      by simplify_eq.
    + exists st2. split; [| done]. by rewrite list_lookup_insert_ne.
  - intros q c w l st' Hq Ho Hq'. destruct (decide (q = p)) as [-> | Hne].
    + rewrite Hp in Hq. injection Hq as <-. done.
    + rewrite list_lookup_insert_ne in Hq' by done.
      rewrite Hq in Hq'. injection Hq' as ->. done.
Qed.

Lemma wf_set_this s f :
  wf s →
  lastAuthorizationPromise_ f = lastAuthorizationPromise_ (this s) →
  wf (set_this f s).
Proof. intros [] Hl. split; simpl; try done. by rewrite Hl. Qed.

Lemma wf_set_host s g :
  wf s →
  (nextHandle (host s) ≤ nextHandle g)%nat →
  (∀ e, e ∈ listeners g →
        e ∈ listeners (host s) ∨
        (listener_target (snd e) ≠ Some firstAuthorizationPromise_ ∧
         (fst e < nextHandle g)%nat)) →
  (∀ e, e ∈ timers g →
        e ∈ timers (host s) ∨
        (timer_target (action (snd e)) ≠ firstAuthorizationPromise_ ∧
         (fst e < nextHandle g)%nat)) →
  wf (set_host g s).
Proof.
  intros Hwf Hn Hl Ht. pose proof Hwf as [].
  split; simpl; try done.
  - intros e He. destruct (Hl e He) as [? | [? _]]; auto.
  - intros e He. destruct (Ht e He) as [? | [? _]]; auto.
  - intros e He. destruct (Hl e He) as [Hold | [_ ?]]; [| done].
    pose proof (wf_listener_handles s Hwf e Hold). lia.
  - intros e He. destruct (Ht e He) as [Hold | [_ ?]]; [| done].
    pose proof (wf_timer_handles s Hwf e Hold). lia.
Qed.

Lemma received_count_add_log s e :
  received_count (add_log e s) =
  (received_count s + (if is_received e then 1 else 0))%nat.
Proof.
  unfold received_count. simpl. rewrite filter_app, length_app. f_equal.
  rewrite filter_cons, filter_nil. by destruct (is_received e).
Qed.

Lemma wf_add_log s e : wf s → is_received e = false → wf (add_log e s).
Proof.
  intros [] He. split; try done;
    rewrite received_count_add_log, He, Nat.add_0_r; done.
Qed.

Lemma wf_heap_nonempty s : wf s → length (heap s) ≠ 0%nat.
Proof.
  intros Hwf. destruct (wf_first s Hwf) as (st & Hst & _).
  apply lookup_lt_Some in Hst. lia.
Qed.

(** *** The same, for computations *)

Lemma keeps_weaken {A} (m : M A) (R R' : A → Prop) :
  keeps m R → (∀ a, R a → R' a) → keeps m R'.
Proof.
  intros Hm HR s Hwf. destruct (Hm s Hwf) as (H1 & H2 & H3 & H4).
  split_and!; [done | done | done |]. intros a Ha. by apply HR, H4.
Qed.

Lemma keeps_ret {A} (a : A) (R : A → Prop) : R a → keeps (ret a) R.
Proof.
  intros Ha s Hwf. simpl. split_and!; [done | done | done |].
  by intros ? [= <-].
Qed.

Lemma keeps_throw {A} (e : error) (R : A → Prop) : keeps (throw e) R.
Proof.
  intros s Hwf. simpl. split_and!; [done | done | done |]. by intros ? [=].
Qed.

Lemma keeps_bind {A B} (m : M A) (k : A → M B) (R1 : A → Prop)
    (R2 : B → Prop) :
  keeps m R1 → (∀ a, R1 a → keeps (k a) R2) → keeps (bind m k) R2.
Proof.
  intros Hm Hk s Hwf. unfold bind.
  destruct (Hm s Hwf) as (H1 & H2 & H2' & H3).
  destruct (m s) as [[a | e] s1] eqn:Hms; simpl in *.
  - destruct (Hk a (H3 a eq_refl) s1 H1) as (H4 & H5 & H5' & H6).
    split_and!; [done | by etrans | by etrans | done].
  - split_and!; [done | done | done |]. by intros ? [=].
Qed.

Lemma bind_Ok {A B} (m : M A) (k : A → M B) s b s' :
  bind m k s = (Ok b, s') → ∃ a s1, m s = (Ok a, s1) ∧ k a s1 = (Ok b, s').
Proof.
  unfold bind. destruct (m s) as [[a | e] s1]; [| done]. intros H.
  by exists a, s1.
Qed.

Lemma keeps_get : keeps get any.
Proof. intros s Hwf. simpl. by split_and!. Qed.

Lemma keeps_alloc o st :
  st = Pending ∨ (∃ x, o = ODeferred x) →
  plain_origin o = true →
  keeps (alloc o st) (λ p, p ≠ firstAuthorizationPromise_).
Proof.
  intros Hfresh Hplain s Hwf. simpl. split_and!.
  - by apply wf_alloc_plain.
  - apply evolves_alloc.
  - done.
  - intros a [= <-]. by apply wf_heap_nonempty.
Qed.

Lemma keeps_then_ p f r :
  plain_origin (OThen p f r) = true →
  keeps (then_ p f r) (λ p, p ≠ firstAuthorizationPromise_).
Proof. intros Hf. apply keeps_alloc; [by left | done]. Qed.

Lemma keeps_promise_resolve v :
  keeps (promise_resolve v) (λ p, p ≠ firstAuthorizationPromise_).
Proof. apply keeps_alloc; [right; by eexists | done]. Qed.

Lemma keeps_promise_all ps :
  keeps (promise_all ps) (λ p, p ≠ firstAuthorizationPromise_).
Proof. apply keeps_alloc; [by left | done]. Qed.

Lemma keeps_resolver p st :
  p ≠ firstAuthorizationPromise_ ∨ st = Fulfilled VUndef →
  keeps (resolver p st) any.
Proof.
  intros Hp s Hwf. simpl. split_and!; [| | | done].
  - by apply wf_settle_deferred.
  - apply evolves_settle_deferred.
  - unfold settle_deferred. by repeat case_match.
Qed.

Lemma keeps_emit e : is_received e = false → keeps (emit e) any.
Proof.
  intros He s Hwf. simpl.
  split_and!; [by apply wf_add_log | done | done | done].
Qed.

Lemma keeps_set_field f :
  (∀ x, lastAuthorizationPromise_ (f x) = lastAuthorizationPromise_ x) →
  keeps (set_field f) any.
Proof.
  intros Hf s Hwf. simpl. split_and!; [| done | done | done].
  by apply wf_set_this.
Qed.

Lemma keeps_set_page f :
  (∀ g e, e ∈ listeners (f g) → e ∈ listeners g) →
  (∀ g e, e ∈ timers (f g) → e ∈ timers g) →
  (∀ g, nextHandle (f g) = nextHandle g) →
  keeps (set_page f) any.
Proof.
  intros Hl Ht Hn s Hwf. simpl. split_and!; [| done | | done].
  - apply wf_set_host; [done | by rewrite Hn | |]; intros e He; left; auto.
  - split_and!; [by rewrite Hn | |]; intros e He _; auto.
Qed.

Lemma keeps_listen l :
  listener_target l ≠ Some firstAuthorizationPromise_ →
  keeps (listen l) any.
Proof.
  intros Hl s Hwf. simpl. split_and!; [| done | | done].
  - apply wf_set_host; [done | simpl; lia | |]; simpl; [| by left].
    intros e He. apply elem_of_app in He as [He | He]; [by left |].
    apply list_elem_of_singleton in He as ->. right. simpl. split; [done | lia].
  - split_and!; simpl; [lia | | done].
    intros e He Hlt. apply elem_of_app in He as [He | He]; [done |].
    apply list_elem_of_singleton in He as ->. simpl in Hlt. lia.
Qed.

Lemma keeps_delay a d :
  timer_target a ≠ firstAuthorizationPromise_ →
  keeps (delay a d) any.
Proof.
  intros Ha s Hwf. simpl. split_and!; [| done | | done].
  - apply wf_set_host; [done | simpl; lia | |]; simpl; [by left |].
    intros e He. apply elem_of_app in He as [He | He]; [by left |].
    apply list_elem_of_singleton in He as ->. right. simpl. split; [done | lia].
  - split_and!; simpl; [lia | done |].
    intros e He Hlt. apply elem_of_app in He as [He | He]; [done |].
    apply list_elem_of_singleton in He as ->. simpl in Hlt. lia.
Qed.

Lemma elem_of_remove_key {A} k (l : list (nat * A)) e :
  e ∈ remove_key k l → e ∈ l.
Proof. unfold remove_key. rewrite list_elem_of_filter. by intros [_ ?]. Qed.

Lemma keeps_call_unlisten u : keeps (call_unlisten u) any.
Proof.
  apply keeps_set_page; [| | by destruct u]; intros g e; destruct u; simpl;
    try done; apply elem_of_remove_key.
Qed.

Lemma keeps_forEach {A} (f : A → M unit) l :
  (∀ a, a ∈ l → keeps (f a) any) → keeps (forEach f l) any.
Proof.
  induction l as [| a l IH]; intros Hf; simpl.
  - by apply keeps_ret.
  - eapply keeps_bind; [apply Hf; by left |]. intros _ _.
    apply IH. intros b Hb. apply Hf. by right.
Qed.

Lemma keeps_dev_assert c : keeps (dev_assert c) any.
Proof. destruct c; [by apply keeps_ret | apply keeps_throw]. Qed.

Lemma keeps_user_assert_ c msg : keeps (user_assert_ c msg) any.
Proof. destruct c; [by apply keeps_ret | apply keeps_throw]. Qed.

Lemma keeps_alloc_any o st :
  st = Pending ∨ (∃ x, o = ODeferred x) →
  plain_origin o = true →
  keeps (alloc o st) any.
Proof. intros. by eapply keeps_weaken; [apply keeps_alloc |]. Qed.

Lemma keeps_then_any p f r :
  plain_origin (OThen p f r) = true → keeps (then_ p f r) any.
Proof. intros. by eapply keeps_weaken; [apply keeps_then_ |]. Qed.

Lemma keeps_promise_resolve_any v : keeps (promise_resolve v) any.
Proof. by eapply keeps_weaken; [apply keeps_promise_resolve |]. Qed.

Lemma keeps_promise_all_any ps : keeps (promise_all ps) any.
Proof. by eapply keeps_weaken; [apply keeps_promise_all |]. Qed.

Lemma wf_set_last s l :
  wf s → last_ok (heap s) l →
  wf (set_this (with_lastAuthorizationPromise_ l (this s)) s).
Proof. intros [] Hl. by split. Qed.

Create HintDb keeps discriminated.

#[local] Hint Resolve keeps_get keeps_throw keeps_call_unlisten
  keeps_dev_assert keeps_user_assert_ keeps_promise_resolve_any
  keeps_promise_all_any : keeps.

(** Decompose a computation along its binds and branches. *)
Ltac keeps_go :=
  lazymatch goal with
  | |- keeps (bind (alloc _ _) _) _ =>
      eapply keeps_bind;
      [apply keeps_alloc; [first [by left | right; by eexists] | reflexivity]
      | intros ? ?; keeps_go]
  | |- keeps (bind _ _) _ =>
      apply (keeps_bind _ _ any); [keeps_go | intros ? _; keeps_go]
  | |- keeps (ret _) _ => apply keeps_ret; first [exact I | done]
  | |- keeps (if ?b then _ else _) _ => destruct b eqn:?; keeps_go
  | |- keeps (match ?x with _ => _ end) _ => destruct x eqn:?; keeps_go
  | |- keeps (alloc _ _) _ =>
      apply keeps_alloc_any; [first [by left | right; by eexists] | reflexivity]
  | |- keeps (then_ _ _ _) _ => apply keeps_then_any; reflexivity
  | |- keeps (emit _) _ => apply keeps_emit; reflexivity
  | |- keeps (set_field _) _ => apply keeps_set_field; done
  | |- keeps (set_page _) _ =>
      apply keeps_set_page; [intros ? ? ?; assumption.. | done]
  | |- keeps (resolver _ _) _ => apply keeps_resolver; auto
  | |- keeps (listen _) _ => apply keeps_listen; simpl; congruence
  | |- keeps (delay _ _) _ => apply keeps_delay; simpl; congruence
  | |- keeps (forEach _ _) _ => apply keeps_forEach; intros ? _; keeps_go
  | |- _ => solve [eauto with keeps]
  end.

Lemma keeps_analyticsEvent_ e :
  String.eqb e "access-authorization-received" = false →
  keeps (analyticsEvent_ e) any.
Proof.
  intros He. unfold analyticsEvent_.
  apply (keeps_bind _ _ any); [| intros; by apply keeps_ret].
  apply keeps_then_any. simpl. by rewrite He.
Qed.
#[local] Hint Extern 1 (keeps (analyticsEvent_ _) _) =>
  apply keeps_analyticsEvent_; reflexivity : keeps.

Lemma keeps_loginAnalyticsEvent_ ty e : keeps (loginAnalyticsEvent_ ty e) any.
Proof. unfold loginAnalyticsEvent_. keeps_go. Qed.
#[local] Hint Resolve keeps_loginAnalyticsEvent_ : keeps.

Lemma keeps_toggleTopClass_ c on : keeps (toggleTopClass_ c on) any.
Proof. unfold toggleTopClass_. keeps_go. Qed.
#[local] Hint Resolve keeps_toggleTopClass_ : keeps.

Lemma keeps_broadcastReauthorize_ : keeps broadcastReauthorize_ any.
Proof. unfold broadcastReauthorize_. keeps_go. Qed.
#[local] Hint Resolve keeps_broadcastReauthorize_ : keeps.

Lemma keeps_getReaderId_ : keeps getReaderId_ any.
Proof. unfold getReaderId_. keeps_go. Qed.
#[local] Hint Resolve keeps_getReaderId_ : keeps.

Lemma keeps_buildUrl_ url b : keeps (buildUrl_ url b) any.
Proof. unfold buildUrl_. keeps_go. Qed.
#[local] Hint Resolve keeps_buildUrl_ : keeps.

Lemma keeps_firstAuthorizationResolver_ : keeps firstAuthorizationResolver_ any.
Proof. unfold firstAuthorizationResolver_. keeps_go. Qed.
#[local] Hint Resolve keeps_firstAuthorizationResolver_ : keeps.

Lemma keeps_setAuthResponse_ v : keeps (setAuthResponse_ v) any.
Proof. unfold setAuthResponse_. keeps_go. Qed.
#[local] Hint Resolve keeps_setAuthResponse_ : keeps.

Lemma keeps_buildLoginUrls_loop keys :
  keeps (buildLoginUrls_loop keys) any.
Proof. induction keys as [| k keys IH]; simpl; keeps_go. Qed.
#[local] Hint Resolve keeps_buildLoginUrls_loop : keeps.

Lemma keeps_buildLoginUrls_ : keeps buildLoginUrls_ any.
Proof. unfold buildLoginUrls_. keeps_go. Qed.

(** The join of l.424 leaves [lastAuthorizationPromise_] as the invariant
    wants it. *)
Lemma keeps_join responsePromise :
  keeps (applied <- then_ responsePromise (Some HAuthApply) None ;;
         promise <- then_ applied None (Some HAuthFailed) ;;
         last <- promise_all [firstAuthorizationPromise_; promise] ;;
         set_field (with_lastAuthorizationPromise_ last) ;;;
         ret promise) any.
Proof.
  intros s Hwf.
  set (c1 := Cell (OThen responsePromise (Some HAuthApply) None) Pending).
  set (s1 := set_heap (heap s ++ [c1]) s).
  set (c2 := Cell (OThen (length (heap s)) None (Some HAuthFailed)) Pending).
  set (s2 := set_heap (heap s1 ++ [c2]) s1).
  set (c3 := Cell (OAll [firstAuthorizationPromise_; length (heap s1)]) Pending).
  set (s3 := set_heap (heap s2 ++ [c3]) s2).
  assert (wf s1) as Hwf1 by (by apply wf_alloc_plain; [| left |]).
  assert (wf s2) as Hwf2 by (by apply wf_alloc_plain; [| left |]).
  assert (wf s3) as Hwf3 by (by apply wf_alloc_plain; [| left |]).
  split_and!; [| | done | done].
  - change (wf (set_this (with_lastAuthorizationPromise_ (length (heap s2))
                            (this s3)) s3)).
    apply wf_set_last; [done |]. right.
    exists (length (heap s1)), (length (heap s)), Pending, Pending.
    split.
    + subst s3. simpl. by rewrite list_lookup_middle.
    + subst s3 s2. simpl. apply lookup_app_l_Some.
      by rewrite list_lookup_middle.
  - change (evolves (heap s) (((heap s ++ [c1]) ++ [c2]) ++ [c3])).
    etrans; [apply evolves_alloc |]. etrans; apply evolves_alloc.
Qed.

Lemma keeps_runAuthorization_ d : keeps (runAuthorization_ d) any.
Proof.
  unfold runAuthorization_.
  destruct skips_authorization; [keeps_go |].
  apply (keeps_bind _ _ any); [keeps_go | intros _ _].
  apply (keeps_bind _ _ any); [keeps_go | intros rp _].
  apply keeps_join.
Qed.
#[local] Hint Resolve keeps_runAuthorization_ : keeps.

Lemma keeps_getAuthdataField f : keeps (getAuthdataField f) any.
Proof. unfold getAuthdataField. keeps_go. Qed.
#[local] Hint Resolve keeps_getAuthdataField : keeps.

Lemma keeps_reportViewToServer_ : keeps reportViewToServer_ any.
Proof. unfold reportViewToServer_. keeps_go. Qed.
#[local] Hint Resolve keeps_reportViewToServer_ : keeps.

Lemma keeps_whenViewed_ t : keeps (whenViewed_ t) any.
Proof. unfold whenViewed_. keeps_go. Qed.
#[local] Hint Resolve keeps_whenViewed_ : keeps.

(** The chain of l.619-635: the report waits on the [then] of [HViewed]. *)
Lemma keeps_report_chain viewed :
  keeps (authorized <- then_ viewed (Some HViewed) None ;;
         reported <- then_ authorized (Some HReportView) None ;;
         p <- then_ reported None (Some HViewCanceled) ;;
         set_field (with_reportViewPromise_ (Some p)) ;;;
         then_ p (Some HBroadcast) None ;;;
         ret p) any.
Proof.
  intros s Hwf.
  set (c1 := Cell (OThen viewed (Some HViewed) None) Pending).
  set (s1 := set_heap (heap s ++ [c1]) s).
  set (c2 := Cell (OThen (length (heap s)) (Some HReportView) None) Pending).
  set (s2 := set_heap (heap s1 ++ [c2]) s1).
  set (c3 := Cell (OThen (length (heap s1)) None (Some HViewCanceled)) Pending).
  set (s3 := set_heap (heap s2 ++ [c3]) s2).
  set (s4 := set_this (with_reportViewPromise_ (Some (length (heap s2)))
                         (this s3)) s3).
  set (c5 := Cell (OThen (length (heap s2)) (Some HBroadcast) None) Pending).
  set (s5 := set_heap (heap s4 ++ [c5]) s4).
  assert (wf s1) as Hwf1 by (by apply wf_alloc_plain; [| left |]).
  assert (wf s2) as Hwf2.
  { apply wf_alloc; [done | by left | | done | done | done].
    intros src r [= <- <-].
    exists c1. split; [| left; by eexists].
    subst s1. simpl. apply lookup_app_l_Some. by rewrite list_lookup_middle. }
  assert (wf s3) as Hwf3 by (by apply wf_alloc_plain; [| left |]).
  assert (wf s4) as Hwf4 by (by apply wf_set_this).
  assert (wf s5) as Hwf5 by (by apply wf_alloc_plain; [| left |]).
  split_and!; [done | | done | done].
  change (evolves (heap s) ((((heap s ++ [c1]) ++ [c2]) ++ [c3]) ++ [c5])).
  etrans; [apply evolves_alloc |]. etrans; [apply evolves_alloc |].
  etrans; apply evolves_alloc.
Qed.

Lemma keeps_reportWhenViewed_ t : keeps (reportWhenViewed_ t) any.
Proof.
  unfold reportWhenViewed_.
  apply (keeps_bind _ _ any); [keeps_go | intros s0 _].
  destruct (reportViewPromise_ (this s0)); [keeps_go |].
  apply (keeps_bind _ _ any); [keeps_go | intros viewed _].
  apply keeps_report_chain.
Qed.
#[local] Hint Resolve keeps_reportWhenViewed_ : keeps.

Lemma keeps_scheduleView_ready t : keeps (scheduleView_ready t) any.
Proof. unfold scheduleView_ready. keeps_go. Qed.
#[local] Hint Resolve keeps_scheduleView_ready : keeps.

Lemma keeps_scheduleView_ t : keeps (scheduleView_ t) any.
Proof. unfold scheduleView_. keeps_go. Qed.
#[local] Hint Resolve keeps_scheduleView_ : keeps.

Lemma keeps_login ty : keeps (login ty) any.
Proof. unfold login. keeps_go. Qed.
#[local] Hint Resolve keeps_login : keeps.

Lemma keeps_handleAction_ m : keeps (handleAction_ m) any.
Proof. unfold handleAction_. keeps_go. Qed.
#[local] Hint Resolve keeps_handleAction_ : keeps.

#[local] Hint Resolve keeps_buildLoginUrls_ : keeps.

(** What [runAuthorization_] returns is a promise of a run. *)
Lemma runAuthorization_run_promise d s p s' :
  runAuthorization_ d s = (Ok p, s') → run_promise (heap s') p.
Proof.
  unfold runAuthorization_. destruct skips_authorization eqn:Hskip.
  - unfold bind. simpl. intros [= <- <-]. simpl.
    eexists. split; [by rewrite list_lookup_middle |]. by left.
  - intros H. apply bind_Ok in H as (_ & s1 & _ & H).
    apply bind_Ok in H as (rp & s2 & _ & H).
    injection H as <- <-. simpl.
    exists (Cell (OThen (length (heap s2)) None (Some HAuthFailed)) Pending).
    split; [| right; by eexists].
    apply lookup_app_l_Some.
    by rewrite list_lookup_middle; [| rewrite length_app; simpl; lia].
Qed.

(** l.789: the view is rescheduled after the promise of the run. *)
Lemma keeps_reauthorize :
  keeps (p <- runAuthorization_ true ;;
         q <- then_ p (Some HScheduleView0) None ;;
         ret (RetPromise q)) any.
Proof.
  intros s Hwf. unfold bind.
  destruct (keeps_runAuthorization_ true s Hwf) as (Hwf1 & Hev1 & Hpg1 & _).
  destruct (runAuthorization_ true s) as [[p | e] s1] eqn:Hrun; simpl in *;
    [| by split_and!].
  split_and!; [| | done | done].
  - apply wf_alloc; [done | by left | done | | done | done].
    intros src r [= <- <-].
    eapply run_promise_advances;
      [apply evolves_advances, evolves_alloc |].
    by eapply runAuthorization_run_promise.
  - etrans; [done |]. apply evolves_alloc.
Qed.

Lemma keeps_run_fulfilled h v :
  h ≠ HAuthorizationReceived →
  h ≠ HTriggerEvent "access-authorization-received" →
  keeps (run_fulfilled h v) any.
Proof.
  intros Hh Ht. destruct h; simpl; cbv zeta; try done;
    try (keeps_go; fail).
  { apply (keeps_bind _ _ any); [| intros; by apply keeps_ret].
    apply keeps_emit. simpl. apply String.eqb_neq. congruence. }
  apply (keeps_bind _ _ any); [keeps_go | intros _ _].
  apply (keeps_bind _ _ any); [keeps_go | intros _ _].
  destruct (_ || _); [| keeps_go].
  apply (keeps_bind _ _ any); [keeps_go | intros _ _].
  apply keeps_reauthorize.
Qed.

Lemma keeps_run_rejected h self e : keeps (run_rejected h self e) any.
Proof. destruct h; simpl; keeps_go. Qed.

Lemma keeps_get_wf {A} (k : state → M A) (R : A → Prop) :
  (∀ s, wf s → keeps (k s) R) → keeps (bind get k) R.
Proof. intros Hk s Hwf. unfold bind, get. by apply Hk. Qed.

Lemma keeps_fire l :
  listener_target l ≠ Some firstAuthorizationPromise_ → keeps (fire l) any.
Proof.
  intros Hl. destruct l; simpl in *; keeps_go.
Qed.

Lemma keeps_dispatch sig : keeps (dispatch sig) any.
Proof.
  unfold dispatch. apply keeps_get_wf. intros s Hwf.
  apply (keeps_bind _ _ any); [| intros _ _].
  - destruct (bool_decide (sig = SClick)); [| keeps_go].
    apply keeps_set_page; [| done | done]. intros g e. simpl.
    rewrite list_elem_of_filter. by intros [_ ?].
  - apply keeps_forEach. intros e He. apply keeps_fire.
    apply list_elem_of_filter in He as [_ He]. by apply (wf_listeners s).
Qed.

Lemma keeps_fire_timer a :
  timer_target a ≠ firstAuthorizationPromise_ → keeps (fire_timer a) any.
Proof.
  intros Ha. destruct a; simpl in *; apply keeps_resolver; auto.
Qed.

(** ** Every step keeps the invariant *)

Lemma kept_call {A} (m : M A) s : keeps m any → wf s → kept s (call m s).
Proof. intros Hm Hwf. destruct (Hm s Hwf) as (? & ? & ? & _). by split_and!. Qed.

Lemma task_kept l s s' : wf s → task l s = Some s' → kept s s'.
Proof.
  intros Hwf. destruct l; simpl; try done.
  - destruct (docReady (host s)); [done |]. intros [= <-].
    apply kept_call; [| done]. apply (keeps_bind _ _ any); [| intros _ _].
    + apply keeps_set_page; done.
    + apply keeps_forEach. intros; apply keeps_scheduleView_ready.
  - intros [= <-]. apply kept_call; [| done].
    apply (keeps_bind _ _ any); [| intros _ _; apply keeps_dispatch].
    apply keeps_set_page; done.
  - intros [= <-]. apply kept_call; [apply keeps_dispatch | done].
  - intros [= <-]. apply kept_call; [apply keeps_dispatch | done].
  - destruct (_ && _); [| done]. intros [= <-].
    apply kept_call; [| done]. apply keeps_set_page; done.
  - destruct (list_find _ _) as [[i [id' [d a]]]|] eqn:Hfind; [| done].
    destruct (d <=? now (host s))%Z; [| done]. intros [= <-].
    apply list_find_Some in Hfind as (Hi & _ & _).
    apply kept_call; [| done].
    apply (keeps_bind _ _ any); [apply keeps_call_unlisten | intros _ _].
    apply keeps_fire_timer.
    apply (wf_timers s Hwf (id', Timer d a)). by eapply list_elem_of_lookup_2.
  - destruct (heap s !! p) as [[[x| | |] []]|] eqn:Hp; try done.
    destruct (answers x r s) eqn:Hans; [| done]. intros [= <-].
    assert (p ≠ firstAuthorizationPromise_) as Hne.
    { intros ->. destruct (wf_first s Hwf) as (st & Hst & _).
      rewrite Hp in Hst. injection Hst as ->. by destruct r. }
    apply (kept_call (resolver p (pst_of_res r))); [| done].
    apply keeps_resolver. by left.
  - destruct (_ && _); intros [= <-]; [| by split_and!].
    by apply kept_call; [apply keeps_runAuthorization_ |].
  - intros [= <-]. by apply kept_call; [apply keeps_handleAction_ |].
  - intros [= <-]. by apply kept_call; [apply keeps_login |].
  - intros [= <-]. by apply kept_call; [apply keeps_getAuthdataField |].
Qed.

Lemma task_wf l s s' : wf s → task l s = Some s' → wf s'.
Proof. intros Hwf Ht. by destruct (task_kept l s s' Hwf Ht). Qed.

Lemma evolves_keep h h' p c :
  evolves h h' → h !! p = Some c → (∀ x, origin_of c ≠ ODeferred x) →
  h' !! p = Some c.
Proof.
  intros Hev Hp Hnd. destruct (Hev p c Hp) as (c' & Hc' & [-> | Hx]); [done |].
  destruct Hx as (x & st & -> & _). by destruct (Hnd x).
Qed.

Lemma advances_insert h p c c' :
  h !! p = Some c → cell_advances c c' → advances h (<[p := c']> h).
Proof.
  intros Hp Hadv q c0 Hq. destruct (decide (q = p)) as [-> | Hne].
  - exists c'. rewrite list_lookup_insert_eq; [| by eapply lookup_lt_Some].
    by simplify_eq.
  - exists c0. rewrite list_lookup_insert_ne; [| done]. split; [done | by left].
Qed.

Lemma wf_set_cell s p c c' :
  wf s → heap s !! p = Some c → pst c = Pending →
  (∀ x, origin_of c ≠ ODeferred x) →
  cell_advances c c' → cell_ok (heap s) c' →
  (∀ w l, origin_of c = OThen w (Some HViewed) None →
          origin_of c' = OAdopt l → last_ok (heap s) l) →
  wf (set_cell p c' s).
Proof.
  intros Hwf Hp Hpend Hnd Hadv Hok Hview.
  pose proof (advances_insert _ _ _ _ Hp Hadv) as Hadvs.
  assert (∀ q c0, heap s !! q = None → <[p:=c']> (heap s) !! q = Some c0 →
            False) as Hnonew.
  { intros q c0 Hnone Hq. destruct (decide (q = p)) as [-> | Hne];
      [congruence |]. rewrite list_lookup_insert_ne in Hq; congruence. }
  apply wf_set_heap; [done | done | | | | | | |].
  - intros q c0 Hq. destruct (decide (q = p)) as [-> | Hne].
    + rewrite list_lookup_insert_eq in Hq; [| by eapply lookup_lt_Some].
      injection Hq as <-. right. by eapply cell_ok_advances.
    + rewrite list_lookup_insert_ne in Hq; [by left | done].
  - intros q src r st Hnone Hq. by destruct (Hnonew _ _ Hnone Hq).
  - intros q src r st Hnone Hq. by destruct (Hnonew _ _ Hnone Hq).
  - intros q src r st Hnone Hq. by destruct (Hnonew _ _ Hnone Hq).
  - intros q c0 Hnone Hq. by destruct (Hnonew _ _ Hnone Hq).
  - intros st Hf. exists st. split.
    + rewrite list_lookup_insert_ne; [done |]. intros ->.
      rewrite Hp in Hf. injection Hf as ->. by destruct (Hnd XResolver).
    + destruct (wf_first s Hwf) as (st2 & Hst2 & Hor). by simplify_eq.
  - intros q c0 w l st Hq Ho Hq'. destruct (decide (q = p)) as [-> | Hne].
    + rewrite list_lookup_insert_eq in Hq' by (by eapply lookup_lt_Some).
      injection Hq' as ->. rewrite Hp in Hq. injection Hq as <-.
      eapply last_ok_advances; [done |]. by eapply Hview.
    + rewrite list_lookup_insert_ne in Hq' by done.
      rewrite Hq in Hq'. injection Hq' as ->. done.
Qed.

Lemma first_rejection_Some h ps e :
  first_rejection h ps = Some e → ∃ q, q ∈ ps ∧ pst_of h q = Rejected e.
Proof.
  induction ps as [| p ps IH]; simpl; [done |].
  destruct (pst_of h p) eqn:Hp.
  - intros H. destruct (IH H) as (q & Hq & Hr). exists q. split; [by right | done].
  - intros H. destruct (IH H) as (q & Hq & Hr). exists q. split; [by right | done].
  - intros [= ->]. exists p. split; [by left | done].
Qed.

Lemma all_values_Some h ps vs :
  all_values h ps = Some vs → ∀ q, q ∈ ps → is_fulfilled (pst_of h q) = true.
Proof.
  revert vs. induction ps as [| p ps IH]; simpl; intros vs H q Hq.
  - by apply elem_of_nil in Hq.
  - destruct (pst_of h p) eqn:Hp; try done.
    destruct (all_values h ps) as [vs'|] eqn:Hvs; [| done].
    apply elem_of_cons in Hq as [-> | Hq]; [by rewrite Hp |]. by eapply IH.
Qed.

(** The reaction of l.620 always hands back the last-authorization promise. *)
Lemma run_fulfilled_HViewed v s :
  run_fulfilled HViewed v s =
  (Ok (RetPromise (lastAuthorizationPromise_ (this s))), s).
Proof. reflexivity. Qed.

(** The reaction of l.418 swallows the error. *)
Lemma run_rejected_HAuthFailed self e s :
  fst (run_rejected HAuthFailed self e s) = Ok (RetVal VUndef).
Proof. reflexivity. Qed.

Lemma forEach_call_unlisten_ok l s :
  fst (forEach call_unlisten l s) = Ok tt.
Proof.
  revert s. induction l as [| u l IH]; intros s; simpl; [done |].
  unfold bind. simpl. apply IH.
Qed.

Lemma run_rejected_no_promise h self e s q :
  fst (run_rejected h self e s) ≠ Ok (RetPromise q).
Proof.
  destruct h as [d | | | set | | ty]; simpl; unfold bind; simpl.
  - destruct (authorizationFallbackResponse config_) as [f|]; [| done].
    by destruct (truthy (Some f) && negb d).
  - done.
  - done.
  - pose proof (forEach_call_unlisten_ok set s) as H.
    by destruct (forEach call_unlisten set s) as [[[]|] s'].
  - done.
  - unfold loginAnalyticsEvent_, analyticsEvent_, bind. simpl.
    destruct (negb _); simpl; by destruct (bool_decide _).
Qed.

Lemma conclude_wf p src f r s out :
  wf s → heap s !! p = Some (Cell (OThen src f r) Pending) →
  wf (snd out) → evolves (heap s) (heap (snd out)) →
  (∀ q, fst out = Ok (RetPromise q) → is_Some f) →
  (∀ v, fst out = Ok (RetVal v) → ¬ (f = Some HViewed ∧ r = None)) →
  (∀ e, fst out = Throw e → ¬ (f = None ∧ r = Some HAuthFailed)) →
  (∀ q, fst out = Ok (RetPromise q) → f = Some HViewed → r = None →
        last_ok (heap (snd out)) q) →
  wf (conclude p (OThen src f r) out).
Proof.
  intros Hwf Hp Hwf1 Hev Hprom Hval Hthrow Hview.
  assert (heap (snd out) !! p = Some (Cell (OThen src f r) Pending)) as Hp1
    by (by eapply evolves_keep).
  destruct out as [[[v | q] | e] s1]; simpl in *.
  - eapply wf_set_cell; [done | done | done | done | | | done].
    + right. split; [done | by left].
    + unfold cell_ok. simpl. by eapply Hval.
  - eapply wf_set_cell; [done | done | done | done | | done |].
    + destruct (Hprom q eq_refl) as [h ->].
      right. split; [done |]. right. by exists src, h, r, q.
    + simpl. intros w l [= -> -> ->] [= ->]. by apply Hview.
  - eapply wf_set_cell; [done | done | done | done | | | done].
    + right. split; [done | by left].
    + unfold cell_ok. simpl. by eapply Hthrow.
Qed.

(** The reaction of the constructor (l.175) runs once: it is the only one
    that hands the received event to the analytics promise, and the reaction
    it attaches there is the only one that triggers the event. *)
Lemma wf_alloc_trigger s a r :
  wf s → pst_of (heap s) receivedPromise ≠ Pending →
  (∀ p c, heap s !! p = Some c → is_received_trigger (origin_of c) = false) →
  wf (set_heap
        (heap s ++
         [Cell (OThen a (Some (HTriggerEvent "access-authorization-received"))
                 r) Pending]) s).
Proof.
  intros Hwf Hset Hnone.
  assert (∀ p c, (heap s ++
            [Cell (OThen a
                     (Some (HTriggerEvent "access-authorization-received")) r)
               Pending]) !! p = Some c →
            is_received_trigger (origin_of c) = true →
            p = length (heap s)) as Hnew.
  { intros p c Hp Htr. apply lookup_app_Some in Hp as [Hp | [Hle Hp]].
    - by rewrite (Hnone _ _ Hp) in Htr.
    - apply list_lookup_singleton_Some in Hp as [Hp _]. lia. }
  apply wf_set_heap_gen; [done | | | | | | | | | | |].
  - apply evolves_advances, evolves_alloc.
  - intros p c' Hp. apply lookup_app_Some in Hp as [Hp | [_ Hp]]; [by left |].
    right. by apply list_lookup_singleton_Some in Hp as [_ <-].
  - intros p src r0 st' Hn Hp.
    apply lookup_app_Some in Hp as [Hp | [_ Hp]]; [congruence |].
    by apply list_lookup_singleton_Some in Hp as [_ ?].
  - intros p src r0 st' Hn Hp.
    apply lookup_app_Some in Hp as [Hp | [_ Hp]]; [congruence |].
    by apply list_lookup_singleton_Some in Hp as [_ ?].
  - intros p src r0 st' Hn Hp.
    apply lookup_app_Some in Hp as [Hp | [_ Hp]]; [congruence |].
    by apply list_lookup_singleton_Some in Hp as [_ ?].
  - intros st' Hf. exists st'. split; [by apply lookup_app_l_Some |].
    destruct (wf_first s Hwf) as (st2 & Hst2 & Hor). by simplify_eq.
  - intros p c Hp Htr Hpend. by apply (wf_received_none s Hwf).
  - intros Hn. by specialize (Hn _ _ (list_lookup_middle (heap s) [] _ _ eq_refl)).
  - intros p q c c' Hp Hq Htr Htr'.
    by rewrite (Hnew _ _ Hp Htr), (Hnew _ _ Hq Htr').
  - intros Hpend. destruct Hset. revert Hpend. unfold pst_of.
    destruct (heap s !! receivedPromise) as [c |] eqn:Hc; [| done].
    by rewrite (lookup_app_l_Some _ _ _ _ Hc).
  - intros p c w l st Hp Ho Hp'.
    rewrite (lookup_app_l_Some _ _ _ _ Hp) in Hp'. injection Hp' as ->.
    done.
Qed.

Lemma received_wf s u r v :
  wf s →
  heap s !! receivedPromise =
    Some (Cell (OThen u (Some HAuthorizationReceived) r) Pending) →
  wf (conclude receivedPromise (OThen u (Some HAuthorizationReceived) r)
        (run_fulfilled HAuthorizationReceived v s)).
Proof.
  intros Hwf Hp.
  set (c' := Cell (OThen u (Some HAuthorizationReceived) r) (Fulfilled VUndef)).
  set (t := Cell (OThen analyticsPromise_
                    (Some (HTriggerEvent "access-authorization-received"))
                    None) Pending).
  assert (conclude receivedPromise (OThen u (Some HAuthorizationReceived) r)
            (run_fulfilled HAuthorizationReceived v s) =
          set_heap (heap (set_cell receivedPromise c' s) ++ [t])
            (set_cell receivedPromise c' s)) as ->.
  { simpl. unfold bind, set_cell, set_heap. simpl. f_equal.
    rewrite insert_app_l; [done |]. by eapply lookup_lt_Some. }
  assert (wf (set_cell receivedPromise c' s)) as Hwf1.
  { eapply wf_set_cell; [done | done | done | done | | | done].
    - right. split; [done | by left].
    - unfold cell_ok. simpl. by intros [? _]. }
  assert (heap (set_cell receivedPromise c' s) !! receivedPromise = Some c')
    as Hc'.
  { simpl. apply list_lookup_insert_eq. by eapply lookup_lt_Some. }
  apply wf_alloc_trigger; [done | by rewrite (pst_of_lookup _ _ _ Hc') |].
  intros p c Hq. destruct (decide (p = receivedPromise)) as [-> | Hne].
  - rewrite Hc' in Hq. by injection Hq as <-.
  - simpl in Hq. rewrite list_lookup_insert_ne in Hq; [| done].
    eapply (wf_trigger_after s Hwf); [| done].
    by rewrite (pst_of_lookup _ _ _ Hp).
Qed.

Lemma trigger_wf s p a r v :
  wf s →
  heap s !! p =
    Some (Cell (OThen a (Some (HTriggerEvent "access-authorization-received"))
                  r) Pending) →
  wf (conclude p
        (OThen a (Some (HTriggerEvent "access-authorization-received")) r)
        (run_fulfilled (HTriggerEvent "access-authorization-received") v s)).
Proof.
  intros Hwf Hp.
  set (o := OThen a (Some (HTriggerEvent "access-authorization-received")) r).
  set (c' := Cell o (Fulfilled VUndef)).
  change (wf (add_log (Analytics "access-authorization-received")
                (set_cell p c' s))).
  assert (wf (set_cell p c' s)) as Hwf1.
  { eapply wf_set_cell; [done | done | done | done | | | done].
    - right. split; [done | by left].
    - unfold cell_ok. simpl. by intros [? _]. }
  assert (received_count s = 0%nat) as Hzero
    by (by eapply (wf_received_pending s Hwf p)).
  assert (heap (set_cell p c' s) !! p = Some c') as Hc'.
  { simpl. apply list_lookup_insert_eq. by eapply lookup_lt_Some. }
  pose proof (wf_trigger_once _ Hwf1) as Honce.
  destruct Hwf1 as [? ? ? ? ? ? ? ? _ _ _ ? ? ? ?]. split; try done.
  - rewrite received_count_add_log. simpl.
    change (received_count (set_cell p c' s)) with (received_count s).
    by rewrite Hzero.
  - intros q c Hq Htr Hpend. exfalso.
    pose proof (Honce q p c c' Hq Hc' Htr eq_refl) as ->.
    simpl in Hq, Hc'. rewrite Hc' in Hq. by injection Hq as <-.
  - intros Hn. by specialize (Hn _ _ Hc').
Qed.

Lemma micro_wf p s s' : wf s → micro p s = Some s' → wf s'.
Proof.
  intros Hwf. unfold micro.
  destruct (heap s !! p) as [[o []]|] eqn:Hp; try done.
  destruct o as [x | src f r | q | ps]; [done | | |].
  - destruct (pst_of (heap s) src) as [| v | e] eqn:Hsrc; [done | |].
    + destruct f as [h |]; intros [= <-].
      * assert (h = HAuthorizationReceived ∨
                h = HTriggerEvent "access-authorization-received" ∨
                (h ≠ HAuthorizationReceived ∧
                 h ≠ HTriggerEvent "access-authorization-received"))
          as [-> | [-> | [Hh Ht]]].
        { destruct h as [| t | | | | | | | | | | | | |]; auto.
          destruct (String.eqb_spec t "access-authorization-received")
            as [-> | Hne]; [auto |].
          do 2 right. split; congruence. }
        { pose proof (wf_received_cell s Hwf _ _ _ _ Hp) as ->.
          by apply received_wf. }
        { by apply trigger_wf. }
        destruct (keeps_run_fulfilled h v Hh Ht s Hwf) as (Hwf1 & Hev & _ & _).
        apply (conclude_wf p src (Some h) r s);
          [done | done | done | done | | | |].
        -- by eexists.
        -- intros v' Hv' [[= ->] _]. by rewrite run_fulfilled_HViewed in Hv'.
        -- intros e _ [? _]. done.
        -- intros q Hq [= ->] _. rewrite run_fulfilled_HViewed in Hq |- *.
           simpl in *. injection Hq as <-. apply (wf_last s Hwf).
      * eapply wf_set_cell; [done | done | done | done | | | done].
        -- right. split; [done | by left].
        -- unfold cell_ok. simpl. by intros [? _].
    + destruct r as [h |]; intros [= <-].
      * destruct (keeps_run_rejected h p e s Hwf) as (Hwf1 & Hev & _ & _).
        apply (conclude_wf p src f (Some h) s);
          [done | done | done | done | | | |].
        -- intros q Hq. by apply run_rejected_no_promise in Hq.
        -- intros v _ [_ ?]. done.
        -- intros e' He' [_ [= ->]].
           by rewrite run_rejected_HAuthFailed in He'.
        -- intros q Hq. by apply run_rejected_no_promise in Hq.
      * eapply wf_set_cell; [done | done | done | done | | | done].
        -- right. split; [done | by left].
        -- unfold cell_ok. simpl. by intros [_ ?].
  - destruct (pst_of (heap s) q) as [| v | e] eqn:Hq; [done | |];
      intros [= <-];
      (eapply wf_set_cell; [done | done | done | done | | | done];
       [right; split; [done | by left] | by unfold cell_ok]).
  - destruct (first_rejection (heap s) ps) as [e |] eqn:Hrej.
    + intros [= <-]. eapply wf_set_cell; [done | done | done | done | | | done].
      * right. split; [done | by left].
      * unfold cell_ok. simpl. by apply first_rejection_Some.
    + destruct (all_values (heap s) ps) as [vs |] eqn:Hvs; [| done].
      intros [= <-]. eapply wf_set_cell; [done | done | done | done | | | done].
      * right. split; [done | by left].
      * unfold cell_ok. simpl. by eapply all_values_Some.
Qed.

Lemma step_wf l s s' : wf s → step l s = Some s' → wf s'.
Proof.
  intros Hwf. destruct l; [by apply micro_wf | ..].
  all: unfold step; destruct (quiescent s); [| done]; by apply task_wf.
Qed.

Lemma steps_wf ls s s' : wf s → steps ls s = Some s' → wf s'.
Proof.
  revert s. induction ls as [| l ls IH]; intros s Hwf; simpl.
  - by intros [= <-].
  - destruct (step l s) as [s1 |] eqn:Hstep; [| done].
    apply IH. by eapply step_wf.
Qed.

Lemma constructed_wf t v r : wf (constructed t v r).
Proof.
  split; simpl.
  - intros [| [| [| p]]] c; simpl; [| | | done]; by intros [= <-].
  - exists Pending. by split; [| left].
  - intros e He. by apply elem_of_nil in He.
  - intros e He. by apply elem_of_nil in He.
  - by left.
  - intros [| [| [| p]]] src r0 st; simpl; done.
  - intros [| [| [| p]]] src r0 st; simpl; done.
  - intros [| [| [| p]]] src r0 st; simpl; done.
  - unfold received_count. simpl. lia.
  - done.
  - done.
  - intros [| [| [| p]]] q c c'; simpl; try done; by intros [= <-].
  - intros _ [| [| [| p]]] c; simpl; [| | | done]; by intros [= <-].
  - intros e He. by apply elem_of_nil in He.
  - intros e He. by apply elem_of_nil in He.
Qed.

Lemma started_wf t v r : wf (started t v r).
Proof.
  unfold started. apply kept_call; [| apply constructed_wf].
  unfold startInternal_. keeps_go.
Qed.

Lemma reachable_wf s : reachable s → wf s.
Proof.
  intros (t & v & r & ls & Hs). eapply steps_wf; [| done]. apply started_wf.
Qed.

(** ** Every step advances the heap: settled promises stay as they are *)

Global Instance advances_trans : Transitive advances.
Proof.
  intros h1 h2 h3 H12 H23 p c Hp.
  destruct (H12 p c Hp) as (c2 & Hc2 & Ha).
  destruct (H23 p c2 Hc2) as (c3 & Hc3 & Hb).
  exists c3. split; [done |].
  destruct Ha as [-> | [Hpend Ha]]; [done |].
  destruct Hb as [-> | [Hpend2 Hb]]; [by right |].
  right. split; [done |].
  destruct Ha as [Ha | (src & f & r & q & Ho & Ho2)].
  - rewrite <- Ha. done.
  - destruct Hb as [Hb | (src' & f' & r' & q' & Ho' & _)].
    + right. exists src, f, r, q. by rewrite Hb.
    + congruence.
Qed.

Lemma task_evolves l s s' :
  wf s → task l s = Some s' → evolves (heap s) (heap s').
Proof. intros Hwf Ht. by destruct (task_kept l s s' Hwf Ht) as (_ & ? & _). Qed.

Lemma conclude_advances p o out h0 c :
  advances h0 (heap (snd out)) →
  heap (snd out) !! p = Some c → pst c = Pending → origin_of c = o →
  (∀ q, fst out = Ok (RetPromise q) → ∃ src f r, o = OThen src (Some f) r) →
  advances h0 (heap (conclude p o out)).
Proof.
  intros Hadv Hp Hpend Ho Hprom. etrans; [done |].
  destruct out as [[[v | q] | e] s1]; simpl in *.
  - eapply advances_insert; [done |]. right. split; [done | by left].
  - eapply advances_insert; [done |]. right. split; [done |]. right.
    destruct (Hprom q eq_refl) as (src & f & r & ->).
    by exists src, f, r, q.
  - eapply advances_insert; [done |]. right. split; [done | by left].
Qed.

Lemma run_fulfilled_evolves h v s :
  wf s → evolves (heap s) (heap (snd (run_fulfilled h v s))).
Proof.
  intros Hwf.
  assert (h = HAuthorizationReceived ∨
          h = HTriggerEvent "access-authorization-received" ∨
          (h ≠ HAuthorizationReceived ∧
           h ≠ HTriggerEvent "access-authorization-received"))
    as [-> | [-> | [Hh Ht]]].
  { destruct h as [| t | | | | | | | | | | | | |]; auto.
    destruct (String.eqb_spec t "access-authorization-received")
      as [-> | Hne]; [auto |].
    do 2 right. split; congruence. }
  - apply evolves_alloc.
  - reflexivity.
  - by destruct (keeps_run_fulfilled h v Hh Ht s Hwf) as (_ & ? & _).
Qed.

Lemma run_fulfilled_page_evolves h v s :
  wf s → page_evolves (host s) (host (snd (run_fulfilled h v s))).
Proof.
  intros Hwf.
  assert (h = HAuthorizationReceived ∨
          h = HTriggerEvent "access-authorization-received" ∨
          (h ≠ HAuthorizationReceived ∧
           h ≠ HTriggerEvent "access-authorization-received"))
    as [-> | [-> | [Hh Ht]]].
  { destruct h as [| t | | | | | | | | | | | | |]; auto.
    destruct (String.eqb_spec t "access-authorization-received")
      as [-> | Hne]; [auto |].
    do 2 right. split; congruence. }
  - reflexivity.
  - reflexivity.
  - by destruct (keeps_run_fulfilled h v Hh Ht s Hwf) as (_ & _ & ? & _).
Qed.

Lemma micro_advances p s s' :
  wf s → micro p s = Some s' → advances (heap s) (heap s').
Proof.
  intros Hwf. unfold micro.
  destruct (heap s !! p) as [[o []]|] eqn:Hp; try done.
  destruct o as [x | src f r | q | ps]; [done | | |].
  - destruct (pst_of (heap s) src) as [| v | e] eqn:Hsrc; [done | |].
    + destruct f as [h |]; intros [= <-].
      * pose proof (run_fulfilled_evolves h v s Hwf) as Hev.
        apply (conclude_advances _ _ _ _ (Cell (OThen src (Some h) r) Pending));
          [by apply evolves_advances | | done | done |].
        -- by eapply evolves_keep.
        -- intros q _. by exists src, h, r.
      * eapply advances_insert; [done |]. right. split; [done | by left].
    + destruct r as [h |]; intros [= <-].
      * destruct (keeps_run_rejected h p e s Hwf) as (Hwf1 & Hev & _ & _).
        apply (conclude_advances _ _ _ _ (Cell (OThen src f (Some h)) Pending));
          [by apply evolves_advances | | done | done |].
        -- by eapply evolves_keep.
        -- intros q Hq. by apply run_rejected_no_promise in Hq.
      * eapply advances_insert; [done |]. right. split; [done | by left].
  - destruct (pst_of (heap s) q) as [| v | e] eqn:Hq; [done | |];
      intros [= <-];
      (eapply advances_insert; [done |]; right; split; [done | by left]).
  - destruct (first_rejection (heap s) ps) as [e |] eqn:Hrej.
    + intros [= <-]. eapply advances_insert; [done |].
      right. split; [done | by left].
    + destruct (all_values (heap s) ps) as [vs |] eqn:Hvs; [| done].
      intros [= <-]. eapply advances_insert; [done |].
      right. split; [done | by left].
Qed.

Lemma step_advances l s s' :
  wf s → step l s = Some s' → advances (heap s) (heap s').
Proof.
  intros Hwf. destruct l; [by apply micro_advances | ..].
  all: unfold step; destruct (quiescent s); [| done]; intros Ht;
    by apply evolves_advances, (task_evolves _ _ _ Hwf Ht).
Qed.

Lemma steps_advances ls s s' :
  wf s → steps ls s = Some s' → advances (heap s) (heap s').
Proof.
  revert s. induction ls as [| l ls IH]; intros s Hwf; simpl.
  - intros [= <-]. apply evolves_advances. reflexivity.
  - destruct (step l s) as [s1 |] eqn:Hstep; [| done]. intros Hs.
    etrans; [by eapply step_advances |]. apply IH; [| done].
    by eapply step_wf.
Qed.

(** ** Runs are executions *)

Lemma steps_app ls1 ls2 s s1 s2 :
  steps ls1 s = Some s1 → steps ls2 s1 = Some s2 →
  steps (ls1 ++ ls2) s = Some s2.
Proof.
  revert s. induction ls1 as [| l ls1 IH]; intros s; simpl.
  - by intros [= <-].
  - destruct (step l s) as [s' |]; [| done]. apply IH.
Qed.

Lemma drain_steps fuel s : ∃ ls, steps ls s = Some (drain fuel s).
Proof.
  revert s. induction fuel as [| fuel IH]; intros s; simpl.
  - by exists [].
  - destruct (next_micro s) as [p |]; [| by exists []].
    destruct (micro p s) as [s' |] eqn:Hmicro; [| by exists []].
    destruct (IH s') as (ls & Hls). exists (Micro p :: ls). simpl.
    by rewrite Hmicro.
Qed.

Lemma run_steps fuel ls s s' :
  run fuel ls s = Some s' → ∃ ls', steps ls' s = Some s'.
Proof.
  revert s. induction ls as [| l ls IH]; intros s; simpl.
  - intros [= <-]. by exists [].
  - destruct (step l s) as [s1 |] eqn:Hstep; [| done]. intros Hrun.
    destruct (IH _ Hrun) as (ls2 & Hls2).
    destruct (drain_steps fuel s1) as (ls1 & Hls1).
    exists (l :: ls1 ++ ls2). simpl. rewrite Hstep.
    by eapply steps_app.
Qed.

Lemma reachable_steps s ls s' :
  reachable s → steps ls s = Some s' → reachable s'.
Proof.
  intros (t & v & r & ls0 & Hs) Hsteps. exists t, v, r, (ls0 ++ ls).
  by eapply steps_app.
Qed.

Lemma run_reachable t v r fuel ls s :
  run fuel ls (started t v r) = Some s → reachable s.
Proof.
  intros Hrun. destruct (run_steps _ _ _ _ Hrun) as (ls' & Hls).
  by exists t, v, r, ls'.
Qed.

(** ** The first and the last authorization promise *)

(** A run that is not skipped leaves [lastAuthorizationPromise_] as the join
    of the first promise and the promise it returns. *)
Lemma runAuthorization_join d s promise s' :
  skips_authorization = false →
  runAuthorization_ d s = (Ok promise, s') →
  heap s' !! lastAuthorizationPromise_ (this s') =
    Some (Cell (OAll [firstAuthorizationPromise_; promise]) Pending) ∧
  ∃ applied,
    heap s' !! promise =
      Some (Cell (OThen applied None (Some HAuthFailed)) Pending).
Proof.
  intros Hskip. unfold runAuthorization_. rewrite Hskip. intros H.
  apply bind_Ok in H as (_ & s1 & _ & H).
  apply bind_Ok in H as (rp & s2 & _ & H).
  injection H as <- <-. simpl. split.
  - by rewrite list_lookup_middle.
  - exists (length (heap s2)). apply lookup_app_l_Some.
    by rewrite list_lookup_middle; [| rewrite length_app; simpl; lia].
Qed.

(** With an authorization URL configured a run returns its promise: no
    assertion of the run can fail. *)
Lemma runAuthorization_returns d s url :
  authorization config_ = Some url → truthy (Some url) = true →
  ∃ promise s', runAuthorization_ d s = (Ok promise, s').
Proof.
  intros Hurl Htr. unfold runAuthorization_.
  destruct skips_authorization.
  - unfold firstAuthorizationResolver_, resolver, bind, get. simpl.
    by eexists _, _.
  - rewrite Hurl, Htr. unfold buildUrl_, getReaderId_, bind, get. simpl.
    destruct (readerIdPromise_ (this s)); simpl; by eexists _, _.
Qed.

Lemma bind_evolves {A B} (m : M A) (k : A → M B) s :
  keeps m any → (∀ a, keeps (k a) any) → wf s →
  evolves (heap (snd (m s))) (heap (snd (bind m k s))).
Proof.
  intros Hm Hk Hwf. unfold bind. destruct (Hm s Hwf) as (Hwf1 & _).
  destruct (m s) as [[a | e] s1]; simpl in *; [| reflexivity].
  by destruct (Hk a s1 Hwf1) as (_ & ? & _).
Qed.

Lemma first_resolved s :
  wf s →
  pst_of (heap (snd (firstAuthorizationResolver_ s)))
    firstAuthorizationPromise_ = Fulfilled VUndef.
Proof.
  intros Hwf. destruct (wf_first s Hwf) as (st & Hst & Hor).
  simpl. unfold settle_deferred. rewrite Hst.
  destruct Hor as [-> | ->].
  - simpl.
    rewrite (pst_of_lookup _ _ (Cell (ODeferred XResolver) (Fulfilled VUndef)));
      [done |].
    apply list_lookup_insert_eq. by eapply lookup_lt_Some.
  - by rewrite (pst_of_lookup _ _ _ Hst).
Qed.

Lemma bind_first_fulfilled {A B} (m : M A) (k : A → M B) s :
  keeps m any → (∀ a, keeps (k a) any) → wf s →
  pst_of (heap (snd (m s))) firstAuthorizationPromise_ = Fulfilled VUndef →
  pst_of (heap (snd (bind m k s))) firstAuthorizationPromise_
    = Fulfilled VUndef.
Proof.
  intros Hm Hk Hwf Hf.
  rewrite (advances_pst_of (heap (snd (m s)))); [done | | by rewrite Hf].
  by apply evolves_advances, bind_evolves.
Qed.

Lemma setAuthResponse_resolves_first response s :
  wf s →
  pst_of (heap (snd (setAuthResponse_ response s)))
    firstAuthorizationPromise_ = Fulfilled VUndef.
Proof.
  intros Hwf. unfold setAuthResponse_, bind. simpl.
  apply (first_resolved (set_this _ s)). by apply wf_set_this.
Qed.

(** C1. In every state the service can reach, whatever the interleaving of
    authorization runs, answers, signals and microtasks, the last
    authorization promise is the first one or the join [Promise.all] of the
    first one with the promise of a run; it is settled only if the first
    authorization promise is fulfilled, and then the promise of its own run
    is fulfilled too; a run that is not skipped installs the join of the
    first promise with its own promise. The join does not wait for the runs
    before its own: the first authorization promise is resolved by the
    reaction of l.407 of whichever run gets a response. *)
Theorem lastAuthorization_never_before_first s :
  reachable s →
  last_ok (heap s) (lastAuthorizationPromise_ (this s)) ∧
  (pst_of (heap s) (lastAuthorizationPromise_ (this s)) ≠ Pending →
   pst_of (heap s) firstAuthorizationPromise_ = Fulfilled VUndef) ∧
  (∀ promise st,
     heap s !! lastAuthorizationPromise_ (this s) =
       Some (Cell (OAll [firstAuthorizationPromise_; promise]) st) →
     st ≠ Pending →
     is_fulfilled st = true ∧
     is_fulfilled (pst_of (heap s) promise) = true) ∧
  (∀ d promise s',
     skips_authorization = false →
     runAuthorization_ d s = (Ok promise, s') →
     heap s' !! lastAuthorizationPromise_ (this s') =
       Some (Cell (OAll [firstAuthorizationPromise_; promise]) Pending)) ∧
  (∀ response,
     pst_of (heap (snd (run_fulfilled HAuthApply response s)))
       firstAuthorizationPromise_ = Fulfilled VUndef).
Proof.
  intros Hwf%reachable_wf.
  destruct (wf_first s Hwf) as (st0 & Hfirst & Hst0).
  assert (∀ st, pst_of (heap s) firstAuthorizationPromise_ = st →
                st ≠ Pending → st = Fulfilled VUndef) as Hf.
  { intros st <- Hne. rewrite (pst_of_lookup _ _ _ Hfirst) in *. simpl in *.
    by destruct Hst0. }
  assert (∀ promise st,
            heap s !! lastAuthorizationPromise_ (this s) =
              Some (Cell (OAll [firstAuthorizationPromise_; promise]) st) →
            st ≠ Pending →
            is_fulfilled st = true ∧
            is_fulfilled (pst_of (heap s) firstAuthorizationPromise_) = true ∧
            is_fulfilled (pst_of (heap s) promise) = true) as Hjoin.
  { intros promise st Hl Hst.
    pose proof (wf_cells s Hwf _ _ Hl) as Hok. unfold cell_ok in Hok.
    simpl in Hok. destruct st as [| v | e]; [done | |].
    - split; [done |]. split; apply Hok; set_solver.
    - exfalso. destruct Hok as (q & Hq & Hrej).
      apply elem_of_cons in Hq as [-> | Hq].
      + apply Hf in Hrej; done.
      + apply list_elem_of_singleton in Hq as ->.
        destruct (wf_last s Hwf) as [Heq | (pr & src & st1 & st' & Hl' & Hpr)].
        * rewrite Heq, Hfirst in Hl. done.
        * rewrite Hl in Hl'. injection Hl' as <- <-.
          rewrite (pst_of_lookup _ _ _ Hpr) in Hrej. simpl in Hrej. subst st'.
          pose proof (wf_cells s Hwf _ _ Hpr) as Hok. unfold cell_ok in Hok.
          simpl in Hok. by destruct Hok. }
  split_and!.
  - apply (wf_last s Hwf).
  - intros Hsettled.
    destruct (wf_last s Hwf) as [Heq | (pr & src & st & st' & Hl & Hpr)].
    + rewrite Heq in Hsettled. by apply Hf.
    + rewrite (pst_of_lookup _ _ _ Hl) in Hsettled. simpl in Hsettled.
      destruct (Hjoin _ _ Hl Hsettled) as (_ & Hff & _).
      apply Hf; [done |]. intros Hp. by rewrite Hp in Hff.
  - intros promise st Hl Hst. by destruct (Hjoin _ _ Hl Hst) as (? & _ & ?).
  - intros d promise s' Hskip Hrun.
    by destruct (runAuthorization_join _ _ _ _ Hskip Hrun).
  - intros response. unfold run_fulfilled.
    apply bind_first_fulfilled; [| | done |].
    + apply keeps_setAuthResponse_.
    + intros _. keeps_go.
    + by apply setAuthResponse_resolves_first.
Qed.

(** C2. Once the first authorization promise is fulfilled, calling its
    resolver again changes nothing, neither do the paths of a run that call
    it (the skip of l.370 and [setAuthResponse_]), and no step of the service
    changes the settlement: it is fulfilled once, with the same value, in
    every later state, and the reaction the constructor attached to it
    (l.175) triggers its analytics event at most once. *)
Theorem firstAuthorization_resolves_once s v :
  reachable s →
  pst_of (heap s) firstAuthorizationPromise_ = Fulfilled v →
  firstAuthorizationResolver_ s = (Ok tt, s) ∧
  (∀ response,
     heap (snd (setAuthResponse_ response s)) = heap s) ∧
  (∀ ls s', steps ls s = Some s' →
     pst_of (heap s') whenFirstAuthorized = Fulfilled v ∧
     (received_count s' ≤ 1)%nat).
Proof.
  intros Hwf%reachable_wf Hv.
  assert (∀ s0 : state, pst_of (heap s0) firstAuthorizationPromise_ = Fulfilled v →
            settle_deferred firstAuthorizationPromise_ (Fulfilled VUndef) s0 = s0)
    as Hnoop.
  { intros s0. unfold pst_of, settle_deferred.
    destruct (heap s0 !! firstAuthorizationPromise_) as [[o st]|]; [| done].
    simpl. intros ->. by destruct o. }
  split_and!.
  - unfold firstAuthorizationResolver_, resolver, modify. by rewrite Hnoop.
  - intros response. unfold setAuthResponse_, bind. simpl. by rewrite Hnoop.
  - intros ls s' Hs. unfold whenFirstAuthorized. split.
    + rewrite (advances_pst_of (heap s) (heap s')); [done | | by rewrite Hv].
      by eapply steps_advances.
    + eapply wf_received_log, steps_wf; done.
Qed.


(** ** The authorization data and the login flow *)

(** C10. [getAuthdataField(field)] chains its reaction on the last
    authorization promise, so the reaction cannot run while that promise is
    pending; the reaction yields [null] when no response is stored, and
    also whenever the value of the field is falsy ([undefined], [false], [0],
    [""] or [null]); any other value is returned as it is. A field set to
    [false] gives the same answer as a missing one. *)
Theorem getAuthdataField_null_when_falsy field s :
  (∃ s', getAuthdataField field s = (Ok (length (heap s)), s') ∧
         heap s' = (heap s ++
           [Cell (OThen (lastAuthorizationPromise_ (this s))
                    (Some (HGetAuthdataField field)) None) Pending])%list) ∧
  (∀ s0 p last r,
     heap s0 !! p =
       Some (Cell (OThen last (Some (HGetAuthdataField field)) r) Pending) →
     pst_of (heap s0) last = Pending → micro p s0 = None) ∧
  (∀ u, ∃ j,
     run_fulfilled (HGetAuthdataField field) u s = (Ok (RetVal (VJson j)), s) ∧
     (j = JNull ↔
        truthy (authResponse_ (this s)) = false ∨
        ∃ response, authResponse_ (this s) = Some response ∧
                    truthy (getValueForExpr response field) = false) ∧
     (j ≠ JNull →
        ∃ response, authResponse_ (this s) = Some response ∧
                    getValueForExpr response field = Some j)) ∧
  (∀ u s1 s2 r1 r2,
     authResponse_ (this s1) = Some r1 → authResponse_ (this s2) = Some r2 →
     getValueForExpr r1 field = Some (JBool false) →
     getValueForExpr r2 field = None →
     fst (run_fulfilled (HGetAuthdataField field) u s1) =
     fst (run_fulfilled (HGetAuthdataField field) u s2)).
Proof.
  split_and!.
  - eexists. split; reflexivity.
  - intros s0 p last r Hp Hlast. unfold micro. by rewrite Hp, Hlast.
  - intros u. simpl. unfold bind, get. simpl.
    destruct (authResponse_ (this s)) as [response |] eqn:Hresp.
    + destruct (truthy (Some response)) eqn:Htr.
      * destruct (getValueForExpr response field) as [x |] eqn:Hx.
        -- destruct (truthy (Some x)) eqn:Htx.
           ++ exists x. simpl. split_and!; [done | | by eexists].
              split.
              ** intros ->. done.
              ** intros [? | (r' & [= <-] & Hf)]; [done |].
                 rewrite Hx in Hf. congruence.
           ++ exists JNull. simpl. split_and!; [done | | done].
              split; [| done]. intros _. right. exists response.
              by rewrite Hx.
        -- exists JNull. simpl. split_and!; [done | | done].
           split; [| done]. intros _. right. exists response. by rewrite Hx.
      * exists JNull. simpl. split_and!; [done | | done].
        split; [| done]. intros _. by left.
    + exists JNull. simpl. split_and!; [done | | done].
      split; [| done]. intros _. by left.
  - intros u s1 s2 r1 r2 H1 H2 Hf Hm. simpl. unfold bind, get. simpl.
    rewrite H1, H2, Hf, Hm.
    by destruct (truthy (Some r1)), (truthy (Some r2)).
Qed.

Lemma length_triggers events : length (triggers events) = length events.
Proof. unfold triggers. by rewrite length_map. Qed.

Lemma loginAnalyticsEvent_triggers ty ev s :
  loginAnalyticsEvent_ ty ev s =
    (Ok tt, set_heap (heap s ++ triggers (login_events ty ev)) s).
Proof.
  unfold loginAnalyticsEvent_, analyticsEvent_, login_events, bind. simpl.
  destruct (negb (String.eqb ty "")); simpl; [| done].
  unfold set_heap. simpl. by rewrite <- app_assoc.
Qed.

(** A login that starts an attempt: what it leaves behind. *)
Lemma login_starts ty s :
  loginPromise_ (this s) = None ∨
  (1000 ≤ now (host s) - loginStartTime_ (this s))%Z →
  value_truthy (obj_get (loginMap config_) ty) = true →
  value_truthy (loginUrl_get (loginUrlMap_ (this s)) ty) = true →
  ∃ s', login ty s =
          (Ok (S (S (length (heap s) + length (login_events ty "started")))),
           s') ∧
        heap s' = (heap s ++ triggers (login_events ty "started") ++
          [Cell (ODeferred (XDialog (loginUrl_get (loginUrlMap_ (this s)) ty)))
             Pending;
           Cell (OThen (length (heap s) + length (login_events ty "started"))
                   (Some (HLoginCompleted ty)) None) Pending;
           Cell (OThen (S (length (heap s) +
                           length (login_events ty "started")))
                   None (Some (HLoginFailed ty))) Pending])%list ∧
        loginPromise_ (this s') =
          Some (S (S (length (heap s) + length (login_events ty "started")))) ∧
        loginStartTime_ (this s') = now (host s) ∧
        loginUrlMap_ (this s') = loginUrlMap_ (this s) ∧
        host s' = host s ∧
        log s' =
          (log s ++ [OpenLoginDialog (loginUrl_get (loginUrlMap_ (this s)) ty)])
            %list.
Proof.
  intros Hexp Hcfg Hready.
  unfold login, bind, get. simpl.
  assert (match loginPromise_ (this s) with
          | Some p => if (now (host s) - loginStartTime_ (this s) <? 1000)%Z
                      then Some p else None
          | None => None
          end = None) as ->.
  { destruct (loginPromise_ (this s)); [| done].
    destruct Hexp as [? | Hge]; [done |].
    by apply Z.ltb_ge in Hge as ->. }
  rewrite Hcfg, Hready. simpl. rewrite loginAnalyticsEvent_triggers. simpl.
  rewrite !length_app, length_triggers. simpl. rewrite !Nat.add_1_r.
  eexists. split; [reflexivity |]. simpl.
  split_and!; try done. by rewrite <- !app_assoc.
Qed.



(** The three promises of a login attempt, and where they are. *)
Lemma lookup_app_3 (h t : list cell) a b c :
  (h ++ t ++ [a; b; c]) !! (length h + length t)%nat = Some a ∧
  (h ++ t ++ [a; b; c]) !! S (length h + length t) = Some b ∧
  (h ++ t ++ [a; b; c]) !! S (S (length h + length t)) = Some c.
Proof.
  rewrite app_assoc.
  split_and!; rewrite lookup_app_r by (rewrite length_app; lia);
    rewrite length_app.
  - by rewrite Nat.sub_diag.
  - by replace (S (length h + length t) - (length h + length t))%nat
      with 1%nat by lia.
  - by replace (S (S (length h + length t)) - (length h + length t))%nat
      with 2%nat by lia.
Qed.

(** A login that starts an attempt: the dialog is opened with the URL read
    from [loginUrlMap_], and the two reactions of l.772 and l.793 wait for
    it. *)
Lemma login_attempt ty s :
  loginPromise_ (this s) = None ∨
  (1000 ≤ now (host s) - loginStartTime_ (this s))%Z →
  value_truthy (obj_get (loginMap config_) ty) = true →
  value_truthy (loginUrl_get (loginUrlMap_ (this s)) ty) = true →
  ∃ d s1,
    login ty s = (Ok (S (S d)), s1) ∧
    (length (heap s) ≤ d)%nat ∧ length (heap s1) = S (S (S d)) ∧
    heap s1 !! d =
      Some (Cell (ODeferred (XDialog (loginUrl_get (loginUrlMap_ (this s)) ty)))
              Pending) ∧
    heap s1 !! S d =
      Some (Cell (OThen d (Some (HLoginCompleted ty)) None) Pending) ∧
    heap s1 !! S (S d) =
      Some (Cell (OThen (S d) None (Some (HLoginFailed ty))) Pending) ∧
    loginPromise_ (this s1) = Some (S (S d)) ∧
    loginStartTime_ (this s1) = now (host s) ∧
    loginUrlMap_ (this s1) = loginUrlMap_ (this s) ∧
    host s1 = host s ∧
    log s1 =
      (log s ++ [OpenLoginDialog (loginUrl_get (loginUrlMap_ (this s)) ty)])
        %list.
Proof.
  intros Hfree Hcfg Hready.
  destruct (login_starts ty s Hfree Hcfg Hready)
    as (s1 & Hlogin & Hheap & Hlp & Hst & Hmap & Hhost & Hlog).
  destruct (lookup_app_3 (heap s) (triggers (login_events ty "started"))
              (Cell (ODeferred
                       (XDialog (loginUrl_get (loginUrlMap_ (this s)) ty)))
                 Pending)
              (Cell (OThen (length (heap s) +
                            length (login_events ty "started"))
                       (Some (HLoginCompleted ty)) None) Pending)
              (Cell (OThen (S (length (heap s) +
                               length (login_events ty "started")))
                       None (Some (HLoginFailed ty))) Pending))
    as (Hd & Hc & Hf).
  rewrite length_triggers in Hd, Hc, Hf. rewrite <- Hheap in Hd, Hc, Hf.
  exists (length (heap s) + length (login_events ty "started"))%nat, s1.
  split_and!; try done; [lia |].
  rewrite Hheap, !length_app, length_triggers. simpl. lia.
Qed.

(** The dialog of an attempt returns or fails: its promise settles, nothing
    else changes. *)
Lemma dialog_answered d url r s :
  heap s !! d = Some (Cell (ODeferred (XDialog url)) Pending) →
  (∀ v, r = Ok v → ∃ payload, v = VStr payload) →
  ∃ s2, task (Answered d r) s = Some s2 ∧
        heap s2 = <[d := Cell (ODeferred (XDialog url)) (pst_of_res r)]> (heap s) ∧
        pst_of (heap s2) d = pst_of_res r ∧
        this s2 = this s ∧ host s2 = host s ∧ log s2 = log s.
Proof.
  intros Hd Hr. exists (settle_deferred d (pst_of_res r) s).
  assert (answers (XDialog url) r s = true) as Hans.
  { destruct r as [v | e]; [| done]. by destruct (Hr v eq_refl) as [? ->]. }
  simpl. rewrite Hd, Hans. unfold settle_deferred. rewrite Hd. simpl.
  split_and!; try done.
  rewrite (pst_of_lookup _ _
             (Cell (ODeferred (XDialog url)) (pst_of_res r))); [done |].
  apply list_lookup_insert_eq. by eapply lookup_lt_Some.
Qed.



(** ** Failure of the authorization *)

(** The chain of a run with an authorization URL that is not skipped: URL,
    fetch, fallback, apply, failure, join. *)
Lemma runAuthorization_chain d s url :
  skips_authorization = false →
  authorization config_ = Some url → truthy (Some url) = true →
  ∃ s1 urlPromise s',
    buildUrl_ url false (snd (toggleTopClass_ "amp-access-loading" true s))
      = (Ok urlPromise, s1) ∧
    runAuthorization_ d s = (Ok (S (S (S (length (heap s1))))), s') ∧
    heap s' = (heap s1 ++
      [Cell (OThen urlPromise (Some HAuthFetch) None) Pending;
       Cell (OThen (length (heap s1)) None (Some (HAuthFallback d))) Pending;
       Cell (OThen (S (length (heap s1))) (Some HAuthApply) None) Pending;
       Cell (OThen (S (S (length (heap s1)))) None (Some HAuthFailed))
         Pending;
       Cell (OAll [firstAuthorizationPromise_; S (S (S (length (heap s1))))])
         Pending])%list.
Proof.
  intros Hskip Hurl Htr.
  unfold runAuthorization_. rewrite Hskip, Hurl, Htr.
  unfold buildUrl_, getReaderId_, bind, get. simpl.
  destruct (readerIdPromise_ (this s)) as [rid |]; simpl.
  + eexists _, _, _. split; [reflexivity |]. simpl.
    rewrite ?length_app. simpl. rewrite ?Nat.add_1_r.
    split; [reflexivity |]. simpl. by rewrite <- !app_assoc.
  + eexists _, _, _. split; [reflexivity |]. simpl.
    rewrite ?length_app. simpl. rewrite ?Nat.add_1_r.
    split; [reflexivity |]. simpl. by rewrite <- !app_assoc.
Qed.

(** C3, as the code has it. A run with an authorization URL chains the
    fallback reaction (l.388), the apply reaction (l.407) and the failure
    reaction (l.418) on its fetch (l.380). When the fetch has failed and there is no
    fallback response, or the fallback is disabled, these three microtasks
    end the run: the error is rethrown, the response is not applied, and the
    failure reaction shows the error state (the class [amp-access-error] is
    set, [amp-access-loading] removed) and fulfils the promise of the run.
    None of them touches the first authorization promise or the stored
    response: the promise is not rejected, and it is not resolved either, it
    stays as it was. A run that gets a response resolves it
    ([setAuthResponse_]), and so does a skipped run. *)
Theorem authorization_failure_shows_error d s p src e :
  reachable s →
  truthy (authorizationFallbackResponse config_) = false ∨ d = true →
  heap s !! p = Some (Cell (OThen src None (Some (HAuthFallback d))) Pending) →
  heap s !! S p = Some (Cell (OThen p (Some HAuthApply) None) Pending) →
  heap s !! S (S p) =
    Some (Cell (OThen (S p) None (Some HAuthFailed)) Pending) →
  pst_of (heap s) src = Rejected e →
  (∀ s0 url, skips_authorization = false →
     authorization config_ = Some url → truthy (Some url) = true →
     ∃ n u s', runAuthorization_ d s0 = (Ok (S (S n)), s') ∧
             heap s' !! Nat.pred n =
               Some (Cell (OThen u (Some HAuthFetch) None) Pending) ∧
             heap s' !! n =
               Some (Cell (OThen (Nat.pred n) None (Some (HAuthFallback d)))
                       Pending) ∧
             heap s' !! S n =
               Some (Cell (OThen n (Some HAuthApply) None) Pending) ∧
             heap s' !! S (S n) =
               Some (Cell (OThen (S n) None (Some HAuthFailed)) Pending)) ∧
  (∃ s1 s2 s3,
     micro p s = Some s1 ∧ micro (S p) s1 = Some s2 ∧
     micro (S (S p)) s2 = Some s3 ∧
     pst_of (heap s1) p = Rejected e ∧
     pst_of (heap s2) (S p) = Rejected e ∧
     pst_of (heap s3) (S (S p)) = Fulfilled VUndef ∧
     ("amp-access-error" ∈ classes (host s3)) ∧
     ("amp-access-loading" ∉ classes (host s3)) ∧
     pst_of (heap s3) firstAuthorizationPromise_ =
       pst_of (heap s) firstAuthorizationPromise_ ∧
     this s3 = this s ∧ log s3 = log s) ∧
  (pst_of (heap s) firstAuthorizationPromise_ = Pending ∨
   pst_of (heap s) firstAuthorizationPromise_ = Fulfilled VUndef) ∧
  (∀ response,
     pst_of (heap (snd (run_fulfilled HAuthApply response s)))
       firstAuthorizationPromise_ = Fulfilled VUndef) ∧
  (∀ d', skips_authorization = true →
     pst_of (heap (snd (runAuthorization_ d' s)))
       firstAuthorizationPromise_ = Fulfilled VUndef).
Proof.
  intros Hwf%reachable_wf Hno Hp Ha Hf Hsrc. split_and!.
  - intros s0 url Hskip Hurl Htr.
    destruct (runAuthorization_chain d s0 url Hskip Hurl Htr)
      as (s1 & urlPromise & s' & _ & Hrun & Hheap).
    exists (S (length (heap s1))), urlPromise, s'. split; [done |].
    rewrite Hheap. simpl.
    split_and!; rewrite lookup_app_r by lia.
    + by rewrite Nat.sub_diag.
    + by replace (S (length (heap s1)) - length (heap s1))%nat
        with 1%nat by lia.
    + by replace (S (S (length (heap s1))) - length (heap s1))%nat
        with 2%nat by lia.
    + by replace (S (S (S (length (heap s1)))) - length (heap s1))%nat
        with 3%nat by lia.
  - assert (p < length (heap s))%nat as Hlt by (by eapply lookup_lt_Some).
    assert (S (S p) < length (heap s))%nat as Hlt2
      by (by eapply lookup_lt_Some).
    destruct (wf_first s Hwf) as (st0 & Hfirst & _).
    assert (firstAuthorizationPromise_ ≠ p ∧
            firstAuthorizationPromise_ ≠ S p ∧
            firstAuthorizationPromise_ ≠ S (S p)) as (Hn0 & Hn1 & Hn2).
    { unfold firstAuthorizationPromise_ in *.
      split_and!; [intros <-; congruence | lia | lia]. }
    set (t := Cell (OThen analyticsPromise_
                      (Some (HTriggerEvent "access-authorization-failed"))
                      None) Pending).
    set (cp := Cell (OThen src None (Some (HAuthFallback d))) (Rejected e)).
    set (ca := Cell (OThen p (Some HAuthApply) None) (Rejected e)).
    set (cf := Cell (OThen (S p) None (Some HAuthFailed)) (Fulfilled VUndef)).
    set (s1 := set_cell p cp (set_heap (heap s ++ [t]) s)).
    set (s2 := set_cell (S p) ca s1).
    set (g3 := with_classes
                 ((classes (host s) ∖ {["amp-access-loading"]})
                    ∪ {["amp-access-error"]}) (host s)).
    set (s3 := set_cell (S (S p)) cf (set_host g3 s2)).
    assert (micro p s = Some s1) as Hm1.
    { unfold micro. rewrite Hp, Hsrc. simpl. unfold analyticsEvent_, bind.
      simpl. destruct (authorizationFallbackResponse config_) as [fb |];
        [| done].
      destruct Hno as [-> | ->]; [done |]. by rewrite andb_false_r. }
    assert (heap s1 = <[p := cp]> (heap s ++ [t])) as Hh1 by done.
    assert (length (heap s1) = S (length (heap s))) as Hl1.
    { rewrite Hh1, length_insert, length_app. simpl. lia. }
    assert (pst_of (heap s1) p = Rejected e) as Hp1.
    { rewrite (pst_of_lookup _ _ cp); [done |]. rewrite Hh1.
      apply list_lookup_insert_eq. rewrite length_app. lia. }
    assert (micro (S p) s1 = Some s2) as Hm2.
    { assert (heap s1 !! S p =
                Some (Cell (OThen p (Some HAuthApply) None) Pending)) as Ha1.
      { rewrite Hh1, list_lookup_insert_ne by lia.
        by apply lookup_app_l_Some. }
      unfold micro. by rewrite Ha1, Hp1. }
    assert (heap s2 = <[S p := ca]> (heap s1)) as Hh2 by done.
    assert (pst_of (heap s2) (S p) = Rejected e) as Hp2.
    { rewrite (pst_of_lookup _ _ ca); [done |]. rewrite Hh2.
      apply list_lookup_insert_eq. lia. }
    assert (micro (S (S p)) s2 = Some s3) as Hm3.
    { assert (heap s2 !! S (S p) =
                Some (Cell (OThen (S p) None (Some HAuthFailed)) Pending))
        as Hf2.
      { rewrite Hh2, Hh1, !list_lookup_insert_ne by lia.
        by apply lookup_app_l_Some. }
      unfold micro. by rewrite Hf2, Hp2. }
    exists s1, s2, s3. split_and!; try done.
    + rewrite (pst_of_lookup _ _ cf); [done |]. simpl.
      apply list_lookup_insert_eq. rewrite !length_insert, length_app. lia.
    + simpl. set_solver.
    + simpl. set_solver.
    + unfold pst_of. simpl.
      rewrite !list_lookup_insert_ne by done.
      by rewrite (lookup_app_l_Some _ _ _ _ Hfirst), Hfirst.
  - destruct (wf_first s Hwf) as (st & Hst & Hor).
    rewrite (pst_of_lookup _ _ _ Hst). simpl. destruct Hor; auto.
  - intros response. unfold run_fulfilled.
    apply bind_first_fulfilled; [| | done |].
    + apply keeps_setAuthResponse_.
    + intros _. keeps_go.
    + by apply setAuthResponse_resolves_first.
  - intros d' Hskip. unfold runAuthorization_. rewrite Hskip.
    apply bind_first_fulfilled; [| | done |].
    + apply keeps_firstAuthorizationResolver_.
    + intros _. keeps_go.
    + by apply first_resolved.
Qed.

(** C8. Unless the run is skipped (l.365: [type=other]
    without a usable fallback), a configured authorization URL makes the run
    chain: URL, fetch, fallback, apply, failure, join. The fetch reaction
    issues the request and arms its 3000ms timer, past which the clock does
    not move while the timer is armed; a timeout or a failed answer rejects
    the fetch; the fallback reaction then substitutes the fallback response
    when there is one and [opt_disableFallback] is false, and rethrows
    otherwise; the rethrown error skips the apply reaction and reaches the
    failure reaction of the run. *)
Theorem authorization_fetch_timeout_fallback d s url :
  skips_authorization = false →
  authorization config_ = Some url → truthy (Some url) = true →
  (∃ s1 urlPromise s',
     buildUrl_ url false (snd (toggleTopClass_ "amp-access-loading" true s))
       = (Ok urlPromise, s1) ∧
     runAuthorization_ d s = (Ok (S (S (S (length (heap s1))))), s') ∧
     heap s' = (heap s1 ++
       [Cell (OThen urlPromise (Some HAuthFetch) None) Pending;
        Cell (OThen (length (heap s1)) None (Some (HAuthFallback d))) Pending;
        Cell (OThen (S (length (heap s1))) (Some HAuthApply) None) Pending;
        Cell (OThen (S (S (length (heap s1)))) None (Some HAuthFailed))
          Pending;
        Cell (OAll [firstAuthorizationPromise_; S (S (S (length (heap s1))))])
          Pending])%list) ∧
  (∀ u s0, ∃ s0',
     run_fulfilled HAuthFetch u s0 = (Ok (RetPromise (length (heap s0))), s0') ∧
     heap s0' = (heap s0 ++ [Cell (ODeferred (XFetch u)) Pending])%list ∧
     timers (host s0') =
       (timers (host s0) ++
        [(nextHandle (host s0),
          Timer (now (host s0) + AUTHORIZATION_TIMEOUT)
                (TFetchTimeout (length (heap s0))))])%list ∧
     log s0' = (log s0 ++ [FetchJson u 3000])%list) ∧
  (∀ s0 t s0' e, task (Tick t) s0 = Some s0' → e ∈ timers (host s0) →
                 (t ≤ due (snd e))%Z) ∧
  (∀ s0 p u,
     heap s0 !! p = Some (Cell (ODeferred (XFetch u)) Pending) →
     pst_of (heap (snd (fire_timer (TFetchTimeout p) s0))) p
       = Rejected TimeoutError ∧
     ∀ e, ∃ s0', task (Answered p (Throw e)) s0 = Some s0' ∧
                 pst_of (heap s0') p = Rejected e) ∧
  (∀ self reason s0,
     fst (run_rejected (HAuthFallback d) self reason s0) =
     match authorizationFallbackResponse config_ with
     | Some fallback =>
         if truthy (Some fallback) && negb d
         then Ok (RetVal (VJson fallback)) else Throw reason
     | None => Throw reason
     end) ∧
  (∀ s0 p src e,
     heap s0 !! p = Some (Cell (OThen src (Some HAuthApply) None) Pending) →
     pst_of (heap s0) src = Rejected e →
     micro p s0 =
       Some (set_cell p (Cell (OThen src (Some HAuthApply) None) (Rejected e))
               s0)) ∧
  (∀ s0 p src e,
     heap s0 !! p = Some (Cell (OThen src None (Some HAuthFailed)) Pending) →
     pst_of (heap s0) src = Rejected e →
     ∃ s0', micro p s0 = Some s0' ∧
            ("amp-access-error" ∈ classes (host s0')) ∧
            pst_of (heap s0') p = Fulfilled VUndef).
Proof.
  intros Hskip Hurl Htr. split_and!.
  - by apply runAuthorization_chain.
  - intros u s0. eexists. split_and!; reflexivity.
  - intros s0 t s0' e. simpl. destruct (_ && _) eqn:Hok; [| done].
    intros _ He. apply andb_true_iff in Hok as [_ Hall].
    rewrite forallb_forall in Hall. apply list_elem_of_In in He.
    apply Hall in He. by apply Z.leb_le.
  - intros s0 p u Hp. split.
    + simpl. unfold settle_deferred. rewrite Hp. simpl.
      rewrite (pst_of_lookup _ _ (Cell (ODeferred (XFetch u))
                                    (Rejected TimeoutError))); [done |].
      apply list_lookup_insert_eq. by eapply lookup_lt_Some.
    + intros e. simpl. rewrite Hp. simpl. eexists. split; [done |].
      unfold settle_deferred. rewrite Hp. simpl.
      rewrite (pst_of_lookup _ _ (Cell (ODeferred (XFetch u)) (Rejected e)));
        [done |].
      apply list_lookup_insert_eq. by eapply lookup_lt_Some.
  - intros self reason s0. simpl. unfold bind. simpl.
    destruct (authorizationFallbackResponse config_) as [fb |]; [| done].
    by destruct (truthy (Some fb) && negb d).
  - intros s0 p src e Hp Hsrc. unfold micro. by rewrite Hp, Hsrc.
  - intros s0 p src e Hp Hsrc. unfold micro. rewrite Hp, Hsrc.
    eexists. split; [done |]. simpl. split; [set_solver |].
    rewrite (pst_of_lookup _ _ (Cell (OThen src None (Some HAuthFailed))
                                  (Fulfilled VUndef))); [done |].
    apply list_lookup_insert_eq. by eapply lookup_lt_Some.
Qed.

(** ** The view wait: first trigger wins, then everything is released *)

Lemma micro_page_evolves p s s' :
  wf s → micro p s = Some s' → page_evolves (host s) (host s').
Proof.
  intros Hwf. unfold micro.
  destruct (heap s !! p) as [[o []]|] eqn:Hp; try done.
  destruct o as [x | src f r | q | ps]; [done | | |].
  - destruct (pst_of (heap s) src) as [| v | e] eqn:Hsrc; [done | |].
    + destruct f as [h |]; intros [= <-]; [| done].
      pose proof (run_fulfilled_page_evolves h v s Hwf) as Hpg.
      by destruct (run_fulfilled h v s) as [[[] |] ?].
    + destruct r as [h |]; intros [= <-]; [| done].
      destruct (keeps_run_rejected h p e s Hwf) as (_ & _ & Hpg & _).
      by destruct (run_rejected h p e s) as [[[] |] ?].
  - by destruct (pst_of (heap s) q); intros [= <-].
  - destruct (first_rejection (heap s) ps); [by intros [= <-] |].
    by destruct (all_values (heap s) ps); intros [= <-].
Qed.

Lemma step_page_evolves l s s' :
  wf s → step l s = Some s' → page_evolves (host s) (host s').
Proof.
  intros Hwf. destruct l; [by apply micro_page_evolves | ..].
  all: unfold step; destruct (quiescent s); [| done]; intros Ht;
    by destruct (task_kept _ _ _ Hwf Ht) as (_ & _ & ?).
Qed.

Lemma steps_page_evolves ls s s' :
  wf s → steps ls s = Some s' → page_evolves (host s) (host s').
Proof.
  revert s. induction ls as [| l ls IH]; intros s Hwf; simpl.
  - by intros [= <-].
  - destruct (step l s) as [s1 |] eqn:Hstep; [| done]. intros Hs.
    etrans; [by eapply step_page_evolves |]. apply IH; [| done].
    by eapply step_wf.
Qed.

(** A cell whose source has settled is a waiting microtask. *)
Lemma not_quiescent s q p f r :
  heap s !! q = Some (Cell (OThen p f r) Pending) →
  pst_of (heap s) p ≠ Pending → quiescent s = false.
Proof.
  intros Hq Hp. unfold quiescent. apply not_true_is_false. intros Hall.
  rewrite forallb_forall in Hall.
  specialize (Hall (Cell (OThen p f r) Pending)).
  rewrite <- list_elem_of_In in Hall.
  specialize (Hall ltac:(by eapply list_elem_of_lookup_2)).
  unfold is_ready in Hall. simpl in Hall.
  by destruct (pst_of (heap s) p).
Qed.

Lemma host_settle_deferred q st s : host (settle_deferred q st s) = host s.
Proof. unfold settle_deferred. by repeat case_match. Qed.

(** Listeners that all settle with [st], or do nothing, called in turn:
    whatever else they settle, the promise of [trig] ends up settled with
    [st]. *)
Lemma forEach_fire_settles (l : list (nat * listener)) st (C : state → Prop)
    trig p :
  st ≠ Pending →
  (∀ s q, C s → C (settle_deferred q st s)) →
  (∀ e s, e ∈ l → C s →
     fire (snd e) s = (Ok tt, s) ∨
     ∃ q, fire (snd e) s = (Ok tt, settle_deferred q st s)) →
  (∀ s, C s → fire trig s = (Ok tt, settle_deferred p st s)) →
  ∀ s x st0,
    C s → heap s !! p = Some (Cell (ODeferred x) st0) →
    st0 = st ∨ (st0 = Pending ∧ ∃ h, (h, trig) ∈ l) →
    heap (snd (forEach (λ e, fire (snd e)) l s)) !! p
      = Some (Cell (ODeferred x) st) ∧
    host (snd (forEach (λ e, fire (snd e)) l s)) = host s ∧
    evolves (heap s) (heap (snd (forEach (λ e, fire (snd e)) l s))).
Proof.
  intros Hst HC Hfire Htrig. induction l as [| e l IH]; intros s x st0 Hs Hp Hor.
  - simpl. destruct Hor as [-> | [_ [h Hh]]]; [done |].
    by apply elem_of_nil in Hh.
  - simpl. unfold bind.
    assert (∀ s1, C s1 → heap s1 !! p = Some (Cell (ODeferred x) st) →
              host s1 = host s → evolves (heap s) (heap s1) →
              heap (snd (forEach (λ e, fire (snd e)) l s1)) !! p
                = Some (Cell (ODeferred x) st) ∧
              host (snd (forEach (λ e, fire (snd e)) l s1)) = host s ∧
              evolves (heap s) (heap (snd (forEach (λ e, fire (snd e)) l s1))))
      as Hdone.
    { intros s1 Hs1 Hp1 Hh1 Hev1.
      destruct (IH (λ e' s' He', Hfire e' s' (list_elem_of_further _ _ _ He'))
                  s1 x st Hs1 Hp1 (or_introl eq_refl)) as (H1 & H2 & H3).
      split_and!; [done | congruence | by etrans]. }
    assert (∀ q, heap (settle_deferred q st s) !! p
                 = Some (Cell (ODeferred x) (if decide (q = p)
                                              then (if st0 is Pending then st else st0)
                                              else st0))) as Hsettle.
    { intros q. unfold settle_deferred.
      destruct (decide (q = p)) as [-> | Hne].
      - rewrite Hp. destruct st0; simpl; try done.
        apply list_lookup_insert_eq. by eapply lookup_lt_Some.
      - destruct (heap s !! q) as [[[y | | |] []] |]; simpl; try done.
        by rewrite list_lookup_insert_ne. }
    destruct Hor as [-> | [-> [h Hh]]].
    + (* already settled *)
      destruct (Hfire e s ltac:(by left) Hs) as [-> | [q ->]].
      * by apply Hdone.
      * apply Hdone; [by apply HC | | apply host_settle_deferred
                     | apply evolves_settle_deferred].
        rewrite Hsettle. destruct (decide (q = p)); [by destruct st | done].
    + apply elem_of_cons in Hh as [<- | Hh].
      * simpl. rewrite (Htrig s Hs).
        apply Hdone; [by apply HC | | apply host_settle_deferred
                     | apply evolves_settle_deferred].
        rewrite Hsettle. by rewrite decide_True.
      * destruct (Hfire e s ltac:(by left) Hs) as [-> | [q ->]].
        -- destruct (IH (λ e' s' He', Hfire e' s'
                            (list_elem_of_further _ _ _ He'))
                       s x Pending Hs Hp) as (H1 & H2 & H3); [| done].
           right. split; [done |]. by exists h.
        -- destruct (decide (q = p)) as [-> | Hne].
           ++ apply Hdone;
                [by apply HC | | apply host_settle_deferred
                | apply evolves_settle_deferred].
              rewrite Hsettle. by rewrite decide_True.
           ++ destruct (IH (λ e' s' He', Hfire e' s'
                              (list_elem_of_further _ _ _ He'))
                         (settle_deferred q st s) x Pending) as (H1 & H2 & H3).
              ** by apply HC.
              ** rewrite Hsettle. by rewrite decide_False.
              ** right. split; [done |]. by exists h.
              ** split_and!; [done | |].
                 --- rewrite H2. apply host_settle_deferred.
                 --- etrans; [apply evolves_settle_deferred | done].
Qed.

Lemma armed_triggered a a' p n dl st :
  armed a p n dl → st ≠ Pending →
  heap a' !! p = Some (Cell (ODeferred XResolver) st) →
  evolves (heap a) (heap a') →
  triggered a' p n st.
Proof.
  intros (Hp & Hthen & _) Hst Hp' Hev.
  assert (heap a' !! S p =
          Some (Cell (OThen p (Some (HUnlisten (unlistenSet n)))
                        (Some (HUnlistenThrow (unlistenSet n)))) Pending))
    as Hthen' by (by eapply evolves_keep).
  split_and!; [by rewrite (pst_of_lookup _ _ _ Hp') | done |].
  eapply not_quiescent; [done |]. by rewrite (pst_of_lookup _ _ _ Hp').
Qed.

Lemma scrolled_views a a' p n dl :
  armed a p n dl → task Scrolled a = Some a' →
  triggered a' p n (Fulfilled VUndef).
Proof.
  intros Harmed [= <-]. pose proof Harmed as (Hp & _ & _ & _ & Hscroll & _).
  unfold call, dispatch, bind, get. simpl.
  destruct (forEach_fire_settles
              (filter (λ e, listens_to (snd e) = SScroll) (listeners (host a)))
              (Fulfilled VUndef) (λ _, True) (LViewScroll p) p)
    with (s := a) (x := XResolver) (st0 := Pending) as (H1 & H2 & H3);
    try done.
  - intros [h l] s Hin _. apply list_elem_of_filter in Hin as [Hl _].
    destruct l; simpl in *; try done. right. by eexists.
  - right. split; [done |]. exists (S (S n)).
    by apply list_elem_of_filter.
  - by eapply armed_triggered.
Qed.

Lemma clicked_views a a' p n dl :
  armed a p n dl → task Clicked a = Some a' →
  triggered a' p n (Fulfilled VUndef).
Proof.
  intros Harmed [= <-]. pose proof Harmed as (Hp & _ & _ & _ & _ & Hclick).
  unfold call, dispatch, bind, get. simpl.
  match goal with
  | |- triggered (snd (forEach _ ?l ?s0)) _ _ _ =>
      destruct (forEach_fire_settles l (Fulfilled VUndef) (λ _, True)
                  (LViewClick p) p)
        with (s := s0) (x := XResolver) (st0 := Pending) as (H1 & H2 & H3);
        try done
  end.
  - intros [h l] s Hin _. apply list_elem_of_filter in Hin as [Hl _].
    destruct l; simpl in *; try done. right. by eexists.
  - right. split; [done |]. exists (S (S (S n))).
    by apply list_elem_of_filter.
  - by eapply armed_triggered.
Qed.

Lemma hidden_cancels a a' p n dl :
  armed a p n dl → task (VisibilityChanged false) a = Some a' →
  triggered a' p n (Rejected Cancellation).
Proof.
  intros Harmed [= <-]. pose proof Harmed as (Hp & _ & Hcancel & _).
  unfold call, dispatch, bind, get. simpl.
  match goal with
  | |- triggered (snd (forEach _ ?l ?s0)) _ _ _ =>
      destruct (forEach_fire_settles l (Rejected Cancellation)
                  (λ s, visible (host s) = false) (LViewCancel p) p)
        with (s := s0) (x := XResolver) (st0 := Pending) as (H1 & H2 & H3);
        try done
  end.
  - intros s q Hs. by rewrite host_settle_deferred.
  - intros [h l] s Hin Hs. apply list_elem_of_filter in Hin as [Hl _].
    destruct l; simpl in *; try done; unfold bind, get; simpl; rewrite Hs;
      simpl; [by left | right; by eexists].
  - intros s Hs. simpl. unfold bind, get. simpl. by rewrite Hs.
  - right. split; [done |]. exists n. by apply list_elem_of_filter.
  - by eapply armed_triggered.
Qed.

Lemma timer_views a a' p n dl id i d :
  armed a p n dl →
  list_find (λ e, fst e = id) (timers (host a))
    = Some (i, (id, Timer d (TViewTimer p))) →
  task (TimerFired id) a = Some a' →
  triggered a' p n (Fulfilled VUndef).
Proof.
  intros Harmed Hfind. pose proof Harmed as (Hp & _). simpl. rewrite Hfind.
  destruct (d <=? now (host a))%Z; [| done]. intros [= <-].
  unfold call, bind. simpl.
  eapply armed_triggered;
    [done | done | | apply (evolves_settle_deferred (set_host _ a))].
  unfold settle_deferred. simpl. rewrite Hp. simpl.
  apply list_lookup_insert_eq. by eapply lookup_lt_Some.
Qed.

Lemma tick_armed a a' p n dl t :
  armed a p n dl → task (Tick t) a = Some a' →
  armed a' p n dl ∧ (t ≤ dl)%Z ∧ now (host a') = t.
Proof.
  intros Harmed. pose proof Harmed as (_ & _ & _ & Htimer & _). simpl.
  destruct (_ && _) eqn:Hok; [| done]. intros [= <-].
  split_and!; [done | | done].
  apply andb_true_iff in Hok as [_ Hall]. rewrite forallb_forall in Hall.
  apply list_elem_of_In, Hall in Htimer. by apply Z.leb_le.
Qed.

Lemma unlisten_released g n :
  let g' := snd (forEach call_unlisten (unlistenSet n) g) in
  released g' n ∧ heap g' = heap g ∧ this g' = this g ∧ log g' = log g ∧
  now (host g') = now (host g).
Proof.
  simpl. split_and!; try done. split; simpl.
  - intros e He. unfold remove_key in He.
    repeat (apply list_elem_of_filter in He as [? He]). done.
  - intros e He. unfold remove_key in He.
    by apply list_elem_of_filter in He as [? He].
Qed.

Lemma disarm a1 p n st :
  triggered a1 p n st →
  st = Fulfilled VUndef ∨ st = Rejected Cancellation →
  ∃ a2, micro (S p) a1 = Some a2 ∧ released a2 n ∧
        pst_of (heap a2) (S p) = st ∧ now (host a2) = now (host a1).
Proof.
  intros (Hp & Hthen & _) Hst. unfold micro. rewrite Hthen, Hp.
  destruct (unlisten_released a1 n) as (Hrel & Hheap & _ & _ & Hnow).
  pose proof (forEach_call_unlisten_ok (unlistenSet n) a1) as Hok.
  destruct Hst as [-> | ->].
  - eexists. split; [done |].
    change (run_fulfilled (HUnlisten (unlistenSet n)) VUndef a1)
      with (bind (forEach call_unlisten (unlistenSet n))
              (λ _, ret (RetVal VUndef)) a1).
    unfold bind.
    destruct (forEach call_unlisten (unlistenSet n) a1) as [[[] | e] g'];
      [| done]. simpl in *.
    split_and!; [done | | done].
    rewrite (pst_of_lookup _ _ (Cell (OThen p (Some (HUnlisten (unlistenSet n)))
               (Some (HUnlistenThrow (unlistenSet n)))) (Fulfilled VUndef)));
      [done |].
    apply list_lookup_insert_eq. rewrite Hheap. by eapply lookup_lt_Some.
  - eexists. split; [done |].
    change (run_rejected (HUnlistenThrow (unlistenSet n)) (S p) Cancellation a1)
      with (bind (forEach call_unlisten (unlistenSet n))
              (λ _, throw Cancellation) a1 : res hres * state).
    unfold bind.
    destruct (forEach call_unlisten (unlistenSet n) a1) as [[[] | e] g'];
      [| done]. simpl in *.
    split_and!; [done | | done].
    rewrite (pst_of_lookup _ _ (Cell (OThen p (Some (HUnlisten (unlistenSet n)))
               (Some (HUnlistenThrow (unlistenSet n))))
               (Rejected Cancellation))); [done |].
    apply list_lookup_insert_eq. rewrite Hheap. by eapply lookup_lt_Some.
Qed.

Lemma released_steps a n ls a' :
  wf a → released a n → (S (S (S n)) < nextHandle (host a))%nat →
  steps ls a = Some a' → released a' n.
Proof.
  intros Hwf [Hl Ht] Hn Hsteps.
  destruct (steps_page_evolves _ _ _ Hwf Hsteps) as (_ & Hls & Hts).
  split.
  - intros e He.
    destruct (decide (fst e < nextHandle (host a))%nat) as [Hlt | Hge];
      [by apply Hl, Hls | lia].
  - intros e He.
    destruct (decide (fst e < nextHandle (host a))%nat) as [Hlt | Hge];
      [by apply Ht, Hts | lia].
Qed.

Lemma whenViewed_arms s t :
  t ≠ 0%Z →
  ∃ a, whenViewed_ t s = (Ok (S (length (heap s))), a) ∧
       armed a (length (heap s)) (nextHandle (host s)) (now (host s) + t) ∧
       nextHandle (host a) = S (S (S (S (nextHandle (host s))))) ∧
       now (host a) = now (host s).
Proof.
  intros Ht. unfold whenViewed_. apply Z.eqb_neq in Ht as ->.
  unfold bind, then_, alloc. simpl. rewrite length_app. simpl.
  rewrite Nat.add_1_r.
  eexists. split; [reflexivity |]. simpl.
  split_and!; try done.
  split_and!; simpl.
  - apply lookup_app_l_Some. by rewrite list_lookup_middle.
  - by rewrite list_lookup_middle; [| rewrite length_app; simpl; lia].
  - set_solver.
  - set_solver.
  - set_solver.
  - set_solver.
Qed.

(** C6. [whenViewed_(0)] is an immediate view. With another [timeToView]
    the wait is armed with its four triggers. While it is armed the clock
    cannot pass the deadline of its timer; a scroll, a click or its timer
    settles it as viewed, the page becoming hidden settles it as canceled;
    either way the disarming reaction is then a waiting microtask, so no
    other signal is taken before it runs. When it runs it releases the
    three listeners and the timer, and the wait ends as settled; from then
    on no listener or timer is ever registered under those handles again. *)
Theorem view_wait_first_trigger_disarms s timeToView :
  reachable s →
  whenViewed_ 0 s = promise_resolve VUndef s ∧
  (timeToView ≠ 0%Z →
   ∃ a, whenViewed_ timeToView s = (Ok (S (length (heap s))), a) ∧
        armed a (length (heap s)) (nextHandle (host s))
          (now (host s) + timeToView)) ∧
  (∀ a p n deadline, armed a p n deadline →
     (∀ t a', task (Tick t) a = Some a' →
        armed a' p n deadline ∧ (t ≤ deadline)%Z ∧ now (host a') = t) ∧
     (∀ a', task Scrolled a = Some a' → triggered a' p n (Fulfilled VUndef)) ∧
     (∀ a', task Clicked a = Some a' → triggered a' p n (Fulfilled VUndef)) ∧
     (∀ id i d a',
        list_find (λ e, fst e = id) (timers (host a))
          = Some (i, (id, Timer d (TViewTimer p))) →
        task (TimerFired id) a = Some a' →
        triggered a' p n (Fulfilled VUndef)) ∧
     (∀ a', task (VisibilityChanged false) a = Some a' →
        triggered a' p n (Rejected Cancellation))) ∧
  (∀ a1 p n st, triggered a1 p n st →
     st = Fulfilled VUndef ∨ st = Rejected Cancellation →
     (∀ l, (∀ q, l ≠ Micro q) → step l a1 = None) ∧
     ∃ a2, micro (S p) a1 = Some a2 ∧ released a2 n ∧
           pst_of (heap a2) (S p) = st ∧ now (host a2) = now (host a1)) ∧
  (∀ a2 n ls a3,
     reachable a2 → released a2 n →
     (S (S (S n)) < nextHandle (host a2))%nat →
     steps ls a2 = Some a3 → released a3 n).
Proof.
  intros Hreach. split_and!.
  - done.
  - intros Ht. destruct (whenViewed_arms s timeToView Ht) as (a & ? & ? & _).
    by exists a.
  - intros a p n deadline Harmed. split_and!.
    + intros t a'. by apply tick_armed.
    + intros a'. by eapply scrolled_views.
    + intros a'. by eapply clicked_views.
    + intros id i d a'. by eapply timer_views.
    + intros a'. by eapply hidden_cancels.
  - intros a1 p n st Htrig Hst. split; [| by apply disarm].
    intros l Hl. destruct Htrig as (_ & _ & Hq).
    destruct l; [by destruct (Hl p0) | ..]; unfold step; by rewrite Hq.
  - intros a2 n ls a3 Hr. apply released_steps. by apply reachable_wf.
Qed.

(** ** Framing: what every method and every step keeps

    A property [I] of states that the elementary operations keep (under
    conditions [ok_origin], [ok_event] and [ok_field] on the promise they
    make, the event they emit and the field they set) is kept by every method
    and by every step of the page, once the few places that make a sensitive
    promise or emit a sensitive event are accounted for. *)

Section Frame.
Variable I : state → Prop.
Variable ok_origin : origin → Prop.
Variable ok_event : event → Prop.
Variable ok_field : (fields → fields) → Prop.

Hypothesis I_host : ∀ s g, I s → I (set_host g s).
Hypothesis I_alloc :
  ∀ s o st, ok_origin o → I s → I (set_heap (heap s ++ [Cell o st]) s).
Hypothesis I_emit : ∀ s e, ok_event e → I s → I (add_log e s).
Hypothesis I_field : ∀ s g, ok_field g → I s → I (set_this (g (this s)) s).
Hypothesis I_settle : ∀ s p st, I s → I (settle_deferred p st s).
Hypothesis I_set_cell :
  ∀ s p o st, I s → heap s !! p = Some (Cell o Pending) →
              (∀ x, o ≠ ODeferred x) → I (set_cell p (Cell o st) s).
Hypothesis I_adopt :
  ∀ s p src f r q, I s → heap s !! p = Some (Cell (OThen src f r) Pending) →
                   (∀ e, f ≠ Some (HTriggerEvent e)) →
                   I (set_cell p (Cell (OAdopt q) Pending) s).

Hypothesis ok_harmless : ∀ o, sensitive o = false → ok_origin o.
Hypothesis ok_quiet : ∀ e, sensitive_event e = false → ok_event e.
Hypothesis ok_reportView : ∀ p, ok_field (with_reportViewPromise_ p).
Hypothesis ok_loginUrl :
  ∀ k v, ok_field (λ f, with_loginUrlMap_ (loginUrl_set k v (loginUrlMap_ f)) f).
Hypothesis ok_loginPromise : ∀ p, ok_field (with_loginPromise_ p).
Hypothesis ok_loginStart : ∀ t, ok_field (with_loginStartTime_ t).

(** *** The elementary operations *)

Lemma holds_ret {A} (a : A) : holds I (ret a).
Proof. by intros s. Qed.

Lemma holds_throw {A} (e : error) : holds I (throw (A := A) e).
Proof. by intros s. Qed.

Lemma holds_get : holds I get.
Proof. by intros s. Qed.

Lemma holds_bind {A B} (m : M A) (k : A → M B) :
  holds I m → (∀ a, holds I (k a)) → holds I (bind m k).
Proof.
  intros Hm Hk s Hs. unfold bind. specialize (Hm s Hs).
  destruct (m s) as [[a | e] s']; simpl in *; [by apply Hk | done].
Qed.

Lemma holds_get_bind {A} (k : state → M A) :
  (∀ s, I s → I (snd (k s s))) → holds I (bind get k).
Proof. intros Hk s Hs. unfold bind, get. by apply Hk. Qed.

Lemma holds_alloc o st : ok_origin o → holds I (alloc o st).
Proof. intros Ho s Hs. by apply I_alloc. Qed.

Lemma holds_emit e : ok_event e → holds I (emit e).
Proof. intros He s Hs. by apply I_emit. Qed.

Lemma holds_set_field g : ok_field g → holds I (set_field g).
Proof. intros Hg s Hs. by apply I_field. Qed.

Lemma holds_set_page f : holds I (set_page f).
Proof. intros s Hs. by apply I_host. Qed.

Lemma holds_listen l : holds I (listen l).
Proof. intros s Hs. by apply I_host. Qed.

Lemma holds_delay a d : holds I (delay a d).
Proof. intros s Hs. by apply I_host. Qed.

Lemma holds_call_unlisten u : holds I (call_unlisten u).
Proof. intros s Hs. by apply I_host. Qed.

Lemma holds_resolver p st : holds I (resolver p st).
Proof. intros s Hs. by apply I_settle. Qed.

Lemma holds_forEach {A} (f : A → M unit) l :
  (∀ a, holds I (f a)) → holds I (forEach f l).
Proof.
  intros Hf. induction l as [| a l IH]; simpl; [apply holds_ret |].
  apply holds_bind; [apply Hf | by intros _].
Qed.

Lemma holds_dev_assert c : holds I (dev_assert c).
Proof. by intros s; destruct c. Qed.

Lemma holds_user_assert_ c msg : holds I (user_assert_ c msg).
Proof. by intros s; destruct c. Qed.

Create HintDb holds discriminated.

(** Decompose a computation along its binds and branches. *)
Ltac holds_go :=
  lazymatch goal with
  | |- holds _ (bind _ _) => apply holds_bind; [holds_go | intros ?; holds_go]
  | |- holds _ (ret _) => apply holds_ret
  | |- holds _ (throw _) => apply holds_throw
  | |- holds _ get => apply holds_get
  | |- holds _ (if ?b then _ else _) => destruct b eqn:?; holds_go
  | |- holds _ (match ?x with _ => _ end) => destruct x eqn:?; holds_go
  | |- holds _ (alloc _ _) =>
      apply holds_alloc; first [by apply ok_harmless | by eauto]
  | |- holds _ (then_ _ _ _) =>
      apply holds_alloc; first [by apply ok_harmless | by eauto]
  | |- holds _ (promise_resolve _) => apply holds_alloc; by apply ok_harmless
  | |- holds _ (promise_all _) => apply holds_alloc; by apply ok_harmless
  | |- holds _ (emit _) =>
      apply holds_emit; first [by apply ok_quiet | by eauto]
  | |- holds _ (set_field _) => apply holds_set_field; by eauto
  | |- holds _ (set_page _) => apply holds_set_page
  | |- holds _ (resolver _ _) => apply holds_resolver
  | |- holds _ (listen _) => apply holds_listen
  | |- holds _ (delay _ _) => apply holds_delay
  | |- holds _ (call_unlisten _) => apply holds_call_unlisten
  | |- holds _ (dev_assert _) => apply holds_dev_assert
  | |- holds _ (user_assert_ _ _) => apply holds_user_assert_
  | |- holds _ (forEach _ _) => apply holds_forEach; intros ?; holds_go
  | |- _ => solve [eauto with holds]
  end.

(** *** The methods *)

Lemma holds_analyticsEvent_ e : holds I (analyticsEvent_ e).
Proof. unfold analyticsEvent_. holds_go. Qed.
#[local] Hint Resolve holds_analyticsEvent_ : holds.

Lemma holds_loginAnalyticsEvent_ ty e : holds I (loginAnalyticsEvent_ ty e).
Proof. unfold loginAnalyticsEvent_. holds_go. Qed.
#[local] Hint Resolve holds_loginAnalyticsEvent_ : holds.

Lemma holds_toggleTopClass_ c on : holds I (toggleTopClass_ c on).
Proof. unfold toggleTopClass_. holds_go. Qed.
#[local] Hint Resolve holds_toggleTopClass_ : holds.

Lemma holds_broadcastReauthorize_ : holds I broadcastReauthorize_.
Proof. unfold broadcastReauthorize_. holds_go. Qed.
#[local] Hint Resolve holds_broadcastReauthorize_ : holds.

Lemma holds_firstAuthorizationResolver_ : holds I firstAuthorizationResolver_.
Proof. unfold firstAuthorizationResolver_. holds_go. Qed.
#[local] Hint Resolve holds_firstAuthorizationResolver_ : holds.

Lemma holds_setAuthResponse_ v :
  (∀ j, ok_field (with_authResponse_ j)) → holds I (setAuthResponse_ v).
Proof. intros Hok. unfold setAuthResponse_. holds_go. Qed.

Lemma holds_whenViewed_ t : holds I (whenViewed_ t).
Proof. unfold whenViewed_. holds_go. Qed.
#[local] Hint Resolve holds_whenViewed_ : holds.

Lemma holds_getAuthdataField f : holds I (getAuthdataField f).
Proof. unfold getAuthdataField. holds_go. Qed.
#[local] Hint Resolve holds_getAuthdataField : holds.

(** The request of the reader id is one of the sensitive places. *)
Lemma holds_reader_id :
  ok_origin (ODeferred XCid) → (∀ p, ok_field (with_readerIdPromise_ p)) →
  holds I getReaderId_.
Proof. intros Ho Hf. unfold getReaderId_. holds_go. Qed.

Hypothesis I_getReaderId_ : holds I getReaderId_.

Lemma holds_buildUrl_ url b : holds I (buildUrl_ url b).
Proof. unfold buildUrl_. holds_go. Qed.
#[local] Hint Resolve holds_buildUrl_ : holds.

Lemma holds_buildLoginUrls_loop keys : holds I (buildLoginUrls_loop keys).
Proof. induction keys as [| k keys IH]; simpl; holds_go. Qed.
#[local] Hint Resolve holds_buildLoginUrls_loop : holds.

Lemma holds_buildLoginUrls_ : holds I buildLoginUrls_.
Proof. unfold buildLoginUrls_. holds_go. Qed.
#[local] Hint Resolve holds_buildLoginUrls_ : holds.

(** The fetch, the reaction that applies the response and the join of the
    last authorization are made only by a run that is not skipped. *)
Hypothesis ok_run :
  skips_authorization = false →
  (∀ p, ok_origin (OThen p (Some HAuthFetch) None)) ∧
  (∀ p, ok_origin (OThen p (Some HAuthApply) None)) ∧
  (∀ p, ok_field (with_lastAuthorizationPromise_ p)).

Lemma holds_runAuthorization_ d : holds I (runAuthorization_ d).
Proof.
  unfold runAuthorization_. destruct skips_authorization eqn:Hskip;
    [holds_go |].
  destruct (ok_run eq_refl) as (Hfetch & Happly & Hlast). holds_go.
Qed.
#[local] Hint Resolve holds_runAuthorization_ : holds.

Lemma holds_reportWhenViewed_ t : holds I (reportWhenViewed_ t).
Proof. unfold reportWhenViewed_. holds_go. Qed.
#[local] Hint Resolve holds_reportWhenViewed_ : holds.

Lemma holds_scheduleView_ready t : holds I (scheduleView_ready t).
Proof. unfold scheduleView_ready. holds_go. Qed.
#[local] Hint Resolve holds_scheduleView_ready : holds.

Lemma holds_scheduleView_ t : holds I (scheduleView_ t).
Proof. unfold scheduleView_. holds_go. Qed.
#[local] Hint Resolve holds_scheduleView_ : holds.

Lemma holds_login ty : holds I (login ty).
Proof. unfold login. holds_go. Qed.
#[local] Hint Resolve holds_login : holds.

Lemma holds_handleAction_ m : holds I (handleAction_ m).
Proof. unfold handleAction_. holds_go. Qed.
#[local] Hint Resolve holds_handleAction_ : holds.

Lemma holds_startInternal_ : holds I startInternal_.
Proof. unfold startInternal_. holds_go. Qed.

Lemma holds_fire l : holds I (fire l).
Proof. destruct l; simpl; holds_go. Qed.
#[local] Hint Resolve holds_fire : holds.

Lemma holds_dispatch sig : holds I (dispatch sig).
Proof. unfold dispatch. holds_go. Qed.
#[local] Hint Resolve holds_dispatch : holds.

Lemma holds_fire_timer a : holds I (fire_timer a).
Proof. destruct a; simpl; holds_go. Qed.
#[local] Hint Resolve holds_fire_timer : holds.

(** The pingback is made only with a pingback URL. *)
Lemma holds_reportViewToServer_ :
  (truthy (pingback config_) = true →
   ∀ p, ok_origin (OThen p (Some HPingbackSend) None)) →
  holds I reportViewToServer_.
Proof.
  intros ok_ping. unfold reportViewToServer_.
  destruct (pingback config_) as [url |]; [| holds_go].
  destruct (truthy (Some url)); [| holds_go].
  apply holds_bind; [holds_go | intros p].
  apply holds_bind; [apply holds_alloc; by apply ok_ping | intros q].
  holds_go.
Qed.

Lemma holds_report_view v :
  (truthy (pingback config_) = true →
   ∀ p, ok_origin (OThen p (Some HPingbackSend) None)) →
  holds I (run_fulfilled HReportView v).
Proof.
  intros ok_ping. simpl.
  apply holds_bind; [holds_go | intros _].
  apply holds_bind; [by apply holds_reportViewToServer_ | intros p].
  holds_go.
Qed.

(** *** The reactions *)

(** The reaction that reports the view is the place of the pingback. *)
Hypothesis I_report : ∀ v, holds I (run_fulfilled HReportView v).

Lemma holds_fetch v :
  ok_event (FetchJson v AUTHORIZATION_TIMEOUT) →
  holds I (run_fulfilled HAuthFetch v).
Proof. intros Hok. simpl. holds_go. Qed.

Lemma holds_pingsend v :
  ok_event (SendSignal v) → holds I (run_fulfilled HPingbackSend v).
Proof. intros Hok. simpl. holds_go. Qed.

Lemma holds_apply v :
  (∀ j, ok_field (with_authResponse_ j)) →
  holds I (run_fulfilled HAuthApply v).
Proof.
  intros Hok. simpl.
  apply holds_bind; [by apply holds_setAuthResponse_ | intros _]. holds_go.
Qed.

Lemma holds_run_fulfilled h v :
  h ≠ HAuthFetch → h ≠ HAuthApply → h ≠ HPingbackSend →
  holds I (run_fulfilled h v).
Proof.
  intros Hfetch Happly Hping.
  destruct h; try done; try apply I_report; simpl; cbv zeta; holds_go.
Qed.

Lemma holds_run_rejected h self e : holds I (run_rejected h self e).
Proof. destruct h; simpl; holds_go. Qed.

(** *** The steps *)

(** The reactions that fetch, apply and ping are the other sensitive places:
    they are accounted for where they are waiting to run. *)
Hypothesis I_fetch :
  ∀ s p src r v,
    I s → heap s !! p = Some (Cell (OThen src (Some HAuthFetch) r) Pending) →
    I (snd (run_fulfilled HAuthFetch v s)).
Hypothesis I_apply :
  ∀ s p src r v,
    I s → heap s !! p = Some (Cell (OThen src (Some HAuthApply) r) Pending) →
    I (snd (run_fulfilled HAuthApply v s)).
Hypothesis I_ping :
  ∀ s p src r v,
    I s → heap s !! p = Some (Cell (OThen src (Some HPingbackSend) r) Pending) →
    I (snd (run_fulfilled HPingbackSend v s)).

Lemma conclude_holds p src f r s out :
  heap s !! p = Some (Cell (OThen src f r) Pending) →
  evolves (heap s) (heap (snd out)) →
  (∀ q, fst out = Ok (RetPromise q) → ∀ e, f ≠ Some (HTriggerEvent e)) →
  I (snd out) →
  I (conclude p (OThen src f r) out).
Proof.
  intros Hp Hev Hprom Hout.
  assert (heap (snd out) !! p = Some (Cell (OThen src f r) Pending)) as Hp1
    by (by eapply evolves_keep).
  destruct out as [[[v | q] | e] s1]; simpl in *.
  - by apply I_set_cell.
  - eapply I_adopt; [done | done |]. by apply (Hprom q).
  - by apply I_set_cell.
Qed.

Lemma micro_holds p s s' : wf s → I s → micro p s = Some s' → I s'.
Proof.
  intros Hwf Hs. unfold micro.
  destruct (heap s !! p) as [[o []]|] eqn:Hp; try done.
  destruct o as [x | src f r | q | ps]; [done | | |].
  - destruct (pst_of (heap s) src) as [| v | e] eqn:Hsrc; [done | |].
    + destruct f as [h |]; intros [= <-]; [| by apply I_set_cell].
      apply (conclude_holds p src (Some h) r s);
        [done | by apply run_fulfilled_evolves | by intros q Hq e [= ->] |].
      assert (h = HAuthFetch ∨ h = HAuthApply ∨ h = HPingbackSend ∨
              (h ≠ HAuthFetch ∧ h ≠ HAuthApply ∧ h ≠ HPingbackSend))
        as [-> | [-> | [-> | (? & ? & ?)]]] by (destruct h; auto 6).
      * by eapply I_fetch.
      * by eapply I_apply.
      * by eapply I_ping.
      * by apply holds_run_fulfilled.
    + destruct r as [h |]; intros [= <-]; [| by apply I_set_cell].
      apply (conclude_holds p src f (Some h) s);
        [done | | | by apply holds_run_rejected].
      * by destruct (keeps_run_rejected h p e s Hwf) as (_ & ? & _).
      * intros q Hq. by apply run_rejected_no_promise in Hq.
  - destruct (pst_of (heap s) q); [done | |]; intros [= <-];
      by apply I_set_cell.
  - destruct (first_rejection (heap s) ps);
      [intros [= <-]; by apply I_set_cell |].
    destruct (all_values (heap s) ps); [| done].
    intros [= <-]. by apply I_set_cell.
Qed.

Lemma task_holds l s s' : I s → task l s = Some s' → I s'.
Proof.
  intros Hs. destruct l; simpl; try done.
  - destruct (docReady (host s)); [done |]. intros [= <-].
    assert (holds I (set_page (λ g, with_docReadyCallbacks []
                                      (with_docReady true g)) ;;;
                     forEach scheduleView_ready (docReadyCallbacks (host s))))
      as H by holds_go.
    by apply H.
  - intros [= <-].
    assert (holds I (set_page (with_visible visible0) ;;; dispatch SVisibility))
      as H by holds_go.
    by apply H.
  - intros [= <-]. by apply holds_dispatch.
  - intros [= <-]. by apply holds_dispatch.
  - destruct (_ && _); [| done]. intros [= <-]. by apply holds_set_page.
  - destruct (list_find _ _) as [[i [id' [d a]]]|]; [| done].
    destruct (d <=? now (host s))%Z; [| done]. intros [= <-].
    assert (holds I (call_unlisten (UTimer id) ;;; fire_timer a))
      as H by holds_go.
    by apply H.
  - destruct (heap s !! p) as [[[x| | |] []]|]; try done.
    destruct (answers x r s); [| done]. intros [= <-]. by apply I_settle.
  - destruct (_ && _); intros [= <-]; [| done].
    by apply holds_runAuthorization_.
  - intros [= <-]. by apply holds_handleAction_.
  - intros [= <-]. by apply holds_login.
  - intros [= <-]. by apply holds_getAuthdataField.
Qed.

Lemma step_holds l s s' : wf s → I s → step l s = Some s' → I s'.
Proof.
  intros Hwf Hs. destruct l; [by apply micro_holds | ..].
  all: unfold step; destruct (quiescent s); [| done]; by apply task_holds.
Qed.

Lemma steps_holds ls s s' : wf s → I s → steps ls s = Some s' → I s'.
Proof.
  revert s. induction ls as [| l ls IH]; intros s Hwf Hs; simpl.
  - by intros [= <-].
  - destruct (step l s) as [s1 |] eqn:Hstep; [| done].
    apply IH; [by eapply step_wf | by eapply step_holds].
Qed.

(** The property holds of the state the constructor leaves. *)
Hypothesis I_constructed : ∀ t v r, I (constructed t v r).

(** Every state the service can reach has the property. *)
Lemma reachable_holds s : reachable s → I s.
Proof.
  intros (t & v & r & ls & Hs).
  eapply steps_holds; [apply started_wf | | done].
  by apply holds_startInternal_.
Qed.

End Frame.

(** ** What the service never does *)

Lemma lookup_alloc_inv (h : list cell) c p c' :
  (h ++ [c]) !! p = Some c' → h !! p = Some c' ∨ (p = length h ∧ c' = c).
Proof.
  intros Hp. destruct (decide (p < length h)%nat) as [Hlt | Hge].
  - left. by rewrite lookup_app_l in Hp.
  - right. rewrite lookup_app_r in Hp by lia.
    destruct (p - length h)%nat as [| n] eqn:Hn; simpl in Hp; [| done].
    split; [lia | congruence].
Qed.

Lemma lookup_settle_inv s p st q c :
  heap (settle_deferred p st s) !! q = Some c →
  heap s !! q = Some c ∨
  ∃ x, q = p ∧ c = Cell (ODeferred x) st ∧
       heap s !! p = Some (Cell (ODeferred x) Pending).
Proof.
  unfold settle_deferred.
  destruct (heap s !! p) as [[[x | | |] []]|] eqn:Hp; auto.
  simpl. destruct (decide (q = p)) as [-> | Hne].
  - rewrite list_lookup_insert_eq by (by eapply lookup_lt_Some).
    intros [= <-]. right. by exists x.
  - rewrite list_lookup_insert_ne by done. auto.
Qed.

Lemma lookup_set_cell_inv s p c q c' :
  heap (set_cell p c s) !! q = Some c' →
  heap s !! q = Some c' ∨ (q = p ∧ c' = c).
Proof.
  simpl. destruct (decide (q = p)) as [-> | Hne].
  - intros Hq. right. split; [done |].
    assert (p < length (heap s))%nat as Hlt.
    { apply lookup_lt_Some in Hq. by rewrite length_insert in Hq. }
    rewrite list_lookup_insert_eq in Hq by done. congruence.
  - rewrite list_lookup_insert_ne by done. auto.
Qed.

Section QuietFacts.
Variable bad : origin → bool.
Variable bade : event → bool.
Hypothesis bad_adopt : ∀ q, bad (OAdopt q) = false.

Lemma quiet_host s g : quiet bad bade s → quiet bad bade (set_host g s).
Proof. done. Qed.

Lemma quiet_field s f : quiet bad bade s → quiet bad bade (set_this f s).
Proof. done. Qed.

Lemma quiet_alloc s o st :
  bad o = false → quiet bad bade s →
  quiet bad bade (set_heap (heap s ++ [Cell o st]) s).
Proof.
  intros Ho [Hh Hl]. split; [| done]. intros p c Hp.
  apply lookup_alloc_inv in Hp as [Hp | [_ ->]]; [by eapply Hh | done].
Qed.

Lemma quiet_emit s e :
  bade e = false → quiet bad bade s → quiet bad bade (add_log e s).
Proof.
  intros He [Hh Hl]. split; [done |]. intros e' He'. simpl in He'.
  apply elem_of_app in He' as [He' | He']; [by apply Hl |].
  by apply list_elem_of_singleton in He' as ->.
Qed.

Lemma quiet_settle s p st :
  quiet bad bade s → quiet bad bade (settle_deferred p st s).
Proof.
  intros [Hh Hl]. split.
  - intros q c Hq.
    apply lookup_settle_inv in Hq as [Hq | (x & -> & -> & Hp)];
      [by eapply Hh |].
    by apply (Hh _ _ Hp).
  - unfold settle_deferred. by repeat case_match.
Qed.

Lemma quiet_set_cell s p o st :
  quiet bad bade s → heap s !! p = Some (Cell o Pending) →
  quiet bad bade (set_cell p (Cell o st) s).
Proof.
  intros [Hh Hl] Hp. split; [| done]. intros q c Hq.
  apply lookup_set_cell_inv in Hq as [Hq | [-> ->]]; [by eapply Hh |].
  by apply (Hh _ _ Hp).
Qed.

Lemma quiet_adopt s p q :
  quiet bad bade s → quiet bad bade (set_cell p (Cell (OAdopt q) Pending) s).
Proof.
  intros [Hh Hl]. split; [| done]. intros q' c Hq.
  apply lookup_set_cell_inv in Hq as [Hq | [-> ->]]; [by eapply Hh |].
  apply bad_adopt.
Qed.

End QuietFacts.

Lemma sensitive_pings o : sensitive o = false → pings o = false.
Proof. by destruct o as [| src [[]|] r | |]. Qed.

Lemma sensitive_fetches o : sensitive o = false → fetches o = false.
Proof. by destruct o as [| src [[]|] r | |]. Qed.

Lemma sensitive_is_ping e : sensitive_event e = false → is_ping e = false.
Proof. by destruct e. Qed.

Lemma sensitive_is_fetch e : sensitive_event e = false → is_fetch e = false.
Proof. by destruct e. Qed.

Lemma quiet_constructed bad bade t v r :
  bad (ODeferred XResolver) = false →
  bad (ODeferred XAnalytics) = false →
  (∀ src, bad (OThen src (Some HAuthorizationReceived) None) = false) →
  quiet bad bade (constructed t v r).
Proof.
  intros H0 H1 H2. split; simpl.
  - intros [| [| [| p]]] c; simpl; [| | | done]; intros [= <-]; simpl; auto.
  - intros e He. by apply elem_of_nil in He.
Qed.

(** Without a pingback URL no state has a pingback in it. *)
Lemma ping_free_reachable s :
  truthy (pingback config_) = false → reachable s → quiet pings is_ping s.
Proof.
  intros Hno.
  pose proof (quiet_host pings is_ping) as Hhost.
  pose proof (quiet_alloc pings is_ping) as Halloc.
  pose proof (quiet_emit pings is_ping) as Hemit.
  assert (∀ s (g : fields → fields), True → quiet pings is_ping s →
            quiet pings is_ping (set_this (g (this s)) s)) as Hfield
    by (intros; by apply quiet_field).
  pose proof (quiet_settle pings is_ping) as Hsettle.
  assert (holds (quiet pings is_ping) getReaderId_) as Hrid.
  { by apply (holds_reader_id _ (λ o, pings o = false) (λ _, True)). }
  apply (reachable_holds (quiet pings is_ping) (λ o, pings o = false)
           (λ e, is_ping e = false) (λ _, True));
    try done.
  - intros s0 p o st Hs Hp _. by apply quiet_set_cell.
  - intros s0 p src f r q Hs _ _. by apply quiet_adopt.
  - apply sensitive_pings.
  - apply sensitive_is_ping.
  - intros v. apply (holds_report_view _ (λ o, pings o = false));
      try done; [apply sensitive_pings |].
    by rewrite Hno.
  - intros s0 p src r v Hs _.
    by apply (holds_fetch _ (λ o, pings o = false) (λ e, is_ping e = false));
      [| | | apply sensitive_pings | |].
  - intros s0 p src r v Hs _.
    by apply (holds_apply _ (λ o, pings o = false) (λ _, True));
      [| | | | apply sensitive_pings | | |].
  - intros s0 p src r v [Hh _] Hp. by apply Hh in Hp.
  - intros t v r. by apply quiet_constructed.
Qed.

(** A run that is always skipped leaves the service as it was made: nothing
    is fetched, no response is stored and the last authorization promise
    stays the first. *)
Lemma unauthorized_reachable s :
  skips_authorization = true → reachable s → unauthorized s.
Proof.
  intros Hskip.
  set (okf := λ g : fields → fields,
         ∀ f, authResponse_ (g f) = authResponse_ f ∧
              lastAuthorizationPromise_ (g f) = lastAuthorizationPromise_ f).
  assert (∀ s g, unauthorized s → unauthorized (set_host g s)) as Hhost
    by done.
  assert (∀ s o st, fetches o = false → unauthorized s →
            unauthorized (set_heap (heap s ++ [Cell o st]) s)) as Halloc.
  { intros s0 o st Ho (Hq & ? & ?). split; [by apply quiet_alloc | done]. }
  assert (∀ s e, is_fetch e = false → unauthorized s →
            unauthorized (add_log e s)) as Hemit.
  { intros s0 e He (Hq & ? & ?). split; [by apply quiet_emit | done]. }
  assert (∀ s g, okf g → unauthorized s →
            unauthorized (set_this (g (this s)) s)) as Hfield.
  { intros s0 g Hg (Hq & Ha & Hl). destruct (Hg (this s0)) as [Hga Hgl].
    split; [done |]. simpl. by rewrite Hga, Hgl. }
  assert (∀ s p st, unauthorized s → unauthorized (settle_deferred p st s))
    as Hsettle.
  { intros s0 p st (Hq & Ha & Hl). split; [by apply quiet_settle |].
    unfold settle_deferred. by repeat case_match. }
  assert (holds unauthorized getReaderId_) as Hrid.
  { by apply (holds_reader_id _ (λ o, fetches o = false) okf). }
  apply (reachable_holds unauthorized (λ o, fetches o = false)
           (λ e, is_fetch e = false) okf);
    try done.
  - intros s0 p o st (Hq & ? & ?) Hp _. split; [by apply quiet_set_cell | done].
  - intros s0 p src f r q (Hq & ? & ?) _ _.
    split; [by apply quiet_adopt | done].
  - apply sensitive_fetches.
  - apply sensitive_is_fetch.
  - congruence.
  - intros v. by apply (holds_report_view _ (λ o, fetches o = false));
      [| apply sensitive_fetches | |].
  - intros s0 p src r v ([Hh _] & _) Hp. by apply Hh in Hp.
  - intros s0 p src r v ([Hh _] & _) Hp. by apply Hh in Hp.
  - intros s0 p src r v Hs _.
    by apply (holds_pingsend _ (λ o, fetches o = false)
                (λ e, is_fetch e = false));
      [| | apply sensitive_fetches | |].
  - intros t v r. split; [by apply quiet_constructed | done].
Qed.

(** The CID service is asked at most once. *)
Lemma cid_once_reachable s : reachable s → cid_once s.
Proof.
  set (oko := λ o : origin, o ≠ ODeferred XCid).
  set (okf := λ g : fields → fields,
         ∀ f, readerIdPromise_ (g f) = readerIdPromise_ f).
  assert (∀ s g, cid_once s → cid_once (set_host g s)) as Hhost by done.
  assert (∀ s o st, oko o → cid_once s →
            cid_once (set_heap (heap s ++ [Cell o st]) s)) as Halloc.
  { intros s0 o st Ho Hs p st' Hp.
    apply lookup_alloc_inv in Hp as [Hp | [_ [= Heq _]]]; [by eapply Hs |].
    by destruct Ho. }
  assert (∀ s e, True → cid_once s → cid_once (add_log e s)) as Hemit by done.
  assert (∀ s g, okf g → cid_once s → cid_once (set_this (g (this s)) s))
    as Hfield.
  { intros s0 g Hg Hs p st Hp. simpl. rewrite Hg. by eapply Hs. }
  assert (∀ s p st, cid_once s → cid_once (settle_deferred p st s))
    as Hsettle.
  { intros s0 p st Hs q st' Hq.
    assert (this (settle_deferred p st s0) = this s0) as ->
      by (unfold settle_deferred; by repeat case_match).
    apply lookup_settle_inv in Hq as [Hq | (x & -> & [= <- _] & Hp)];
      by eapply Hs. }
  assert (holds cid_once getReaderId_) as Hrid.
  { intros s0 Hs. unfold getReaderId_, bind, get. simpl.
    destruct (readerIdPromise_ (this s0)) as [p |] eqn:Hr; [done |].
    simpl. intros q st Hq. simpl in *.
    apply lookup_alloc_inv in Hq as [Hq | [-> _]]; [| done].
    apply Hs in Hq. congruence. }
  assert (∀ o, sensitive o = false → oko o) as Hharmless
    by (by intros o Ho ->).
  apply (reachable_holds cid_once oko (λ _, True) okf); try done.
  - intros s0 p o st Hs Hp Ho q st' Hq. simpl.
    apply lookup_set_cell_inv in Hq as [Hq | [-> [= <- _]]]; [by eapply Hs |].
    by destruct (Ho XCid).
  - intros s0 p src f r q Hs _ _ q' st' Hq. simpl.
    apply lookup_set_cell_inv in Hq as [Hq | [-> [=]]]. by eapply Hs.
  - intros v. by apply (holds_report_view _ oko).
  - intros s0 p src r v Hs _. by apply (holds_fetch _ oko (λ _, True)).
  - intros s0 p src r v Hs _. by apply (holds_apply _ oko okf).
  - intros s0 p src r v Hs _. by apply (holds_pingsend _ oko (λ _, True)).
  - intros t v r [| [| [| p]]] st; simpl; done.
Qed.

(** A pingback is in a state only once the view has been handed to
    analytics. *)
Lemma viewed_evolves s s' :
  evolves (heap s) (heap s') → viewed s → viewed s'.
Proof.
  intros Hev (p & st & Hp). exists p, st.
  eapply evolves_keep; [done | done |]. by intros x.
Qed.

Lemma ping_viewed_reachable s :
  reachable s → quiet pings is_ping s ∨ viewed s.
Proof.
  set (J := λ s, quiet pings is_ping s ∨ viewed s).
  assert (∀ s g, J s → J (set_host g s)) as Hhost by done.
  assert (∀ s o st, True → viewed s →
            viewed (set_heap (heap s ++ [Cell o st]) s)) as Valloc.
  { intros s0 o st _. apply viewed_evolves, evolves_alloc. }
  assert (∀ s o st, pings o = false → J s →
            J (set_heap (heap s ++ [Cell o st]) s)) as Halloc.
  { intros s0 o st Ho [Hs | Hs]; [left; by apply quiet_alloc |].
    right. by apply Valloc. }
  assert (∀ s e, is_ping e = false → J s → J (add_log e s)) as Hemit.
  { intros s0 e He [Hs | Hs]; [left; by apply quiet_emit | by right]. }
  assert (∀ s (g : fields → fields), True → J s →
            J (set_this (g (this s)) s)) as Hfield by done.
  assert (∀ s p st, J s → J (settle_deferred p st s)) as Hsettle.
  { intros s0 p st [Hs | Hs]; [left; by apply quiet_settle |].
    right. eapply viewed_evolves; [apply evolves_settle_deferred | done]. }
  assert (holds J getReaderId_) as Hrid.
  { by apply (holds_reader_id _ (λ o, pings o = false) (λ _, True)). }
  assert (∀ s p o o' st,
            heap s !! p = Some (Cell o Pending) →
            (o' = o ∨ ∀ e, o ≠ OThen analyticsPromise_
                                 (Some (HTriggerEvent e)) None) →
            viewed s → viewed (set_cell p (Cell o' st) s)) as Vset.
  { intros s0 p o o' st Hp Ho (p' & st' & Hp').
    destruct (decide (p' = p)) as [-> | Hne].
    - rewrite Hp in Hp'. injection Hp' as -> <-.
      destruct Ho as [-> | Ho]; [| by destruct (Ho "access-viewed")].
      exists p, st. simpl. apply list_lookup_insert_eq.
      by eapply lookup_lt_Some.
    - exists p', st'. simpl. by rewrite list_lookup_insert_ne. }
  apply (reachable_holds J (λ o, pings o = false) (λ e, is_ping e = false)
           (λ _, True));
    try done.
  - intros s0 p o st [Hs | Hs] Hp _; [left; by apply quiet_set_cell |].
    right. eapply Vset; [done | by left | done].
  - intros s0 p src f r q [Hs | Hs] Hp Hf; [left; by apply quiet_adopt |].
    right. eapply Vset; [done | | done]. right. intros e [= _ -> _].
    by destruct (Hf e).
  - apply sensitive_pings.
  - apply sensitive_is_ping.
  - (* the reaction that reports the view hands it to analytics first *)
    intros v s0 _. right.
    assert (holds viewed (p <- reportViewToServer_ ;; ret (RetPromise p)))
      as Hrest.
    { apply holds_bind; [| by intros p s1].
      apply (holds_reportViewToServer_ viewed (λ _, True)); try done.
      by apply (holds_reader_id viewed (λ _, True) (λ _, True)). }
    simpl. unfold analyticsEvent_, bind at 1 2. simpl.
    apply Hrest. exists (length (heap s0)), Pending. simpl.
    by rewrite list_lookup_middle.
  - intros s0 p src r v Hs _.
    by apply (holds_fetch _ (λ o, pings o = false) (λ e, is_ping e = false));
      [| | | apply sensitive_pings | |].
  - intros s0 p src r v Hs _.
    by apply (holds_apply _ (λ o, pings o = false) (λ _, True));
      [| | | | apply sensitive_pings | | |].
  - intros s0 p src r v [[Hh _] | Hs] Hp; [by apply Hh in Hp |].
    right. simpl. unfold bind. simpl.
    by apply (Valloc (add_log (SendSignal v) s0)).
  - intros t v r. left. by apply quiet_constructed.
Qed.

(** X5. The CID service is asked for the reader id at most once: in every
    state the service can reach there is at most one promise of the CID
    service, and [getReaderId_] returns it without making another; it makes
    the request only when the service holds no reader id promise yet. *)
Theorem reader_id_requested_once s :
  reachable s →
  (∀ p q stp stq,
     heap s !! p = Some (Cell (ODeferred XCid) stp) →
     heap s !! q = Some (Cell (ODeferred XCid) stq) → p = q) ∧
  (∀ p st, heap s !! p = Some (Cell (ODeferred XCid) st) →
           getReaderId_ s = (Ok p, s)) ∧
  (readerIdPromise_ (this s) = None →
   (∀ p c, heap s !! p = Some c → origin_of c ≠ ODeferred XCid) ∧
   ∃ s', getReaderId_ s = (Ok (length (heap s)), s') ∧
         heap s' = heap s ++ [Cell (ODeferred XCid) Pending]).
Proof.
  intros Hs. pose proof (cid_once_reachable s Hs) as Hcid. split_and!.
  - intros p q stp stq Hp Hq. apply Hcid in Hp, Hq. congruence.
  - intros p st Hp. apply Hcid in Hp.
    unfold getReaderId_, bind, get. simpl. by rewrite Hp.
  - intros Hnone. split.
    + intros p [o st] Hp Ho. simpl in Ho. subst o. apply Hcid in Hp.
      congruence.
    + unfold getReaderId_, bind, get. simpl. rewrite Hnone. by eexists.
Qed.

Lemma buildLoginUrls_loop_returns keys s :
  ∃ ps s', buildLoginUrls_loop keys s = (Ok ps, s').
Proof.
  revert s. induction keys as [| [k url] keys IH]; intros s; simpl;
    [by eexists _, _ |].
  unfold bind at 1. unfold buildUrl_, getReaderId_, bind, get. simpl.
  destruct (readerIdPromise_ (this s)); simpl.
  - match goal with |- context [buildLoginUrls_loop keys ?s1] =>
      destruct (IH s1) as (ps & s' & ->) end.
    by eexists _, _.
  - match goal with |- context [buildLoginUrls_loop keys ?s1] =>
      destruct (IH s1) as (ps & s' & ->) end.
    by eexists _, _.
Qed.

Lemma buildLoginUrls_returns s : ∃ r s', buildLoginUrls_ s = (Ok r, s').
Proof.
  unfold buildLoginUrls_. destruct (_ =? _)%nat; [by eexists _, _ |].
  unfold bind.
  destruct (buildLoginUrls_loop_returns (obj_entries (loginMap config_)) s)
    as (ps & s' & ->).
  by eexists _, _.
Qed.

(** With a run that is skipped the first authorization promise is fulfilled
    as soon as the service has started. *)
Lemma started_skipped_first t v r :
  skips_authorization = true →
  pst_of (heap (started t v r)) firstAuthorizationPromise_ = Fulfilled VUndef.
Proof.
  intros Hskip. unfold started, call, startInternal_.
  pose proof (constructed_wf t v r) as Hwf.
  unfold bind at 1.
  destruct (buildLoginUrls_returns (constructed t v r)) as (b & s1 & Hb).
  pose proof (keeps_buildLoginUrls_ _ Hwf) as (Hwf1 & _).
  rewrite Hb in Hwf1 |- *. simpl in Hwf1.
  apply bind_first_fulfilled; [apply keeps_runAuthorization_ | | done |].
  - intros _. apply keeps_scheduleView_.
  - unfold runAuthorization_. rewrite Hskip.
    apply bind_first_fulfilled;
      [apply keeps_firstAuthorizationResolver_ | | done |].
    + intros _. apply keeps_promise_resolve_any.
    + by apply first_resolved.
Qed.

(** X6. When the run is skipped ([type=other] without a usable fallback) the
    service never contacts the authorization endpoint, whatever happens to
    the page (logins and broadcasts included): no fetch is ever issued, no
    response is ever stored, the last authorization promise stays the first
    one, which is fulfilled from the start; so [getAuthdataField] always
    answers [null]. *)
Theorem skipped_authorization_never_fetches s :
  skips_authorization = true → reachable s →
  (∀ u t, FetchJson u t ∉ log s) ∧
  authResponse_ (this s) = None ∧
  lastAuthorizationPromise_ (this s) = firstAuthorizationPromise_ ∧
  pst_of (heap s) firstAuthorizationPromise_ = Fulfilled VUndef ∧
  (∀ field v,
     run_fulfilled (HGetAuthdataField field) v s
       = (Ok (RetVal (VJson JNull)), s)).
Proof.
  intros Hskip Hs.
  destruct (unauthorized_reachable s Hskip Hs) as ([_ Hlog] & Hresp & Hlast).
  split_and!; [| done | done | |].
  - intros u t Hin. by apply Hlog in Hin.
  - destruct Hs as (t & v & r & ls & Hsteps).
    pose proof (steps_advances ls _ _ (started_wf t v r) Hsteps) as Hadv.
    rewrite (advances_pst_of _ _ _ Hadv);
      by rewrite (started_skipped_first t v r Hskip).
  - intros field v. simpl. unfold bind, get. simpl. by rewrite Hresp.
Qed.

(** X7. Without a pingback URL no pingback is ever sent. *)
Theorem no_pingback_without_url s u :
  truthy (pingback config_) = false → reachable s → SendSignal u ∉ log s.
Proof.
  intros Hno Hs Hin. destruct (ping_free_reachable s Hno Hs) as [_ Hlog].
  by apply Hlog in Hin.
Qed.

(** X8. A pingback is sent only after the view has been handed to
    analytics: in every state the service can reach, a pingback in the log
    comes with the reaction that triggers the event [access-viewed],
    attached to the analytics promise. (The event itself is triggered when
    the analytics service is there, which may be later, or never.) *)
Theorem pingback_only_after_view s u :
  reachable s → SendSignal u ∈ log s →
  ∃ p st,
    heap s !! p =
      Some (Cell (OThen analyticsPromise_
                    (Some (HTriggerEvent "access-viewed")) None) st).
Proof.
  intros Hs Hin. destruct (ping_viewed_reachable s Hs) as [[_ Hlog] | Hv];
    [| done].
  by apply Hlog in Hin.
Qed.

(** ** Actions and logins *)

Lemma substring_all s : String.substring 0 (String.length s) s = s.
Proof. induction s as [| c s IH]; simpl; [done | by rewrite IH]. Qed.

Lemma login_variant_prefixed ty : login_variant ("login-" ++ ty) = Some ty.
Proof.
  unfold login_variant.
  assert (String.prefix "login-" ("login-" ++ ty) = true) as ->
    by (simpl; by destruct ty).
  simpl. by rewrite Nat.sub_0_r, substring_all.
Qed.

(** X9. The action handler: the method [login] is the default login, a
    method [login-<type>] is the login of that type (so [login-] is the
    default login too), a user error of the login reaching the caller; any
    other method does nothing. *)
Theorem handleAction_dispatch s :
  handleAction_ "login" s = (login "" ;;; ret tt) s ∧
  (∀ ty, handleAction_ ("login-" ++ ty) s = (login ty ;;; ret tt) s) ∧
  (∀ method, method ≠ "login" → String.prefix "login-" method = false →
             handleAction_ method s = (Ok tt, s)).
Proof.
  split_and!.
  - done.
  - intros ty. unfold handleAction_.
    change (String.eqb ("login-" ++ ty) "login") with false. cbv iota.
    by rewrite login_variant_prefixed.
  - intros method Hne Hpre. unfold handleAction_, login_variant.
    apply String.eqb_neq in Hne. by rewrite Hne, Hpre.
Qed.

(** X10. A login that cannot start throws a user error and changes nothing:
    no dialog, no reaction for analytics, no promise. That is the case, once
    no attempt blocks the call, when [config_.loginMap[type]] is falsy, or
    when [loginUrlMap_[type]] is: the URL has not been built yet. The second
    read is falsy when the URL stored is empty, or when none is stored and
    [Object.prototype] has no property of the name: for [constructor],
    [toString] or [__proto__] the test passes. *)
Theorem login_refused ty s :
  loginPromise_ (this s) = None ∨
  (1000 ≤ now (host s) - loginStartTime_ (this s))%Z →
  value_truthy (obj_get (loginMap config_) ty) = false ∨
  value_truthy (loginUrl_get (loginUrlMap_ (this s)) ty) = false →
  (∃ msg, login ty s = (Throw (UserError msg), s)) ∧
  (value_truthy (loginUrl_get (loginUrlMap_ (this s)) ty) = false ↔
   loginUrlMap_ (this s) !! ty = Some "" ∨
   (loginUrlMap_ (this s) !! ty = None ∧ ty ≠ "__proto__" ∧
    objectPrototypeHas ty = false)).
Proof.
  intros Hfree Hbad. split.
  - unfold login, bind, get. simpl.
    assert (match loginPromise_ (this s) with
            | Some p => if (now (host s) - loginStartTime_ (this s) <? 1000)%Z
                        then Some p else None
            | None => None
            end = None) as ->.
    { destruct (loginPromise_ (this s)); [| done].
      destruct Hfree as [? | Hge]; [done |].
      by apply Z.ltb_ge in Hge as ->. }
    destruct (value_truthy (obj_get (loginMap config_) ty)) eqn:Htr; simpl;
      [| by eexists].
    destruct Hbad as [? | ->]; [done | by eexists].
  - unfold loginUrl_get, proto_get, object_prototype_get.
    destruct (loginUrlMap_ (this s) !! ty) as [url |]; simpl.
    + rewrite negb_false_iff, String.eqb_eq. split; [intros ->; by left |].
      by intros [[= ->] | [? _]].
    + destruct (String.eqb_spec ty "__proto__") as [-> | Hne]; simpl.
      * split; [done | by intros [? | (_ & ? & _)]].
      * destruct (objectPrototypeHas ty); simpl.
        -- split; [done | by intros [? | (_ & _ & ?)]].
        -- split; [by right | done].
Qed.
(** What the failure reaction of a login does (l.793-800). *)
Lemma run_rejected_HLoginFailed ty self e s :
  run_rejected (HLoginFailed ty) self e s =
  (Throw e,
   State (heap s ++ triggers (login_events ty "failed"))
     (if bool_decide (loginPromise_ (this s) = Some self)
      then with_loginPromise_ None (this s) else this s)
     (host s) (log s)).
Proof.
  destruct s as [h f g l]. simpl. unfold bind at 1.
  rewrite loginAnalyticsEvent_triggers. simpl.
  unfold bind, get. simpl.
  by destruct (bool_decide (loginPromise_ f = Some self)).
Qed.

(** X11. A login whose dialog fails lets go of the attempt: the failure
    passes through the reaction to the dialog, the last reaction hands the
    failure to analytics (its reactions are what the heap gains), clears the
    pending login and rejects the promise of the login with the same reason;
    a login called right after, at the same time, is not held back by the
    1000 ms rule and opens a new dialog. *)
Theorem login_failure_releases ty s e :
  loginPromise_ (this s) = None ∨
  (1000 ≤ now (host s) - loginStartTime_ (this s))%Z →
  value_truthy (obj_get (loginMap config_) ty) = true →
  value_truthy (loginUrl_get (loginUrlMap_ (this s)) ty) = true →
  ∃ d s1 s2 s3 s4,
    login ty s = (Ok (S (S d)), s1) ∧
    task (Answered d (Throw e)) s1 = Some s2 ∧
    micro (S d) s2 = Some s3 ∧
    micro (S (S d)) s3 = Some s4 ∧
    pst_of (heap s4) (S (S d)) = Rejected e ∧
    loginPromise_ (this s4) = None ∧
    now (host s4) = now (host s) ∧
    log s4 = log s1 ∧
    drop (length (heap s1)) (heap s4) = triggers (login_events ty "failed") ∧
    ∃ p' s5,
      login ty s4 = (Ok p', s5) ∧ p' ≠ S (S d) ∧
      loginPromise_ (this s5) = Some p' ∧
      log s5 =
        log s4 ++ [OpenLoginDialog (loginUrl_get (loginUrlMap_ (this s)) ty)].
Proof.
  intros Hfree Hcfg Hready.
  destruct (login_attempt ty s Hfree Hcfg Hready)
    as (d & s1 & Hlogin & Hle & Hlen & Hd & Hc & Hf & Hlp & Hst & Hmap &
        Hhost & Hlog).
  exists d, s1.
  (* the dialog fails *)
  destruct (dialog_answered d _ (Throw e) s1 Hd)
    as (s2 & Htask & Hheap2 & Hpst2 & Hthis2 & Hhost2 & Hlog2); [done |].
  simpl in Hpst2.
  (* the reaction to the dialog is passed over *)
  set (s3 := set_cell (S d)
               (Cell (OThen d (Some (HLoginCompleted ty)) None) (Rejected e))
               s2).
  assert (micro (S d) s2 = Some s3) as Hmicro2.
  { assert (heap s2 !! S d =
              Some (Cell (OThen d (Some (HLoginCompleted ty)) None) Pending))
      as Hc2 by (by rewrite Hheap2, list_lookup_insert_ne by lia).
    unfold micro. by rewrite Hc2, Hpst2. }
  exists s2, s3.
  assert (length (heap s2) = length (heap s1)) as Hlen2
    by (by rewrite Hheap2, length_insert).
  (* the failure reaction runs *)
  assert (heap s3 !! S (S d) =
            Some (Cell (OThen (S d) None (Some (HLoginFailed ty))) Pending))
    as Hf3.
  { unfold s3. simpl. rewrite Hheap2.
    by rewrite !list_lookup_insert_ne by lia. }
  assert (pst_of (heap s3) (S d) = Rejected e) as Hc3.
  { unfold s3. simpl.
    rewrite (pst_of_lookup _ _
               (Cell (OThen d (Some (HLoginCompleted ty)) None) (Rejected e)));
      [done |].
    apply list_lookup_insert_eq. lia. }
  assert (this s3 = this s1 ∧ host s3 = host s1 ∧ log s3 = log s1 ∧
          length (heap s3) = length (heap s1))
    as (Hthis3 & Hhost3 & Hlog3 & Hlen3).
  { unfold s3. simpl. by rewrite length_insert. }
  set (s4 := conclude (S (S d)) (OThen (S d) None (Some (HLoginFailed ty)))
               (run_rejected (HLoginFailed ty) (S (S d)) e s3)).
  assert (micro (S (S d)) s3 = Some s4) as Hmicro3
    by (unfold micro; by rewrite Hf3, Hc3).
  exists s4.
  assert (heap s4 =
            <[S (S d) := Cell (OThen (S d) None (Some (HLoginFailed ty)))
                           (Rejected e)]>
              (heap s3 ++ triggers (login_events ty "failed")) ∧
          this s4 = with_loginPromise_ None (this s1) ∧
          host s4 = host s1 ∧ log s4 = log s1)
    as (Hheap4 & Hthis4 & Hhost4 & Hlog4).
  { unfold s4. rewrite run_rejected_HLoginFailed.
    rewrite Hthis3, Hhost3, Hlog3, Hlp.
    by rewrite bool_decide_eq_true_2 by done. }
  split_and!; try done.
  - rewrite (pst_of_lookup _ _
               (Cell (OThen (S d) None (Some (HLoginFailed ty)))
                  (Rejected e))); [done |].
    rewrite Hheap4. apply list_lookup_insert_eq. rewrite length_app. lia.
  - by rewrite Hthis4.
  - by rewrite Hhost4, Hhost.
  - rewrite Hheap4, drop_insert_lt by lia.
    rewrite <- Hlen3. by rewrite drop_app_length.
  - destruct (login_attempt ty s4) as
      (d5 & s5 & Hlogin5 & Hle5 & _ & _ & _ & _ & Hlp5 & _ & _ & _ & Hlog5).
    + left. by rewrite Hthis4.
    + done.
    + rewrite Hthis4. simpl. by rewrite Hmap.
    + exists (S (S d5)), s5. split_and!; try done.
      * assert (length (heap s1) ≤ length (heap s4))%nat.
        { rewrite Hheap4, length_insert, length_app. lia. }
        lia.
      * rewrite Hlog5, Hthis4. simpl. by rewrite Hmap.
Qed.

(** X12. When the dialog of a login returns, the reaction clears the
    pending login whatever it reads, also when a newer attempt has taken its
    place (l.774); the failure reaction clears it only when the attempt that
    failed is still the pending one (l.796). *)
Theorem login_completion_clears_pending ty arg self e s :
  loginPromise_ (this (snd (run_fulfilled (HLoginCompleted ty) arg s))) = None ∧
  (loginPromise_ (this s) ≠ Some self →
   loginPromise_ (this (snd (run_rejected (HLoginFailed ty) self e s)))
     = loginPromise_ (this s)) ∧
  (loginPromise_ (this s) = Some self →
   loginPromise_ (this (snd (run_rejected (HLoginFailed ty) self e s)))
     = None).
Proof.
  split_and!.
  - set (I := λ s : state, loginPromise_ (this s) = None).
    set (okf := λ g : fields → fields,
           ∀ f, loginPromise_ (g f) = loginPromise_ f).
    assert (∀ s g, I s → I (set_host g s)) as Hhost by done.
    assert (∀ s o st, True → I s → I (set_heap (heap s ++ [Cell o st]) s))
      as Halloc by done.
    assert (∀ s e, True → I s → I (add_log e s)) as Hemit by done.
    assert (∀ s g, okf g → I s → I (set_this (g (this s)) s)) as Hfield.
    { intros s0 g Hg Hs. unfold I. simpl. by rewrite Hg. }
    assert (∀ s p st, I s → I (settle_deferred p st s)) as Hsettle.
    { intros s0 p st Hs. unfold I, settle_deferred. by repeat case_match. }
    assert (holds I getReaderId_) as Hrid
      by (by apply (holds_reader_id I (λ _, True) okf)).
    simpl. cbv zeta.
    match goal with
    | |- context [bind (set_field ?g) (λ _, ?rest)] =>
        assert (holds I rest) as Hrest
    end.
    { apply holds_bind;
        [by apply (holds_loginAnalyticsEvent_ I (λ _, True)) | intros _].
      destruct (_ || _); [| apply holds_ret].
      apply holds_bind;
        [by apply (holds_broadcastReauthorize_ I (λ _, True)) | intros _].
      apply holds_bind;
        [by apply (holds_runAuthorization_ I (λ _, True) okf) | intros p].
      apply holds_bind; [by apply (holds_alloc I (λ _, True)) | intros q].
      apply holds_ret. }
    by apply (Hrest (set_this (with_loginPromise_ None (this s)) s)).
  - intros Hne. rewrite run_rejected_HLoginFailed. simpl.
    by rewrite bool_decide_eq_false_2.
  - intros Heq. rewrite run_rejected_HLoginFailed. simpl.
    by rewrite bool_decide_eq_true_2.
Qed.

(** ** The view *)

(** An armed wait stays armed when promises, listeners and timers are only
    added. *)
Lemma armed_grows s s' p n dl :
  armed s p n dl →
  (∃ cs, heap s' = heap s ++ cs) →
  (∀ e, e ∈ listeners (host s) → e ∈ listeners (host s')) →
  (∀ e, e ∈ timers (host s) → e ∈ timers (host s')) →
  armed s' p n dl.
Proof.
  intros (Hp & Hq & H1 & H2 & H3 & H4) [cs Hh] Hl Ht.
  split_and!; auto; rewrite Hh; by apply lookup_app_l_Some.
Qed.

(** X13. [scheduleView_] forgets the pending report and starts over, but it
    cancels nothing: a wait that is armed stays armed, so an earlier wait can
    still report its view. While the document is hidden or not ready it
    starts no wait (no promise, no timer); when the document is ready and
    visible it leaves a report pending. *)
Theorem scheduleView_cancels_nothing t s :
  fst (scheduleView_ t s) = Ok tt ∧
  (∀ p n dl, armed s p n dl → armed (snd (scheduleView_ t s)) p n dl) ∧
  (docReady (host s) = false ∨ visible (host s) = false →
   heap (snd (scheduleView_ t s)) = heap s ∧
   timers (host (snd (scheduleView_ t s))) = timers (host s) ∧
   reportViewPromise_ (this (snd (scheduleView_ t s))) = None) ∧
  (docReady (host s) = true → visible (host s) = true →
   ∃ p src,
     reportViewPromise_ (this (snd (scheduleView_ t s))) = Some p ∧
     (length (heap s) ≤ p)%nat ∧
     heap (snd (scheduleView_ t s)) !! p =
       Some (Cell (OThen src None (Some HViewCanceled)) Pending)).
Proof.
  unfold scheduleView_, scheduleView_ready, reportWhenViewed_, whenViewed_,
    bind, get, set_field, modify.
  simpl.
  destruct (docReady (host s)) eqn:Hready; simpl;
    [destruct (visible (host s)) eqn:Hvis; simpl;
     [destruct (t =? 0)%Z eqn:Ht; simpl |] |].
  all: split; [done |]; split;
    [intros p n dl Ha; apply (armed_grows s); [done | | |]; simpl |].
  all: try (intros e He; set_solver).
  all: try (by eexists []; rewrite app_nil_r).
  all: try (rewrite <- !app_assoc; by eexists).
  all: split; [by intros [? | ?] |]; try done.
  all: intros _ _; eexists _, _; split; [reflexivity |].
  all: split; [rewrite !length_app; simpl; lia |].
  all: apply lookup_app_l_Some; by rewrite list_lookup_middle.
Qed.

(** A visibility listener called while the document is visible: it returns,
    it changes nothing when a report is pending, and the listener of
    [scheduleView_] leaves a report pending. *)
Lemma fire_visible l s :
  visible (host s) = true → listens_to l = SVisibility →
  ∃ s', fire l s = (Ok tt, s') ∧ visible (host s') = true ∧
        (reportViewPromise_ (this s) ≠ None → s' = s) ∧
        ((∃ t, l = LScheduleView t) → reportViewPromise_ (this s') ≠ None).
Proof.
  intros Hvis Hl. destruct l as [t | p | p | p]; try done; simpl;
    unfold bind, get; simpl; rewrite Hvis; simpl.
  - unfold reportWhenViewed_, bind, get. simpl.
    destruct (reportViewPromise_ (this s)) as [p |] eqn:Hr; simpl.
    + exists s. split_and!; try done. intros _. by rewrite Hr.
    + unfold whenViewed_. destruct (t =? 0)%Z; simpl;
        eexists; (split; [reflexivity |]); simpl; split_and!; done.
  - exists s. split_and!; try done. by intros [t [=]].
Qed.

Lemma forEach_fire_visible (ls : list (nat * listener)) s :
  visible (host s) = true →
  (∀ e, e ∈ ls → listens_to (snd e) = SVisibility) →
  ∃ s', forEach (λ e, fire (snd e)) ls s = (Ok tt, s') ∧
        visible (host s') = true ∧
        (reportViewPromise_ (this s) ≠ None → s' = s) ∧
        ((∃ h t, (h, LScheduleView t) ∈ ls) →
         reportViewPromise_ (this s') ≠ None).
Proof.
  revert s. induction ls as [| e ls IH]; intros s Hvis Hls; simpl.
  - exists s. split_and!; try done. intros (h & t & Hin).
    by apply elem_of_nil in Hin.
  - destruct (fire_visible (snd e) s Hvis) as (s1 & Hf & Hvis1 & Hsame1 & Hnew1);
      [apply Hls; by left |].
    destruct (IH s1 Hvis1) as (s2 & Hf2 & Hvis2 & Hsame2 & Hnew2);
      [intros e' He'; apply Hls; by right |].
    exists s2. unfold bind. rewrite Hf, Hf2. split_and!; try done.
    + intros Hr. rewrite <- (Hsame1 Hr) in Hr |- *. by apply Hsame2.
    + intros (h & t & Hin). apply elem_of_cons in Hin as [<- | Hin].
      * assert (reportViewPromise_ (this s1) ≠ None) as Hr1
          by (apply Hnew1; by eexists).
        by rewrite (Hsame2 Hr1).
      * apply Hnew2. by exists h, t.
Qed.

(** X14. When the document becomes visible, the listeners that
    [scheduleView_] registered start the report of the view if none is
    pending, and only then: with a report pending nothing changes but the
    visibility. A report that was canceled is not pending any more (the
    reaction of l.629 clears it), so it is started again. *)
Theorem visible_starts_one_report s :
  (∀ p, reportViewPromise_ (this s) = Some p →
        task (VisibilityChanged true) s
          = Some (set_host (with_visible true (host s)) s)) ∧
  (∀ h t, reportViewPromise_ (this s) = None →
          (h, LScheduleView t) ∈ listeners (host s) →
          ∃ s', task (VisibilityChanged true) s = Some s' ∧
                reportViewPromise_ (this s') ≠ None) ∧
  (∀ self e,
     run_rejected HViewCanceled self e s
       = (Throw e, set_this (with_reportViewPromise_ None (this s)) s)).
Proof.
  assert (∀ s0 : state, visible (host s0) = true →
            ∃ s', dispatch SVisibility s0 = (Ok tt, s') ∧
                  (reportViewPromise_ (this s0) ≠ None → s' = s0) ∧
                  ((∃ h t, (h, LScheduleView t) ∈ listeners (host s0)) →
                   reportViewPromise_ (this s') ≠ None)) as Hdispatch.
  { intros s0 Hvis. unfold dispatch, bind, get. simpl.
    destruct (forEach_fire_visible
                (filter (λ e, listens_to (snd e) = SVisibility)
                   (listeners (host s0))) s0 Hvis)
      as (s' & Hf & _ & Hsame & Hnew).
    { intros e He. by apply list_elem_of_filter in He as [? _]. }
    exists s'. split_and!; try done.
    intros (h & t & Hin). apply Hnew. exists h, t.
    by apply list_elem_of_filter. }
  split_and!.
  - intros p Hp. simpl. unfold call, bind. simpl.
    destruct (Hdispatch (set_host (with_visible true (host s)) s) eq_refl)
      as (s' & -> & Hsame & _).
    simpl. rewrite Hsame; [done |]. simpl. by rewrite Hp.
  - intros h t Hnone Hin. eexists. split; [reflexivity |].
    unfold call, bind. simpl.
    destruct (Hdispatch (set_host (with_visible true (host s)) s) eq_refl)
      as (s' & -> & _ & Hnew).
    simpl. apply Hnew. by exists h, t.
  - done.
Qed.

(** ** The response and the login URLs *)

(** X15. The reaction to an authorization response (l.407-417): the
    response is stored, the loading and the error classes are removed, the
    login URLs are built again, and the run goes on with the promise of the
    applier, which is pending. *)
Theorem authorization_response_applied v s :
  ∃ p,
    fst (run_fulfilled HAuthApply v s) = Ok (RetPromise p) ∧
    heap (snd (run_fulfilled HAuthApply v s)) !! p =
      Some (Cell (ODeferred (XApply v)) Pending) ∧
    authResponse_ (this (snd (run_fulfilled HAuthApply v s))) = as_json v ∧
    classes (host (snd (run_fulfilled HAuthApply v s))) =
      classes (host s) ∖ {["amp-access-loading"]} ∖ {["amp-access-error"]} ∧
    ∃ s2 built s3,
      authResponse_ (this s2) = as_json v ∧
      buildLoginUrls_ s2 = (Ok built, s3) ∧
      heap (snd (run_fulfilled HAuthApply v s)) =
        heap s3 ++ [Cell (ODeferred (XApply v)) Pending].
Proof.
  set (a := snd ((setAuthResponse_ v ;;;
                  toggleTopClass_ "amp-access-loading" false ;;;
                  toggleTopClass_ "amp-access-error" false) s)).
  set (I := λ x : state,
         host x = host a ∧ authResponse_ (this x) = as_json v).
  assert (I a) as Ha.
  { split; [done |]. unfold a, setAuthResponse_, firstAuthorizationResolver_,
      resolver, toggleTopClass_, set_page, set_field, modify, bind,
      settle_deferred.
    simpl. by repeat case_match. }
  assert (∀ s o st, True → I s → I (set_heap (heap s ++ [Cell o st]) s))
    as Halloc by done.
  assert (∀ s g, (∀ f, authResponse_ (g f) = authResponse_ f) → I s →
            I (set_this (g (this s)) s)) as Hfield.
  { intros s0 g Hg [? ?]. split; [done |]. simpl. by rewrite Hg. }
  assert (holds I getReaderId_) as Hrid
    by (by apply (holds_reader_id I (λ _, True)
                    (λ g, ∀ f, authResponse_ (g f) = authResponse_ f))).
  pose proof (holds_buildLoginUrls_ I (λ _, True) Halloc
                ltac:(done) Hrid a Ha) as Hb.
  destruct (buildLoginUrls_returns a) as (built & s3 & Hbuilt).
  rewrite Hbuilt in Hb. simpl in Hb. destruct Hb as [Hhost Hresp].
  assert (run_fulfilled HAuthApply v s =
            (Ok (RetPromise (length (heap s3))),
             set_heap (heap s3 ++ [Cell (ODeferred (XApply v)) Pending]) s3))
    as Hrun.
  { simpl.
    unfold setAuthResponse_, firstAuthorizationResolver_, resolver,
      toggleTopClass_, set_page, set_field, modify, bind.
    simpl. change (buildLoginUrls_ _) with (buildLoginUrls_ a).
    by rewrite Hbuilt. }
  rewrite Hrun. simpl.
  exists (length (heap s3)). split_and!; try done.
  - by rewrite list_lookup_middle.
  - rewrite Hhost. unfold a, setAuthResponse_, firstAuthorizationResolver_,
      resolver, toggleTopClass_, set_page, set_field, modify, bind,
      settle_deferred.
    simpl. by repeat case_match.
  - exists a, built, s3. split_and!; try done. by destruct Ha.
Qed.

(** X16. Once the URL of the login [k] has been built, the reaction of
    l.830 stores it under [k] and leaves the other URLs as they were; a
    login of that type then opens its dialog with this URL. The key
    [__proto__] is the exception: a string assigned to it is dropped by the
    setter of [Object.prototype], and the URLs stay as they were. *)
Theorem login_url_ready k loginUrl s :
  value_truthy (obj_get (loginMap config_) k) = true →
  loginUrl ≠ "" →
  loginPromise_ (this s) = None ∨
  (1000 ≤ now (host s) - loginStartTime_ (this s))%Z →
  ∃ s1,
    run_fulfilled (HLoginUrl k) (VStr loginUrl) s =
      (Ok (RetVal (VJson (JObj [("type", JStr k); ("url", JStr loginUrl)]))),
       s1) ∧
    (k ≠ "__proto__" → loginUrlMap_ (this s1) !! k = Some loginUrl) ∧
    (k = "__proto__" → loginUrlMap_ (this s1) = loginUrlMap_ (this s)) ∧
    (∀ k', k' ≠ k →
           loginUrlMap_ (this s1) !! k' = loginUrlMap_ (this s) !! k') ∧
    (k ≠ "__proto__" →
     ∃ p s2,
       login k s1 = (Ok p, s2) ∧
       heap s2 !! (length (heap s) + length (login_events k "started"))%nat =
         Some (Cell (ODeferred (XDialog (VStr loginUrl))) Pending) ∧
       log s2 = log s ++ [OpenLoginDialog (VStr loginUrl)]).
Proof.
  intros Hcfg Hne Hfree.
  set (s1 := set_this
               (with_loginUrlMap_
                  (loginUrl_set k loginUrl (loginUrlMap_ (this s))) (this s))
               s).
  exists s1. split; [reflexivity |].
  assert (loginUrlMap_ (this s1) =
          loginUrl_set k loginUrl (loginUrlMap_ (this s))) as Hmap by done.
  rewrite Hmap. unfold loginUrl_set.
  destruct (String.eqb_spec k "__proto__") as [-> | Hk].
  { by split_and!. }
  split_and!; try done.
  - intros _. by rewrite lookup_insert_eq.
  - intros k' Hk'. by rewrite lookup_insert_ne.
  - intros _.
    assert (loginUrl_get (loginUrlMap_ (this s1)) k = VStr loginUrl) as Hget.
    { rewrite Hmap. unfold loginUrl_get, loginUrl_set.
      apply String.eqb_neq in Hk as ->. by rewrite lookup_insert_eq. }
    destruct (login_starts k s1)
      as (s2 & Hlogin & Hheap & _ & _ & _ & _ & Hlog); try done.
    + rewrite Hget. simpl. by apply negb_true_iff, String.eqb_neq.
    + rewrite Hget in Hheap, Hlog.
      change (heap s1) with (heap s) in Hheap.
      change (log s1) with (log s) in Hlog.
      eexists _, s2. split_and!; [exact Hlogin | | done].
      rewrite Hheap, <- (length_triggers (login_events k "started")).
      apply lookup_app_3.
Qed.

(** ** The attributes of an element *)

(** X17. [applyAuthorizationAttrs_] schedules no mutation when the element
    is already shown or hidden as [on] says; otherwise it schedules one that,
    whenever it runs and whatever the element has become, leaves the element
    hidden exactly when [on] is false and touches no other attribute; run a
    second time it changes nothing more. *)
Theorem applyAuthorizationAttrs_shows_iff_on element on :
  match applyAuthorizationAttrs_ element on with
  | None => hasAttribute element "amp-access-hide" = negb on
  | Some mutate =>
      hasAttribute element "amp-access-hide" = on ∧
      ∀ later,
        hasAttribute (mutate later) "amp-access-hide" = negb on ∧
        (∀ name, name ≠ "amp-access-hide" →
                 mutate later !! name = later !! name) ∧
        mutate (mutate later) = mutate later ∧
        applyAuthorizationAttrs_ (mutate later) on = None
  end.
Proof.
  unfold applyAuthorizationAttrs_.
  destruct (hasAttribute element "amp-access-hide") eqn:Hhas, on; simpl;
    try done.
  - split; [done |]. intros later.
    assert (hasAttribute (delete "amp-access-hide" later) "amp-access-hide"
              = false) as Hgone.
    { unfold hasAttribute. apply bool_decide_eq_false_2.
      rewrite lookup_delete_eq. by intros [? ?]. }
    split_and!; [done | | |].
    + intros name Hname. by rewrite lookup_delete_ne.
    + apply delete_id. by rewrite lookup_delete_eq.
    + by rewrite Hgone.
  - split; [done |]. intros later.
    assert (hasAttribute (<["amp-access-hide" := ""]> later) "amp-access-hide"
              = true) as Hset.
    { unfold hasAttribute. apply bool_decide_eq_true_2.
      rewrite lookup_insert_eq. by eexists. }
    split_and!; [done | | |].
    + intros name Hname. by rewrite lookup_insert_ne.
    + apply insert_insert_eq.
    + by rewrite Hset.
Qed.

(** ** The start of the service *)

(** A run trips no assertion when an authorization URL is configured or the
    type is [other]; it then leaves the page as it was, but for the
    classes. *)
Lemma runAuthorization_page d s :
  truthy (authorization config_) = true ∨ type config_ = OTHER →
  ∃ p s', runAuthorization_ d s = (Ok p, s') ∧
          host s' = with_classes (classes (host s')) (host s) ∧
          reportViewPromise_ (this s') = reportViewPromise_ (this s).
Proof.
  intros Hcfg. unfold runAuthorization_.
  destruct skips_authorization eqn:Hskip.
  - unfold firstAuthorizationResolver_, resolver, modify, bind,
      settle_deferred. simpl.
    eexists _, _. split; [reflexivity |]. simpl.
    by repeat case_match; destruct s as [? ? [] ?].
  - assert (truthy (authorization config_) = false →
            bool_decide (type config_ = OTHER) = true ∧
            isProxyOrigin_ = false ∧
            truthy (authorizationFallbackResponse config_) = true)
      as Hother.
    { intros Hf. destruct Hcfg as [Hc | Hc]; [congruence |].
      unfold skips_authorization in Hskip.
      rewrite bool_decide_eq_true_2 in Hskip |- *; [| done | done].
      simpl in Hskip. apply orb_false_iff in Hskip as [Hfb Hpr].
      by apply negb_false_iff in Hfb. }
    unfold buildUrl_, getReaderId_, toggleTopClass_, set_page, set_field,
      modify, dev_assert, promise_resolve, alloc, then_, bind, get.
    destruct (authorization config_) as [url |] eqn:Hurl;
      [destruct (truthy (Some url)) eqn:Htr |].
    + simpl. destruct (readerIdPromise_ (this s)); simpl;
        eexists _, _; (split; [reflexivity |]); simpl;
        by destruct s as [? ? [] ?].
    + destruct Hother as (-> & -> & ->); [done |]. simpl.
      eexists _, _; (split; [reflexivity |]); simpl;
        by destruct s as [? ? [] ?].
    + destruct Hother as (-> & -> & ->); [done |]. simpl.
      eexists _, _; (split; [reflexivity |]); simpl;
        by destruct s as [? ? [] ?].
Qed.

(** Without an authorization URL and with a type other than [other] the run
    trips the assertion of l.403. *)
Lemma runAuthorization_asserts d s :
  truthy (authorization config_) = false → type config_ ≠ OTHER →
  ∃ e s', runAuthorization_ d s = (Throw e, s').
Proof.
  intros Hf Hty. unfold runAuthorization_, skips_authorization.
  rewrite bool_decide_eq_false_2; [| done]. simpl.
  unfold toggleTopClass_, set_page, modify, dev_assert, bind. simpl.
  destruct (authorization config_) as [url |]; [rewrite Hf |];
    simpl; by eexists _, _.
Qed.

Lemma buildLoginUrls_page s :
  ∃ b s', buildLoginUrls_ s = (Ok b, s') ∧ host s' = host s ∧
          reportViewPromise_ (this s') = reportViewPromise_ (this s).
Proof.
  destruct (buildLoginUrls_returns s) as (b & s' & Hb).
  set (I := λ x : state,
         host x = host s ∧
         reportViewPromise_ (this x) = reportViewPromise_ (this s)).
  assert (∀ s o st, True → I s → I (set_heap (heap s ++ [Cell o st]) s))
    as Halloc by done.
  assert (∀ s g, (∀ f, reportViewPromise_ (g f) = reportViewPromise_ f) →
            I s → I (set_this (g (this s)) s)) as Hfield.
  { intros s0 g Hg [? ?]. split; [done |]. simpl. by rewrite Hg. }
  assert (holds I getReaderId_) as Hrid
    by (by apply (holds_reader_id I (λ _, True)
            (λ g, ∀ f, reportViewPromise_ (g f) = reportViewPromise_ f))).
  pose proof (holds_buildLoginUrls_ I (λ _, True) Halloc
                ltac:(done) Hrid s ltac:(done)) as HI.
  rewrite Hb in HI. exists b, s'. by destruct HI.
Qed.

(** What [scheduleView_] leaves on a document that is ready and visible: a
    wait armed for [t] from now, and its report pending. *)
Lemma scheduleView_arms t s :
  t ≠ 0%Z → docReady (host s) = true → visible (host s) = true →
  armed (snd (scheduleView_ t s)) (length (heap s)) (nextHandle (host s))
    (now (host s) + t) ∧
  is_Some (reportViewPromise_ (this (snd (scheduleView_ t s)))).
Proof.
  intros Ht Hready Hvis.
  unfold scheduleView_, scheduleView_ready, reportWhenViewed_, whenViewed_,
    bind, get, set_field, modify.
  simpl. rewrite Hready. simpl. rewrite Hvis. simpl.
  apply Z.eqb_neq in Ht as ->. simpl.
  rewrite !length_app. simpl. rewrite !Nat.add_1_r.
  split; [| by eexists].
  split_and!; simpl.
  - do 5 apply lookup_app_l_Some. by rewrite list_lookup_middle.
  - do 4 apply lookup_app_l_Some.
    by rewrite list_lookup_middle; [| rewrite length_app; simpl; lia].
  - set_solver.
  - set_solver.
  - set_solver.
  - set_solver.
Qed.

(** X18. What [startInternal_] leaves behind, for every configuration
    whose first run trips no assertion (an authorization URL is configured,
    or the type is [other]): on a document that is ready and visible the
    view wait is armed for 2000 ms, with its report pending; otherwise no
    timer is set and no report is pending: a document that is ready but
    hidden has the visibility listener of [scheduleView_], one that is not
    ready yet has the view scheduled for when it is. *)
Theorem start_schedules_view t :
  truthy (authorization config_) = true ∨ type config_ = OTHER →
  (∃ p n, armed (started t true true) p n (t + VIEW_TIMEOUT) ∧
          is_Some (reportViewPromise_ (this (started t true true)))) ∧
  (timers (host (started t false true)) = [] ∧
   reportViewPromise_ (this (started t false true)) = None ∧
   listeners (host (started t false true)) = [(0%nat, LScheduleView VIEW_TIMEOUT)]) ∧
  (∀ v, timers (host (started t v false)) = [] ∧
        reportViewPromise_ (this (started t v false)) = None ∧
        listeners (host (started t v false)) = [] ∧
        docReadyCallbacks (host (started t v false)) = [VIEW_TIMEOUT]).
Proof.
  intros Hcfg.
  assert (∀ v r, ∃ s2,
            started t v r = snd (scheduleView_ VIEW_TIMEOUT s2) ∧
            host s2 = with_classes (classes (host s2))
                        (host (constructed t v r))) as Hstart.
  { intros v r. unfold started, call, startInternal_.
    destruct (buildLoginUrls_page (constructed t v r))
      as (b & s1 & Hb & Hhost1 & _).
    destruct (runAuthorization_page false s1 Hcfg)
      as (p & s2 & Hrun & Hhost2 & _).
    exists s2. unfold bind. rewrite Hb, Hrun. split; [done |].
    by rewrite Hhost2, Hhost1. }
  split; [| split].
  - destruct (Hstart true true) as (s2 & -> & Hhost).
    destruct (scheduleView_arms VIEW_TIMEOUT s2) as [Harmed Hsome];
      [done | by rewrite Hhost | by rewrite Hhost |].
    exists (length (heap s2)), (nextHandle (host s2)).
    split; [| done].
    assert (now (host s2) = t) as Hnow by (by rewrite Hhost).
    by rewrite Hnow in Harmed.
  - destruct (Hstart false true) as (s2 & -> & Hhost).
    assert (docReady (host s2) = true ∧ visible (host s2) = false ∧
            timers (host s2) = [] ∧ listeners (host s2) = [] ∧
            nextHandle (host s2) = 0%nat) as (Hr & Hv & Ht & Hl & Hn)
      by (by rewrite Hhost).
    unfold scheduleView_, scheduleView_ready, listen, bind, get, set_field,
      set_page, modify.
    simpl. rewrite Hr. simpl. rewrite Hv. simpl.
    by rewrite Ht, Hl, Hn.
  - intros v. destruct (Hstart v false) as (s2 & -> & Hhost).
    assert (docReady (host s2) = false ∧ timers (host s2) = [] ∧
            listeners (host s2) = [] ∧ docReadyCallbacks (host s2) = [])
      as (Hr & Ht & Hl & Hc) by (by rewrite Hhost).
    unfold scheduleView_, bind, get, set_field, set_page, modify.
    simpl. rewrite Hr. simpl.
    by rewrite Ht, Hl, Hc.
Qed.

End Service.

(** ** Examples on the concrete page *)

Local Open Scope list_scope.

(** The page of the examples: loaded at time 0, visible and ready; the
    reader id (3) and the URLs of the login (19) and of the authorization
    (20) get resolved. *)
Abbreviation demo_run config ls :=
  (run (imports := demo_imports) config false "https://pub.example" 50 ls
     (started config false 0 true true)).

Abbreviation demo_steps config ls s :=
  (steps (imports := demo_imports) config false "https://pub.example" ls s).

Abbreviation demo_resolve_urls :=
  [Answered 3 (Ok (VStr "reader"));
   Answered 19 (Ok (VStr "https://pub.example/login?rid=reader"));
   Answered 20 (Ok (VStr "https://pub.example/auth?rid=reader"))].

Abbreviation demo_response := (VJson (JObj [("subscriber", JBool true)])).

(** The fetch (21) answers, and the response is applied (25). *)
Abbreviation demo_authorized :=
  (demo_resolve_urls ++
   [Answered 21 (Ok demo_response); Answered 25 (Ok VUndef)])%list.

Abbreviation demo_fetch_fails :=
  (demo_resolve_urls ++ [Answered 21 (Throw (Failure "network"))])%list.

Abbreviation demo_reauthorize :=
  (BroadcastReceived "amp-access-reauthorize" "https://pub.example").

Abbreviation demo_task config l s :=
  (task (imports := demo_imports) config false "https://pub.example" l s).

Abbreviation demo_micro config p s :=
  (micro (imports := demo_imports) config false "https://pub.example" p s).

Abbreviation demo_login ty s :=
  (login (imports := demo_imports) demo_client ty s).

(** After a successful run the last authorization promise is settled, and
    so is the first. *)
Lemma lastAuthorization_never_before_first_witness :
  ∃ s, demo_run demo_client demo_authorized = Some s ∧
       pst_of (heap s) (lastAuthorizationPromise_ (this s)) ≠ Pending ∧
       pst_of (heap s) firstAuthorizationPromise_ = Fulfilled VUndef.
Proof.
  let os := eval vm_compute in (demo_run demo_client demo_authorized) in
  match os with
  | Some ?s =>
      exists s; split; [vm_compute; reflexivity |];
      split; [vm_compute; discriminate |];
      refine (proj1 (proj2
                (lastAuthorization_never_before_first
                   (imports := demo_imports) demo_client false
                   "https://pub.example" s _)) _);
      [apply (run_reachable demo_client false "https://pub.example" 0 true
                true 50 demo_authorized); vm_compute; reflexivity
      |vm_compute; discriminate]
  end.
Defined.

(** C1 as stated fails in its last part: a consumer observes the effects of
    a later run while the very first run has not settled. The fetch of the
    first run (21) gets no answer; a re-authorization broadcast starts a
    second run, whose URL (28), fetch (29) and application (33) are
    answered. The second run resolves the first authorization promise, its
    join (27) is fulfilled, and [getAuthdataField] (36) answers from the
    response of the second run, while the promise of the first run (11) and
    its join (12) are still pending. *)
Lemma later_run_observed_before_first_run_settles :
  ∃ s, demo_run demo_client
         (demo_resolve_urls ++
          [demo_reauthorize;
           Answered 28 (Ok (VStr "https://pub.example/auth?rid=reader"));
           Answered 29 (Ok demo_response);
           Answered 33 (Ok VUndef);
           CallGetAuthdataField "subscriber"]) = Some s ∧
       heap s !! 21%nat =
         Some (Cell (ODeferred
                       (XFetch (VStr "https://pub.example/auth?rid=reader")))
                 Pending) ∧
       heap s !! 11%nat =
         Some (Cell (OThen 10 None (Some HAuthFailed)) Pending) ∧
       heap s !! 12%nat =
         Some (Cell (OAll [firstAuthorizationPromise_; 11%nat]) Pending) ∧
       pst_of (heap s) firstAuthorizationPromise_ = Fulfilled VUndef ∧
       lastAuthorizationPromise_ (this s) = 27%nat ∧
       heap s !! 27%nat =
         Some (Cell (OAll [firstAuthorizationPromise_; 26%nat])
                 (Fulfilled (VArr [VUndef; VUndef]))) ∧
       heap s !! 36%nat =
         Some (Cell (OThen 27 (Some (HGetAuthdataField "subscriber")) None)
                 (Fulfilled (VJson (JBool true)))) ∧
       quiescent s = true.
Proof.
  eexists. split; [vm_compute; reflexivity |].
  split_and!; vm_compute; reflexivity.
Qed.

(** After a successful run the resolver of the first promise is a no-op. *)
Lemma firstAuthorization_resolves_once_witness :
  ∃ s, demo_run demo_client demo_authorized = Some s ∧
       pst_of (heap s) firstAuthorizationPromise_ = Fulfilled VUndef ∧
       firstAuthorizationResolver_ s = (Ok tt, s).
Proof.
  let os := eval vm_compute in (demo_run demo_client demo_authorized) in
  match os with
  | Some ?s =>
      exists s; split; [vm_compute; reflexivity |];
      split; [vm_compute; reflexivity |];
      refine (proj1
                (firstAuthorization_resolves_once (imports := demo_imports)
                   demo_client false "https://pub.example" s VUndef _ _));
      [apply (run_reachable demo_client false "https://pub.example" 0 true
                true 50 demo_authorized); vm_compute; reflexivity
      |vm_compute; reflexivity]
  end.
Defined.

(** C3 as stated fails: with no fallback configured, a fetch that fails
    ends the run (its promise, 11, is fulfilled) with the error class set,
    and the first authorization promise is still pending when no microtask
    is left: nothing resolves it until a later run gets a response. *)
Lemma authorization_failure_leaves_first_pending :
  ∃ s, demo_run demo_client demo_fetch_fails = Some s ∧
       truthy (authorizationFallbackResponse demo_client) = false ∧
       "amp-access-error" ∈ classes (host s) ∧
       pst_of (heap s) 11 = Fulfilled VUndef ∧
       pst_of (heap s) firstAuthorizationPromise_ = Pending ∧
       pst_of (heap s) (lastAuthorizationPromise_ (this s)) = Pending ∧
       quiescent s = true.
Proof.
  eexists. split; [vm_compute; reflexivity |].
  split_and!; vm_compute; reflexivity.
Qed.

(** The fetch (21) fails and the promise that follows it (8) is rejected:
    the three reactions of the run (9, 10, 11) show the error and leave the
    first authorization promise pending. *)
Lemma authorization_failure_shows_error_witness :
  ∃ s0 s,
    demo_run demo_client demo_resolve_urls = Some s0 ∧
    demo_steps demo_client
      [Answered 21 (Throw (Failure "network")); Micro 8] s0 = Some s ∧
    pst_of (heap s) 8 = Rejected (Failure "network") ∧
    ∃ s1 s2 s3,
      micro (imports := demo_imports) demo_client false "https://pub.example"
        9 s = Some s1 ∧
      micro (imports := demo_imports) demo_client false "https://pub.example"
        10 s1 = Some s2 ∧
      micro (imports := demo_imports) demo_client false "https://pub.example"
        11 s2 = Some s3 ∧
      pst_of (heap s3) 11 = Fulfilled VUndef ∧
      "amp-access-error" ∈ classes (host s3) ∧
      pst_of (heap s3) firstAuthorizationPromise_ = Pending.
Proof.
  let os := eval vm_compute in (demo_run demo_client demo_resolve_urls) in
  match os with
  | Some ?s0 =>
      let os' := eval vm_compute in
        (demo_steps demo_client
           [Answered 21 (Throw (Failure "network")); Micro 8] s0) in
      match os' with
      | Some ?s =>
          exists s0, s; do 3 (split; [vm_compute; reflexivity |]);
          destruct (authorization_failure_shows_error
                      (imports := demo_imports) demo_client false
                      "https://pub.example" false s 9 8 (Failure "network"))
            as (_ & (s1 & s2 & s3 & H1 & H2 & H3 & _ & _ & Hrun & Herr & _ &
                     Hfirst & _) & _);
          [eapply (reachable_steps (imports := demo_imports) demo_client
                     false "https://pub.example" s0
                     [Answered 21 (Throw (Failure "network")); Micro 8]);
           [apply (run_reachable demo_client false "https://pub.example" 0
                     true true 50 demo_resolve_urls) |];
           vm_compute; reflexivity
          |left; reflexivity
          |vm_compute; reflexivity ..
          |exists s1, s2, s3; split_and!; try done;
           rewrite Hfirst; vm_compute; reflexivity]
      end
  end.
Defined.
Abbreviation demo_login_url := (VStr "https://pub.example/login?rid=reader").

(** A view after a successful authorization: the timer of [scheduleView_]
    fires at 2000 ms, the wait (13) and its disarming (14) settle, and the
    reaction to the view (15) takes up the last authorization promise (12). *)
Abbreviation demo_viewed :=
  [Tick 2000; TimerFired 1; Micro 14; Micro 15; Micro 15].



(** A response that says [false] for a field and one that does not have the
    field give the same answer, [null]. *)
Lemma getAuthdataField_null_when_falsy_witness :
  ∃ s1 s2,
    demo_run demo_client
      (demo_resolve_urls ++
       [Answered 21 (Ok (VJson (JObj [("subscriber", JBool false)])))])
      = Some s1 ∧
    demo_run demo_client
      (demo_resolve_urls ++
       [Answered 21 (Ok (VJson (JObj [("views", JNum 3)])))])
      = Some s2 ∧
    fst (run_fulfilled (imports := demo_imports) demo_client false
           "https://pub.example" (HGetAuthdataField "subscriber") VUndef s1)
      = Ok (RetVal (VJson JNull)) ∧
    fst (run_fulfilled (imports := demo_imports) demo_client false
           "https://pub.example" (HGetAuthdataField "subscriber") VUndef s1) =
    fst (run_fulfilled (imports := demo_imports) demo_client false
           "https://pub.example" (HGetAuthdataField "subscriber") VUndef s2).
Proof.
  do 2 eexists. do 3 (split; [vm_compute; reflexivity |]).
  eapply (getAuthdataField_null_when_falsy (imports := demo_imports)
            demo_client false "https://pub.example" "subscriber"
            (started demo_client false 0 true true));
    vm_compute; reflexivity.
Defined.


(** [scheduleView_(2000)] at the start of the page arms the wait 13 under
    the handles 0..3.  A scroll at 500 ms settles it as viewed at 500 ms, a
    hidden page at 100 ms cancels it, and either way the reaction 14 releases
    the listeners and the timer. *)
Lemma view_wait_first_trigger_disarms_witness :
  ∃ s, demo_run demo_client [] = Some s ∧
  armed s 13 0 2000 ∧
  (∃ a1 a2 a3,
     demo_task demo_client (Tick 500) s = Some a1 ∧
     demo_task demo_client Scrolled a1 = Some a2 ∧
     demo_micro demo_client 14 a2 = Some a3 ∧
     pst_of (heap a2) 13 = Fulfilled VUndef ∧
     released a3 0 ∧ pst_of (heap a3) 14 = Fulfilled VUndef ∧
     now (host a3) = 500) ∧
  (∃ a1 a2 a3,
     demo_task demo_client (Tick 100) s = Some a1 ∧
     demo_task demo_client (VisibilityChanged false) a1
       = Some a2 ∧
     demo_micro demo_client 14 a2 = Some a3 ∧
     pst_of (heap a2) 13 = Rejected Cancellation ∧
     released a3 0 ∧ pst_of (heap a3) 14 = Rejected Cancellation ∧
     now (host a3) = 100).
Proof.
  let os := eval vm_compute in (demo_run demo_client []) in
  match os with
  | Some ?s =>
      exists s; split; [vm_compute; reflexivity |];
      assert (reachable (imports := demo_imports) demo_client false
                "https://pub.example" s) as Hreach
        by (apply (run_reachable demo_client false "https://pub.example" 0
                     true true 50 []); vm_compute; reflexivity);
      destruct (view_wait_first_trigger_disarms (imports := demo_imports)
                  demo_client false "https://pub.example" s 2000 Hreach)
        as (_ & _ & Harmed & Htriggered & _);
      assert (armed s 13 0 2000) as Ha
        by (split_and!; first [reflexivity | simpl; repeat constructor]);
      split; [exact Ha |];
      destruct (Harmed _ _ _ _ Ha) as (Htick & _);
      clear Hreach Ha;
      split;
      [let o1 := eval vm_compute in
         (demo_task demo_client (Tick 500) s) in
       match o1 with
       | Some ?a1 =>
           let o2 := eval vm_compute in
             (demo_task demo_client Scrolled a1) in
           match o2 with
           | Some ?a2 =>
               assert (demo_task demo_client (Tick 500) s = Some a1) as H1
                 by (vm_compute; reflexivity);
               assert (demo_task demo_client Scrolled a1 = Some a2) as H2
                 by (vm_compute; reflexivity);
               destruct (Htick _ _ H1) as (Ha1 & _ & _);
               destruct (Harmed _ _ _ _ Ha1) as (_ & Hscroll & _);
               destruct (Htriggered _ _ _ _ (Hscroll _ H2) (or_introl eq_refl))
                 as (_ & a3 & H3 & Hrel & Hst & Hn);
               exists a1, a2, a3;
               split_and!;
                 [exact H1 | exact H2 | exact H3 | vm_compute; reflexivity
                 | exact Hrel | exact Hst | exact Hn]
           end
       end
      |let o1 := eval vm_compute in
         (demo_task demo_client (Tick 100) s) in
       match o1 with
       | Some ?a1 =>
           let o2 := eval vm_compute in
             (demo_task demo_client (VisibilityChanged false) a1) in
           match o2 with
           | Some ?a2 =>
               assert (demo_task demo_client (Tick 100) s = Some a1) as H1
                 by (vm_compute; reflexivity);
               assert (demo_task demo_client (VisibilityChanged false) a1 = Some a2) as H2
                 by (vm_compute; reflexivity);
               destruct (Htick _ _ H1) as (Ha1 & _ & _);
               destruct (Harmed _ _ _ _ Ha1) as (_ & _ & _ & _ & Hhide);
               destruct (Htriggered _ _ _ _ (Hhide _ H2) (or_intror eq_refl))
                 as (_ & a3 & H3 & Hrel & Hst & Hn);
               exists a1, a2, a3;
               split_and!;
                 [exact H1 | exact H2 | exact H3 | vm_compute; reflexivity
                 | exact Hrel | exact Hst | exact Hn]
           end
       end]
  end.
Defined.

(** ** Facts on property lists and on the login map *)

Section LoginMapFacts.

Lemma assoc_set_eq {A} k (v : A) l : assoc k (assoc_set k v l) = Some v.
Proof.
  induction l as [| [k' v'] l IH]; simpl.
  - by rewrite String.eqb_refl.
  - destruct (String.eqb k k') eqn:E; simpl; rewrite ?E, ?String.eqb_refl;
      done.
Qed.

Lemma assoc_set_ne {A} k k' (v : A) l :
  k ≠ k' → assoc k (assoc_set k' v l) = assoc k l.
Proof.
  intros Hne. apply String.eqb_neq in Hne.
  induction l as [| [k0 v0] l IH]; simpl.
  - by rewrite Hne.
  - destruct (String.eqb k' k0) eqn:E; simpl.
    + apply String.eqb_eq in E as <-. by rewrite Hne.
    + by rewrite IH.
Qed.

Lemma assoc_None {A} k (l : list (string * A)) :
  assoc k l = None ↔ k ∉ map fst l.
Proof.
  induction l as [| [k' v'] l IH]; simpl.
  - split; [intros _; apply not_elem_of_nil | done].
  - rewrite not_elem_of_cons. destruct (String.eqb k k') eqn:E.
    + apply String.eqb_eq in E. split; [done | by intros [? _]].
    + apply String.eqb_neq in E. rewrite IH. naive_solver.
Qed.

Lemma assoc_set_keys {A} k (v : A) l :
  NoDup (map fst l) → NoDup (map fst (assoc_set k v l)) ∧
  ∀ k', k' ∈ map fst (assoc_set k v l) ↔ k' = k ∨ k' ∈ map fst l.
Proof.
  induction l as [| [k0 v0] l IH]; simpl.
  - intros _. split; [apply NoDup_singleton | intros k'; set_solver].
  - intros [Hk0 Hnd]%NoDup_cons. destruct (IH Hnd) as [IH1 IH2].
    destruct (String.eqb k k0) eqn:E; simpl.
    + apply String.eqb_eq in E as ->. split; [by apply NoDup_cons |].
      intros k'. set_solver.
    + apply String.eqb_neq in E. split.
      * apply NoDup_cons. split; [| done]. rewrite IH2. naive_solver.
      * intros k'. rewrite !elem_of_cons, IH2. naive_solver.
Qed.


(** An assignment to a key other than [__proto__] writes an own property,
    and leaves the prototype alone. *)
Lemma obj_set_plain k v o :
  k ≠ "__proto__" →
  obj_set k v o = Obj (assoc_set k v (own o)) (proto o).
Proof.
  intros Hk%String.eqb_neq. unfold obj_set. rewrite Hk. simpl.
  by destruct (has_own k (own o)).
Qed.

(** The first assignment to [__proto__] on an object that still has the
    prototype [Object.prototype] writes no own property. *)
Lemma obj_set_proto v o :
  assoc "__proto__" (own o) = None → proto o = ProtoObject →
  own (obj_set "__proto__" v o) = own o ∧
  proto (obj_set "__proto__" v o) = proto (obj_set "__proto__" v empty_object).
Proof.
  intros Hown Hp. unfold obj_set, has_own. rewrite Hown, Hp. simpl.
  by destruct v.
Qed.

(** What the copy loop leaves under a key other than [__proto__]: the value
    of the source when the key was visited and the source has it, what was
    there otherwise. *)
Lemma assoc_copy_props keys src acc k :
  k ≠ "__proto__" →
  assoc k (own (copy_props keys src acc)) =
  match (if bool_decide (k ∈ keys) then assoc k src else None) with
  | Some v => Some v
  | None => assoc k (own acc)
  end.
Proof.
  intros Hk. revert acc. induction keys as [| k0 keys IH]; intros acc;
    simpl copy_props.
  - case_bool_decide as Hin; [by apply elem_of_nil in Hin | done].
  - rewrite IH. destruct (decide (k = k0)) as [<- | Hne].
    + rewrite (bool_decide_eq_true_2 (k ∈ k :: keys)) by left.
      destruct (assoc k src) as [v |] eqn:Hv.
      * rewrite obj_set_plain by done. simpl.
        by case_bool_decide; rewrite ?assoc_set_eq.
      * by case_bool_decide.
    + assert (bool_decide (k ∈ k0 :: keys) = bool_decide (k ∈ keys)) as ->.
      { apply bool_decide_ext. set_solver. }
      assert (∀ v, assoc k (own (obj_set k0 v acc)) = assoc k (own acc))
        as Hset.
      { intros v. unfold obj_set.
        destruct (has_own k0 (own acc)); simpl; [by rewrite assoc_set_ne |].
        destruct (_ && _); [by destruct v |].
        simpl. by rewrite assoc_set_ne. }
      case_bool_decide; destruct (assoc k src); try done;
        destruct (assoc k0 src); by rewrite ?Hset.
Qed.

(** The loop touches the prototype, and the own property [__proto__], only
    when it visits the key [__proto__]. *)
Lemma copy_props_no_proto keys src acc :
  "__proto__" ∉ keys →
  proto (copy_props keys src acc) = proto acc ∧
  assoc "__proto__" (own (copy_props keys src acc)) =
    assoc "__proto__" (own acc).
Proof.
  revert acc. induction keys as [| k0 keys IH]; intros acc Hnin; simpl;
    [done |].
  apply not_elem_of_cons in Hnin as [Hne Hnin].
  destruct (IH (match assoc k0 src with
                | Some v => obj_set k0 v acc
                | None => acc
                end) Hnin) as [-> ->].
  destruct (assoc k0 src) as [v |]; [| done].
  rewrite obj_set_plain by done. simpl. by rewrite assoc_set_ne.
Qed.

(** Visiting [__proto__] once, as the enumeration of a parsed object does,
    never makes it an own property: it sets the prototype, when the value is
    an object, an array or [null]. *)
Lemma copy_props_proto keys src acc :
  NoDup keys → proto acc = ProtoObject →
  assoc "__proto__" (own acc) = None →
  assoc "__proto__" (own (copy_props keys src acc)) = None ∧
  proto (copy_props keys src acc) =
    match (if bool_decide ("__proto__" ∈ keys) then assoc "__proto__" src
           else None) with
    | Some v => proto (obj_set "__proto__" v empty_object)
    | None => ProtoObject
    end.
Proof.
  revert acc. induction keys as [| k0 keys IH]; intros acc Hnd Hp Hown;
    simpl copy_props.
  - by case_bool_decide as Hin; [apply elem_of_nil in Hin |].
  - apply NoDup_cons in Hnd as [Hk0 Hnd].
    destruct (decide (k0 = "__proto__")) as [-> | Hne].
    + rewrite (bool_decide_eq_true_2 ("__proto__" ∈ "__proto__" :: keys))
        by left.
      destruct (copy_props_no_proto keys src
                  (match assoc "__proto__" src with
                   | Some v => obj_set "__proto__" v acc
                   | None => acc
                   end) Hk0) as [-> ->].
      destruct (assoc "__proto__" src) as [v |]; [| done].
      destruct (obj_set_proto v acc Hown Hp) as [-> ->]. done.
    + assert (bool_decide ("__proto__" ∈ k0 :: keys) =
              bool_decide ("__proto__" ∈ keys)) as ->.
      { apply bool_decide_ext. set_solver. }
      apply IH; [done | |]; destruct (assoc k0 src); try done;
        rewrite obj_set_plain by done; simpl; [done |].
      by rewrite assoc_set_ne.
Qed.

Lemma NoDup_copy_props keys src acc :
  NoDup (map fst (own acc)) →
  NoDup (map fst (own (copy_props keys src acc))).
Proof.
  revert acc. induction keys as [| k0 keys IH]; intros acc Hnd; simpl;
    [done |].
  apply IH. destruct (assoc k0 src) as [v |]; [| done].
  unfold obj_set. destruct (has_own k0 (own acc)); simpl;
    [by apply assoc_set_keys |].
  destruct (_ && _); [by destruct v |]. simpl. by apply assoc_set_keys.
Qed.

End LoginMapFacts.

Section ConfigFacts.
Context {imports : Imports}.

Lemma user_assert_ok cond msg k c :
  user_assert cond msg k = Ok c → cond = true ∧ k = Ok c.
Proof. unfold user_assert. destruct cond; [done | discriminate]. Qed.




(** What a successful construction guarantees. *)
Lemma buildConfig_ok configJson props c :
  own_props configJson = Ok props →
  buildConfig_ (Some configJson) = Ok c →
  config_type (assoc "type" props) = Some (type c) ∧
  authorization c = assoc "authorization" props ∧
  pingback c = assoc "pingback" props ∧
  buildConfigLoginMap_ (assoc "login" props) = Ok (loginMap c) ∧
  url_ok (authorization c) = true ∧
  url_ok (pingback c) = true ∧
  forallb (λ kv, assertHttpsUrl (snd kv)) (obj_entries (loginMap c)) = true ∧
  (type c = CLIENT ∨ type c = SERVER →
   truthy (authorization c) = true ∧ truthy (pingback c) = true ∧
   obj_size (loginMap c) ≠ 0%nat).
Proof.
  intros Hp. unfold buildConfig_. rewrite Hp.
  destruct (config_type _) as [ty|]; [| discriminate].
  destruct (buildConfigLoginMap_ _) as [lm|]; [| discriminate].
  cbv zeta. intros H.
  apply user_assert_ok in H as [H1 H]. apply user_assert_ok in H as [H2 H].
  apply user_assert_ok in H as [H3 H]. simpl in *.
  destruct (bool_decide (ty = CLIENT) || bool_decide (ty = SERVER)) eqn:Hty.
  - apply user_assert_ok in H as [H4 H]. apply user_assert_ok in H as [H5 H].
    apply user_assert_ok in H as [H6 H]. injection H as <-. simpl in *.
    split_and!; try done. intros _. split_and!; try done.
    apply Z.ltb_lt in H6. lia.
  - injection H as <-. simpl. split_and!; try done.
    intros [-> | ->]; simpl in Hty; discriminate.
Qed.


End ConfigFacts.


(** With the client configuration the fetch is issued (21) with its timer
    (5) at 3000 ms; the timer, or a failed answer, rejects it. *)
Lemma authorization_fetch_timeout_fallback_witness :
  skips_authorization demo_client false = false ∧
  ∃ s, demo_run demo_client demo_resolve_urls = Some s ∧
       heap s !! 21%nat =
         Some (Cell (ODeferred
                       (XFetch (VStr "https://pub.example/auth?rid=reader")))
                 Pending) ∧
       timers (host s) = [(1%nat, Timer 2000 (TViewTimer 13));
                          (5%nat, Timer 3000 (TFetchTimeout 21))] ∧
       pst_of (heap (snd (fire_timer (TFetchTimeout 21) s))) 21
         = Rejected TimeoutError ∧
       ∀ e, ∃ s', demo_task demo_client (Answered 21 (Throw e)) s = Some s' ∧
                  pst_of (heap s') 21 = Rejected e.
Proof.
  split; [reflexivity |].
  eexists. do 3 (split; [vm_compute; reflexivity |]).
  eapply (proj1 (proj2 (proj2 (proj2
            (authorization_fetch_timeout_fallback (imports := demo_imports)
               demo_client false "https://pub.example" false
               (started demo_client false 0 true true)
               (JStr "https://pub.example/auth")
               eq_refl eq_refl eq_refl))))).
  vm_compute. reflexivity.
Defined.

(** ** More on the configuration *)

(** X1. The login map built from the configuration: the empty object for a
    falsy value; the single URL under the empty key for a string; for an
    object a map with each key once that answers, under every key other than
    [__proto__], with the own property the object has there, while the
    property [__proto__] of the object is never copied as a property: it
    becomes the prototype of the map when it is an object, an array or
    [null], and is dropped otherwise. Any other value is a user error. *)
Theorem buildConfigLoginMap_lookup :
  (∀ v, truthy v = false → buildConfigLoginMap_ v = Ok empty_object) ∧
  (∀ s, s ≠ "" →
        buildConfigLoginMap_ (Some (JStr s)) =
          Ok (Obj [("", JStr s)] ProtoObject)) ∧
  (∀ l, ∃ lm, buildConfigLoginMap_ (Some (JObj l)) = Ok lm ∧
              NoDup (map fst (own lm)) ∧
              (∀ k, k ≠ "__proto__" → assoc k (own lm) = assoc k l) ∧
              (NoDup (map fst l) →
               assoc "__proto__" (own lm) = None ∧
               proto lm =
                 match assoc "__proto__" l with
                 | Some (JObj p) => ProtoObj p
                 | Some (JArr p) => ProtoArr p
                 | Some JNull => ProtoNull
                 | _ => ProtoObject
                 end)) ∧
  (∀ v, truthy (Some v) = true → (∀ s, v ≠ JStr s) → (∀ l, v ≠ JObj l) →
        is_user_error (buildConfigLoginMap_ (Some v))).
Proof.
  split_and!.
  - intros v Hv. unfold buildConfigLoginMap_. by rewrite Hv.
  - intros s Hs. unfold buildConfigLoginMap_.
    assert (truthy (Some (JStr s)) = true) as ->; [| done].
    unfold truthy. by apply negb_true_iff, String.eqb_neq.
  - intros l. eexists. split; [reflexivity |]. split_and!.
    + apply NoDup_copy_props. constructor.
    + intros k Hk. rewrite assoc_copy_props by done. simpl.
      case_bool_decide as Hin; [by destruct (assoc k l) |].
      simpl. symmetry. by apply assoc_None.
    + intros Hnd.
      destruct (copy_props_proto (map fst l) l empty_object Hnd)
        as [Hown Hproto]; [done | done |].
      split; [done |]. rewrite Hproto.
      case_bool_decide as Hin.
      * by destruct (assoc "__proto__" l) as [[] |].
      * apply assoc_None in Hin. by rewrite Hin.
  - intros v Hv Hs Hl. unfold buildConfigLoginMap_. rewrite Hv. simpl.
    destruct v; try (by eexists); [by destruct (Hs s) | by destruct (Hl l)].
Qed.

Section ConfigMore.
Context {imports : Imports}.

(** X2. A text that does not parse is a user error, and so is any tree that
    is not an object (a number, a string, a boolean, an array) or is the
    empty object: it has none of the properties, so it is a client
    configuration without its authorization URL. The tree [null] is not: the
    first property read throws a [TypeError]. *)
Theorem buildConfig_not_an_object :
  is_user_error (buildConfig_ None) ∧
  buildConfig_ (Some JNull) = Throw TypeError ∧
  is_user_error (buildConfig_ (Some (JObj []))) ∧
  (∀ j, j ≠ JNull → (∀ l, j ≠ JObj l) →
        is_user_error (buildConfig_ (Some j))).
Proof.
  split_and!; [by eexists | done | by eexists |].
  intros j Hnull Hobj.
  destruct j as [| b | n | str | l | l];
    [done | by eexists .. | by destruct (Hobj l)].
Qed.

(** X3. With the access type [other] nothing is mandatory: the
    configuration is built from whatever is given, the login map possibly
    empty, as long as the authorization URL and the pingback URL, when
    given, and every entry [for .. in] enumerates in the login map pass the
    secure-URL assertion; one that does not is a user error, as for the other
    types. *)
Theorem buildConfig_other configJson props lm :
  own_props configJson = Ok props →
  config_type (assoc "type" props) = Some OTHER →
  buildConfigLoginMap_ (assoc "login" props) = Ok lm →
  (url_ok (assoc "authorization" props) = true →
   url_ok (assoc "pingback" props) = true →
   forallb (λ kv, assertHttpsUrl (snd kv)) (obj_entries lm) = true →
   buildConfig_ (Some configJson) =
     Ok {| type := OTHER;
           authorization := assoc "authorization" props;
           pingback := assoc "pingback" props;
           loginMap := lm;
           authorizationFallbackResponse :=
             assoc "authorizationFallbackResponse" props |}) ∧
  (url_ok (assoc "authorization" props) = false ∨
   url_ok (assoc "pingback" props) = false ∨
   forallb (λ kv, assertHttpsUrl (snd kv)) (obj_entries lm) = false →
   is_user_error (buildConfig_ (Some configJson))).
Proof.
  intros Hp Hty Hlm. unfold buildConfig_. rewrite Hp, Hty, Hlm. cbv zeta.
  simpl. split.
  - by intros -> -> ->.
  - intros Hbad. unfold user_assert.
    destruct (url_ok (assoc "authorization" props)); [| by eexists].
    destruct (url_ok (assoc "pingback" props)); [| by eexists].
    destruct (forallb _ (obj_entries lm)); [| by eexists].
    by destruct Hbad as [? | [? | ?]].
Qed.

(** X4. A configuration that [buildConfig_] accepted never trips the
    assertions of [runAuthorization_] (l.401-404): whatever the origin of the
    page and the flag, the run returns its promise. *)
Theorem validated_config_runs parsed config proxy d s :
  buildConfig_ parsed = Ok config →
  ∃ promise s', runAuthorization_ config proxy d s = (Ok promise, s').
Proof.
  intros Hc. destruct parsed as [configJson |]; [| done].
  destruct (own_props configJson) as [props |] eqn:Hp;
    [| by unfold buildConfig_ in Hc; rewrite Hp in Hc].
  destruct (buildConfig_ok _ _ _ Hp Hc)
    as (_ & _ & _ & _ & _ & _ & _ & Hmandatory).
  destruct (authorization config) as [url |] eqn:Hurl.
  - destruct (truthy (Some url)) eqn:Htr;
      [by eapply runAuthorization_returns |].
    unfold runAuthorization_.
    destruct (skips_authorization config proxy) eqn:Hskip; [by eexists _, _ |].
    rewrite Hurl, Htr. unfold skips_authorization in Hskip.
    destruct (type config) eqn:Hty;
      try (exfalso; destruct Hmandatory as (Ha & _); first [congruence | by left | by right | by unfold truthy in Ha]).
    simpl in Hskip. apply orb_false_iff in Hskip as [Hfb ->].
    apply negb_false_iff in Hfb. unfold dev_assert, bind. simpl.
    rewrite Hfb. by eexists _, _.
  - unfold runAuthorization_.
    destruct (skips_authorization config proxy) eqn:Hskip; [by eexists _, _ |].
    rewrite Hurl. unfold skips_authorization in Hskip.
    destruct (type config) eqn:Hty;
      try (exfalso; destruct Hmandatory as (Ha & _); first [congruence | by left | by right | by unfold truthy in Ha]).
    simpl in Hskip. apply orb_false_iff in Hskip as [Hfb ->].
    apply negb_false_iff in Hfb. unfold dev_assert, bind. simpl.
    rewrite Hfb. by eexists _, _.
Qed.

End ConfigMore.

(** ** Examples for the further properties *)

(** [{"type": "other"}] alone is a complete configuration. *)
Lemma buildConfig_other_witness :
  buildConfig_ (imports := demo_imports) (Some (JObj [("type", JStr "other")]))
    = Ok {| type := OTHER; authorization := None; pingback := None;
            loginMap := empty_object;
            authorizationFallbackResponse := None |}.
Proof.
  refine (proj1 (buildConfig_other (imports := demo_imports)
                   (JObj [("type", JStr "other")]) [("type", JStr "other")]
                   empty_object _ _ _) _ _ _);
    vm_compute; reflexivity.
Defined.

(** The client configuration, as parsed, runs on the page just made. *)
Lemma validated_config_runs_witness :
  ∃ promise s',
    runAuthorization_ demo_client false false (constructed 0 true true)
      = (Ok promise, s').
Proof.
  refine (validated_config_runs (imports := demo_imports)
            (Some (JObj [("authorization", JStr "https://pub.example/auth");
                         ("pingback", JStr "https://pub.example/ping");
                         ("login", JStr "https://pub.example/login")]))
            demo_client false false (constructed 0 true true) _).
  vm_compute. reflexivity.
Defined.

(** At the start of the client page the reader id has been asked for once
    (3), and asking again gives the same promise. *)
Lemma reader_id_requested_once_witness :
  ∃ s, demo_run demo_client [] = Some s ∧ getReaderId_ s = (Ok 3%nat, s).
Proof.
  let os := eval vm_compute in (demo_run demo_client []) in
  match os with
  | Some ?s =>
      exists s; split; [vm_compute; reflexivity |];
      refine (proj1 (proj2 (reader_id_requested_once (imports := demo_imports)
                              demo_client false "https://pub.example" s _))
                3%nat Pending _);
      [ apply (run_reachable demo_client false "https://pub.example" 0 true
                 true 50 []); vm_compute; reflexivity
      | vm_compute; reflexivity ]
  end.
Defined.

(** A view of the page of type [other]: the first authorization is
    received (2), the analytics service arrives (1), the timer of the view
    fires at 2000 ms. *)
Abbreviation demo_other_viewed :=
  [Micro 2; Answered 1 (Ok VUndef); Tick 2000; TimerFired 1].

(** No fetch on the page of type [other], viewed or not. *)
Lemma skipped_authorization_never_fetches_witness :
  ∃ s, demo_run demo_other demo_other_viewed = Some s ∧
       Analytics "access-viewed" ∈ log s ∧
       ∀ u t, FetchJson u t ∉ log s.
Proof.
  let os := eval vm_compute in (demo_run demo_other demo_other_viewed) in
  match os with
  | Some ?s =>
      exists s; split; [vm_compute; reflexivity |];
      split; [apply (list_elem_of_lookup_2 _ 2%nat); reflexivity |];
      refine (proj1 (skipped_authorization_never_fetches
                       (imports := demo_imports) demo_other false
                       "https://pub.example" s _ _));
      [ vm_compute; reflexivity
      | apply (run_reachable demo_other false "https://pub.example" 0 true
                 true 50 demo_other_viewed); vm_compute; reflexivity ]
  end.
Defined.

(** It has no pingback URL: the view is not reported. *)
Lemma no_pingback_without_url_witness :
  ∃ s, demo_run demo_other demo_other_viewed = Some s ∧
       Analytics "access-viewed" ∈ log s ∧
       ∀ u, SendSignal u ∉ log s.
Proof.
  let os := eval vm_compute in (demo_run demo_other demo_other_viewed) in
  match os with
  | Some ?s =>
      exists s; split; [vm_compute; reflexivity |];
      split; [apply (list_elem_of_lookup_2 _ 2%nat); reflexivity |];
      intros u;
      refine (no_pingback_without_url (imports := demo_imports) demo_other
                false "https://pub.example" s u _ _);
      [ vm_compute; reflexivity
      | apply (run_reachable demo_other false "https://pub.example" 0 true
                 true 50 demo_other_viewed); vm_compute; reflexivity ]
  end.
Defined.

(** The client page, authorized and viewed: once the pingback URL is
    expanded (33) the pingback is sent. *)
Abbreviation demo_pingback :=
  (demo_authorized ++
   [Answered 27 (Ok demo_login_url); Tick 2000; TimerFired 1;
    Answered 33 (Ok (VStr "https://pub.example/ping?rid=reader"))])%list.

Lemma pingback_only_after_view_witness :
  ∃ s, demo_run demo_client demo_pingback = Some s ∧
       SendSignal (VStr "https://pub.example/ping?rid=reader") ∈ log s ∧
       ∃ p st,
         heap s !! p =
           Some (Cell (OThen analyticsPromise_
                         (Some (HTriggerEvent "access-viewed")) None) st).
Proof.
  let os := eval vm_compute in (demo_run demo_client demo_pingback) in
  match os with
  | Some ?s =>
      exists s; split; [vm_compute; reflexivity |];
      assert (SendSignal (VStr "https://pub.example/ping?rid=reader") ∈ log s)
        as Hsent by (apply (list_elem_of_lookup_2 _ 1%nat); reflexivity);
      split; [exact Hsent |];
      refine (pingback_only_after_view (imports := demo_imports) demo_client
                false "https://pub.example" s _ _ Hsent);
      apply (run_reachable demo_client false "https://pub.example" 0 true
               true 50 demo_pingback); vm_compute; reflexivity
  end.
Defined.

(** The client page has no login of type [premium]. *)
Lemma login_refused_witness :
  ∃ msg, login (imports := demo_imports) demo_client "premium"
           (started demo_client false 0 true true)
           = (Throw (UserError msg), started demo_client false 0 true true).
Proof.
  refine (proj1 (login_refused (imports := demo_imports) demo_client "premium"
                   (started demo_client false 0 true true) _ _)).
  - left. vm_compute. reflexivity.
  - left. vm_compute. reflexivity.
Defined.

(** A name that [Object.prototype] answers passes both tests of [login],
    though the page has no such login: the dialog is opened with what the
    prototype answers. *)
Example login_inherited_name_opens_dialog :
  ∃ s p s',
    demo_run demo_client demo_resolve_urls = Some s ∧
    demo_login "constructor" s = (Ok p, s') ∧
    log s' = log s ++ [OpenLoginDialog (VBuiltin "constructor")].
Proof. do 3 eexists. split_and!; vm_compute; reflexivity. Qed.

(** A login dialog of the client page that fails. *)
Lemma login_failure_releases_witness :
  ∃ s, demo_run demo_client demo_resolve_urls = Some s ∧
    ∃ d s1 s2 s3 s4,
      demo_login "" s = (Ok (S (S d)), s1) ∧
      demo_task demo_client (Answered d (Throw (Failure "closed"))) s1
        = Some s2 ∧
      demo_micro demo_client (S d) s2 = Some s3 ∧
      demo_micro demo_client (S (S d)) s3 = Some s4 ∧
      pst_of (heap s4) (S (S d)) = Rejected (Failure "closed") ∧
      loginPromise_ (this s4) = None.
Proof.
  let os := eval vm_compute in (demo_run demo_client demo_resolve_urls) in
  match os with
  | Some ?s =>
      exists s; split; [vm_compute; reflexivity |];
      destruct (login_failure_releases (imports := demo_imports) demo_client
                  false "https://pub.example" "" s (Failure "closed"))
        as (d & s1 & s2 & s3 & s4 & H1 & H2 & H3 & H4 & H5 & H6 & _);
      [ left; vm_compute; reflexivity
      | vm_compute; reflexivity
      | vm_compute; reflexivity
      | exists d, s1, s2, s3, s4; repeat split; assumption ]
  end.
Defined.

(** The login URL of the client page, once expanded. *)
Lemma login_url_ready_witness :
  ∃ s1,
    run_fulfilled (imports := demo_imports) demo_client false
      "https://pub.example" (HLoginUrl "")
      (VStr "https://pub.example/login?rid=reader")
      (started demo_client false 0 true true)
    = (Ok (RetVal (VJson (JObj
         [("type", JStr "");
          ("url", JStr "https://pub.example/login?rid=reader")]))), s1) ∧
    loginUrlMap_ (this s1) !! "" = Some "https://pub.example/login?rid=reader".
Proof.
  destruct (login_url_ready (imports := demo_imports) demo_client false
              "https://pub.example" ""
              "https://pub.example/login?rid=reader"
              (started demo_client false 0 true true))
    as (s1 & H1 & H2 & _).
  - vm_compute. reflexivity.
  - discriminate.
  - left. vm_compute. reflexivity.
  - exists s1. split; [assumption | by apply H2].
Defined.

(** The client page, ready and visible at its start: the view wait is armed
    for 2000 ms. *)
Lemma start_schedules_view_witness :
  ∃ p n, armed (started demo_client false 0 true true) p n 2000 ∧
         is_Some (reportViewPromise_
                    (this (started demo_client false 0 true true))).
Proof.
  refine (proj1 (start_schedules_view demo_client false 0 _)).
  left. vm_compute. reflexivity.
Defined.
